(** * Coffeefy front end: the client-side logic, embedded and verified

    The repository is a web front end.  What it computes on its own is
    small: one fetch wrapper ([lib/api.ts]), the auth session kept in
    [localStorage] ([context/auth-context.tsx]), the grouping and the
    filtering of fetched collections ([app/cliente/page.tsx]), a polling
    timer and a status table (the orders page), and tables of labels.
    The lists it shows are keyed React children: the loyalty page's two
    top lists are followed through React's reconciliation of keyed
    children down to the DOM nodes on screen.

    Part I embeds these functions, one module per source file.  Part II
    proves the properties, Part III those of the functions around
    them. *)

From stdpp Require Import gmap strings list pretty sorting.
From Stdlib Require Import ZArith Lia Permutation Sorted Ascii.
From Stdlib Require OrderedTypeEx.

Set Warnings "-register-all".
Open Scope Z_scope.


(** * Part I.  The embedding *)

(** ** The JavaScript values and platform functions the code relies on *)

Module JS.

(** A JavaScript value as far as JSON and the code below can tell:
    [undefined], [null], booleans, numbers (integers are all the code
    meets), strings, arrays, and objects as property lists in insertion
    order. *)
Inductive value :=
| undefined
| null
| boolean (b : bool)
| number (n : Z)
| str (s : string)
| array (xs : list value)
| object (props : list (string * value)).

(** [v === undefined]. *)
Definition is_undefined (v : value) : bool :=
  match v with undefined => true | _ => false end.

(** [ToBoolean]: what [if (v)], [!v] and [v ? a : b] test. *)
Definition truthy (v : value) : bool :=
  match v with
  | undefined | null => false
  | boolean b => b
  | number n => negb (n =? 0)%Z
  | str s => negb (String.eqb s EmptyString)
  | array _ | object _ => true
  end.

(** [if (s)] for [s : string | null | undefined]. *)
Definition truthy_string (s : option string) : bool :=
  match s with
  | Some s => negb (String.eqb s EmptyString)
  | None => false
  end.

Fixpoint lookup_prop (k : string) (props : list (string * value))
  : value :=
  match props with
  | [] => undefined
  | (k', v) :: rest => if String.eqb k k' then v else lookup_prop k rest
  end.

(** The property read [v.k]: [None] is the TypeError of reading a
    property of [undefined] or [null]; a missing property reads as
    [undefined]. *)
Definition get (v : value) (k : string) : option value :=
  match v with
  | undefined | null => None
  | object props => Some (lookup_prop k props)
  | _ => Some undefined
  end.

(** What a call or an [await] completes with. *)
Inductive thrown :=
| ApiError (message : string) (status : Z) (details : value)
| SyntaxError
| TypeError.

Inductive completion (A : Type) :=
| Return (a : A)
| Throw (e : thrown).
Arguments Return {A} a.
Arguments Throw {A} e.

Definition bind {A B} (c : completion A) (k : A -> completion B)
  : completion B :=
  match c with
  | Return a => k a
  | Throw e => Throw e
  end.

(** The functions of the platform that the code calls and the
    repository does not define.  [JSON_parse s = None] is the
    SyntaxError of [JSON.parse]; [NEXT_PUBLIC_API_BASE_URL] is the
    build-time environment variable. *)
Record platform := {
  JSON_parse : string -> option value;
  JSON_stringify : value -> string;
  NEXT_PUBLIC_API_BASE_URL : option string;
}.

(** A [Response] of the Fetch standard, as far as the code observes
    it.  [body = None] is a null body.  Reading a body ([json()],
    [text()]) marks it used, and reading a used body rejects with a
    TypeError; a null body reads as the empty string and is never
    marked. *)
Record Response := {
  ok : bool;
  status : Z;
  statusText : string;
  body : option string;
  bodyUsed : bool;
}.

Definition consume_body (r : Response) : completion string * Response :=
  match body r with
  | None => (Return EmptyString, r)
  | Some bytes =>
      if bodyUsed r then (Throw TypeError, r)
      else (Return bytes,
            {| ok := ok r; status := status r; statusText := statusText r;
               body := body r; bodyUsed := true |})
  end.

Definition Response_text (r : Response) : completion string * Response :=
  consume_body r.

Definition Response_json (P : platform) (r : Response)
  : completion value * Response :=
  let '(c, r') := consume_body r in
  (bind c (fun bytes =>
             match JSON_parse P bytes with
             | Some v => Return v
             | None => Throw SyntaxError
             end), r').

(** [Array.prototype.sort] with a comparator.  ECMAScript asks for a
    stable sort, which fixes the result for a consistent comparator;
    insertion from the right is one: an element moves behind the
    elements that compare strictly below it, and no further. *)
Section ArraySort.
Context {A : Type} (compareFn : A -> A -> Z).

Fixpoint sort_insert (x : A) (sorted : list A) : list A :=
  match sorted with
  | [] => [x]
  | y :: rest =>
      if (compareFn x y <=? 0)%Z then x :: y :: rest
      else y :: sort_insert x rest
  end.

Definition Array_sort (xs : list A) : list A :=
  foldr sort_insert [] xs.
End ArraySort.

End JS.

(** ** Two idioms of the pages: the [Map] and the toggled list *)

Module Collections.

(** A JavaScript [Map]: the entries in the order of their first
    insertion; [set] on a key that is there replaces its value in
    place. *)
Section Map.
Context {K V : Type} `{EqDecision K}.

Fixpoint Map_set (k : K) (v : V) (m : list (K * V)) : list (K * V) :=
  match m with
  | [] => [(k, v)]
  | (k', v') :: rest =>
      if decide (k = k') then (k, v) :: rest
      else (k', v') :: Map_set k v rest
  end.

Fixpoint Map_get (k : K) (m : list (K * V)) : option V :=
  match m with
  | [] => None
  | (k', v') :: rest => if decide (k = k') then Some v' else Map_get k rest
  end.

(** [Array.from(map.values())]. *)
Definition Map_values (m : list (K * V)) : list V := map snd m.

Fixpoint Map_delete (k : K) (m : list (K * V)) : list (K * V) :=
  match m with
  | [] => []
  | (k', v') :: rest =>
      if decide (k = k') then rest else (k', v') :: Map_delete k rest
  end.

(** A run of [set]s, entry by entry. *)
Definition set_all (entries : list (K * V)) (m : list (K * V))
  : list (K * V) :=
  fold_left (fun m e => Map_set e.1 e.2 m) entries m.
End Map.

(** [prev.includes(x) ? prev.filter((id) => id !== x) : [...prev, x]]. *)
Definition toggle (x : Z) (prev : list Z) : list Z :=
  if bool_decide (x ∈ prev) then filter (fun id => id <> x) prev
  else prev ++ [x].

End Collections.

(** ** A reference JSON codec

    One concrete [platform], used to run the embedding on concrete
    inputs.  It covers the JSON the application stores and exchanges:
    literals, integers, strings with the quote, backslash, slash,
    [b f n r t] and [u00XX] escapes, arrays and objects.  [stringify] follows
    [JSON.stringify]: an [undefined] property is left out, an [undefined]
    array element is written [null]. *)

Module RefJSON.
Import JS.

Definition dquote : ascii := ascii_of_N 34.

Definition hex_digit (n : N) : ascii :=
  ascii_of_N (if (n <? 10)%N then 48 + n else 87 + n)%N.

Definition escape_char (c : ascii) : string :=
  if Ascii.eqb c dquote then String "\" (String dquote EmptyString)
  else if Ascii.eqb c "\"%char then "\\"
  else if (N_of_ascii c <? 32)%N
       then "\u00" +:+ String (hex_digit (N_of_ascii c / 16))
                             (String (hex_digit (N_of_ascii c mod 16)) EmptyString)
       else String c EmptyString.

Fixpoint escape (s : string) : string :=
  match s with
  | EmptyString => EmptyString
  | String c rest => escape_char c +:+ escape rest
  end.

Definition quote (s : string) : string :=
  String dquote (escape s +:+ String dquote EmptyString).

Fixpoint join (sep : string) (parts : list string) : string :=
  match parts with
  | [] => EmptyString
  | [x] => x
  | x :: rest => x +:+ sep +:+ join sep rest
  end.

Fixpoint stringify (v : value) : string :=
  match v with
  | undefined => "null"
  | null => "null"
  | boolean true => "true"
  | boolean false => "false"
  | number n => pretty n
  | str s => quote s
  | array xs => "[" +:+ join "," (map stringify xs) +:+ "]"
  | object props =>
      "{" +:+ join ","
            (flat_map (fun kv =>
                         if is_undefined (snd kv) then []
                         else [quote (fst kv) +:+ ":" +:+ stringify (snd kv)])
                      props)
          +:+ "}"
  end.

Definition is_ws (c : ascii) : bool :=
  Ascii.eqb c " "%char || (N_of_ascii c =? 9)%N
  || (N_of_ascii c =? 10)%N || (N_of_ascii c =? 13)%N.

Fixpoint skip_ws (s : string) : string :=
  match s with
  | String c rest => if is_ws c then skip_ws rest else s
  | EmptyString => EmptyString
  end.

(** [expect lit s]: [s] without its prefix [lit]. *)
Fixpoint expect (lit s : string) : option string :=
  match lit, s with
  | EmptyString, _ => Some s
  | String a lit', String b s' =>
      if Ascii.eqb a b then expect lit' s' else None
  | _, _ => None
  end.

Definition hex_value (c : ascii) : option N :=
  let n := N_of_ascii c in
  if (48 <=? n)%N && (n <=? 57)%N then Some (n - 48)%N
  else if (97 <=? n)%N && (n <=? 102)%N then Some (n - 87)%N
  else if (65 <=? n)%N && (n <=? 70)%N then Some (n - 55)%N
  else None.

Definition simple_escape (e : ascii) : option ascii :=
  if Ascii.eqb e dquote then Some dquote
  else if Ascii.eqb e "\"%char then Some "\"%char
  else if Ascii.eqb e "/"%char then Some "/"%char
  else if Ascii.eqb e "b"%char then Some (ascii_of_N 8)
  else if Ascii.eqb e "f"%char then Some (ascii_of_N 12)
  else if Ascii.eqb e "n"%char then Some (ascii_of_N 10)
  else if Ascii.eqb e "r"%char then Some (ascii_of_N 13)
  else if Ascii.eqb e "t"%char then Some (ascii_of_N 9)
  else None.

(** The characters of a string literal after its opening quote. *)
Fixpoint parse_chars (s : string) : option (string * string) :=
  match s with
  | EmptyString => None
  | String c rest =>
      if Ascii.eqb c dquote then Some (EmptyString, rest)
      else if Ascii.eqb c "\"%char then
        match rest with
        | String e rest1 =>
            if Ascii.eqb e "u"%char then
              match rest1 with
              | String h1 (String h2 (String h3 (String h4 rest2))) =>
                  match hex_value h1, hex_value h2,
                        hex_value h3, hex_value h4 with
                  | Some 0%N, Some 0%N, Some a, Some b =>
                      if (a <? 8)%N then
                        match parse_chars rest2 with
                        | Some (cs, out) =>
                            Some (String (ascii_of_N (16 * a + b)) cs, out)
                        | None => None
                        end
                      else None
                  | _, _, _, _ => None
                  end
              | _ => None
              end
            else
              match simple_escape e, parse_chars rest1 with
              | Some c', Some (cs, out) => Some (String c' cs, out)
              | _, _ => None
              end
        | EmptyString => None
        end
      else if (N_of_ascii c <? 32)%N then None
      else
        match parse_chars rest with
        | Some (cs, out) => Some (String c cs, out)
        | None => None
        end
  end.

Definition is_digit (c : ascii) : bool :=
  (48 <=? N_of_ascii c)%N && (N_of_ascii c <=? 57)%N.

Fixpoint parse_digits (acc : Z) (s : string) : Z * string :=
  match s with
  | String c rest =>
      if is_digit c
      then parse_digits (10 * acc + Z.of_N (N_of_ascii c - 48)) rest
      else (acc, s)
  | EmptyString => (acc, s)
  end.

Definition parse_int (s : string) : option (Z * string) :=
  match s with
  | String c rest =>
      if Ascii.eqb c "-"%char then
        match rest with
        | String d _ =>
            if is_digit d
            then let '(n, out) := parse_digits 0 rest in Some (- n, out)
            else None
        | EmptyString => None
        end
      else if is_digit c then Some (parse_digits 0 s)
      else None
  | EmptyString => None
  end.

Fixpoint parse_value (fuel : nat) (s : string) : option (value * string) :=
  match fuel with
  | O => None
  | S fuel =>
      match skip_ws s with
      | String c rest =>
          if Ascii.eqb c "n"%char then
            out ← expect "ull" rest; Some (null, out)
          else if Ascii.eqb c "t"%char then
            out ← expect "rue" rest; Some (boolean true, out)
          else if Ascii.eqb c "f"%char then
            out ← expect "alse" rest; Some (boolean false, out)
          else if Ascii.eqb c dquote then
            '(cs, out) ← parse_chars rest; Some (str cs, out)
          else if Ascii.eqb c "["%char then
            match skip_ws rest with
            | String d out =>
                if Ascii.eqb d "]"%char then Some (array [], out)
                else parse_elements fuel rest []
            | EmptyString => None
            end
          else if Ascii.eqb c "{"%char then
            match skip_ws rest with
            | String d out =>
                if Ascii.eqb d "}"%char then Some (object [], out)
                else parse_members fuel rest []
            | EmptyString => None
            end
          else
            '(n, out) ← parse_int (String c rest); Some (number n, out)
      | EmptyString => None
      end
  end
with parse_elements (fuel : nat) (s : string) (acc : list value)
     : option (value * string) :=
  match fuel with
  | O => None
  | S fuel =>
      '(v, rest) ← parse_value fuel s;
      match skip_ws rest with
      | String c out =>
          if Ascii.eqb c ","%char then parse_elements fuel out (v :: acc)
          else if Ascii.eqb c "]"%char
               then Some (array (rev (v :: acc)), out)
               else None
      | EmptyString => None
      end
  end
with parse_members (fuel : nat) (s : string)
                   (acc : list (string * value))
     : option (value * string) :=
  match fuel with
  | O => None
  | S fuel =>
      match skip_ws s with
      | String q rest =>
          if Ascii.eqb q dquote then
            '(k, rest1) ← parse_chars rest;
            match skip_ws rest1 with
            | String c rest2 =>
                if Ascii.eqb c ":"%char then
                  '(v, rest3) ← parse_value fuel rest2;
                  match skip_ws rest3 with
                  | String d out =>
                      if Ascii.eqb d ","%char
                      then parse_members fuel out ((k, v) :: acc)
                      else if Ascii.eqb d "}"%char
                           then Some (object (rev ((k, v) :: acc)), out)
                           else None
                  | EmptyString => None
                  end
                else None
            | EmptyString => None
            end
          else None
      | EmptyString => None
      end
  end.

Definition parse (s : string) : option value :=
  '(v, rest) ← parse_value (2 * String.length s + 2) s;
  match skip_ws rest with
  | EmptyString => Some v
  | String _ _ => None
  end.

Definition ref_platform (base : option string) : platform :=
  {| JSON_parse := parse;
     JSON_stringify := stringify;
     NEXT_PUBLIC_API_BASE_URL := base |}.

End RefJSON.

(** ** [lib/api.ts] *)

Module Api.
Import JS.

Section WithPlatform.
Variable P : platform.

Definition API_BASE_URL : string :=
  default "http://localhost:8000" (NEXT_PUBLIC_API_BASE_URL P).

Record RequestOptions := {
  method : option string;
  headers : gmap string string;   (* [∅] when [options.headers] is absent *)
  body : value;                   (* [undefined] when absent *)
  token : option string;          (* [None] for [null] and [undefined] *)
}.

Record RequestInit := {
  init_method : string;
  init_headers : gmap string string;
  init_credentials : string;
  init_body : option string;
}.

(** [s.replace(/\/$/, empty)]: without the [m] flag [$] matches at the
    end of the input only, so one final ["/"] is dropped. *)
Fixpoint strip_trailing_slash (s : string) : string :=
  match s with
  | EmptyString => EmptyString
  | String c EmptyString =>
      if Ascii.eqb c "/"%char then EmptyString else s
  | String c rest => String c (strip_trailing_slash rest)
  end.

(** Lines 27-31. *)
Definition request_url (path : string) : string :=
  if String.prefix "http" path then path
  else strip_trailing_slash API_BASE_URL
       +:+ (if String.prefix "/" path then EmptyString else "/")
       +:+ path.

(** Lines 32-50.  [init.headers] is the object [headers], so the two
    assignments made after [init] is built show in the request. *)
Definition request_init (options : RequestOptions) : RequestInit :=
  let headers0 : gmap string string :=
    headers options ∪ {[ "Accept" := "application/json" ]} in
  let headers1 :=
    match token options with
    | Some t =>
        if truthy_string (Some t)
        then <[ "Authorization" := "Bearer " +:+ t ]> headers0
        else headers0
    | None => headers0
    end in
  let with_body := negb (is_undefined (body options)) in
  {| init_method := default "GET" (method options);
     init_headers :=
       if with_body
       then <[ "Content-Type" := "application/json" ]> headers1
       else headers1;
     init_credentials := "include";
     init_body :=
       if with_body then Some (JSON_stringify P (body options))
       else None |}.

(** Lines 54-72: what [apiFetch] does with the response, and the
    response as it leaves it. *)
Definition read_response (response : Response)
  : completion value * Response :=
  if negb (ok response) then
    let '(parsed, response1) := Response_json P response in
    match parsed with
    | Return details =>
        (Throw (ApiError
                  (if String.eqb (statusText response) EmptyString
                   then "Solicitud fallida" else statusText response)
                  (status response) details), response1)
    | Throw _ =>
        let '(text, response2) := Response_text response1 in
        match text with
        | Return details =>
            (Throw (ApiError
                      (if String.eqb (statusText response) EmptyString
                       then "Solicitud fallida" else statusText response)
                      (status response) (str details)), response2)
        | Throw e => (Throw e, response2)
        end
    end
  else if (status response =? 204)%Z then (Return undefined, response)
  else Response_json P response.

(** [fetch] is the network: it rejects or resolves with a response. *)
Definition apiFetch
           (fetch : string -> RequestInit -> completion Response)
           (path : string) (options : RequestOptions)
  : completion value :=
  bind (fetch (request_url path) (request_init options))
       (fun response => fst (read_response response)).

End WithPlatform.

End Api.

(** ** [context/auth-context.tsx]

    The provider's React state and the browser's [localStorage] are one
    record, threaded through the effect and the callbacks.  The effect
    and the callbacks run in the browser only, where [window] is defined,
    so their guard [typeof window === "undefined"] never returns.

    [tokens] and [user] hold JavaScript values: the code stores what
    [JSON.parse] and the server return, under a type assertion only. *)

Module AuthContext.
Import JS.

Record AuthUser := { username : string; role : option string }.
Record AuthTokens := { access : string; refresh : string }.
Record LoginCredentials :=
  { credentials_username : string; credentials_password : string }.
Record RegisterPayload :=
  { payload_username : string; payload_password : string;
    payload_email : option string; payload_role : option string }.

(** The objects these records are at run time; an absent optional
    field is an absent property. *)
Definition optional_prop (k : string) (o : option string)
  : list (string * value) :=
  match o with Some s => [(k, str s)] | None => [] end.

Definition AuthUser_value (u : AuthUser) : value :=
  object (("username", str (username u)) :: optional_prop "role" (role u)).

Definition AuthTokens_value (t : AuthTokens) : value :=
  object [("access", str (access t)); ("refresh", str (refresh t))].

Definition LoginCredentials_value (c : LoginCredentials) : value :=
  object [("username", str (credentials_username c));
          ("password", str (credentials_password c))].

Definition STORAGE_KEY : string := "coffeefy-auth".

Record state := {
  loading : bool;
  error : option string;
  tokens : value;
  user : value;
  localStorage : gmap string string;
  router : list string;      (* the routes pushed, latest first *)
}.

Definition setLoading (b : bool) (s : state) : state :=
  {| loading := b; error := error s; tokens := tokens s; user := user s;
     localStorage := localStorage s; router := router s |}.
Definition setError (e : option string) (s : state) : state :=
  {| loading := loading s; error := e; tokens := tokens s; user := user s;
     localStorage := localStorage s; router := router s |}.
Definition setTokens (t : value) (s : state) : state :=
  {| loading := loading s; error := error s; tokens := t; user := user s;
     localStorage := localStorage s; router := router s |}.
Definition setUser (u : value) (s : state) : state :=
  {| loading := loading s; error := error s; tokens := tokens s; user := u;
     localStorage := localStorage s; router := router s |}.
Definition setStorage (m : gmap string string) (s : state) : state :=
  {| loading := loading s; error := error s; tokens := tokens s;
     user := user s; localStorage := m; router := router s |}.
Definition router_push (r : string) (s : state) : state :=
  {| loading := loading s; error := error s; tokens := tokens s;
     user := user s; localStorage := localStorage s;
     router := r :: router s |}.

Definition localStorage_removeItem (k : string) (s : state) : state :=
  setStorage (delete k (localStorage s)) s.
Definition localStorage_setItem (k v : string) (s : state) : state :=
  setStorage (<[ k := v ]> (localStorage s)) s.

(** The provider as first rendered: the [useState] initial values, over
    whatever the browser has stored. *)
Definition mount (storage : gmap string string) : state :=
  {| loading := true; error := None; tokens := null; user := null;
     localStorage := storage; router := [] |}.

(** [tokens?.access ?? null], the [accessToken] of the context value. *)
Definition accessToken (s : state) : value :=
  match get (tokens s) "access" with
  | None | Some undefined | Some null => null
  | Some a => a
  end.

Definition snapshot (nextTokens nextUser : value) : value :=
  object [("tokens", nextTokens); ("user", nextUser)].

Section WithPlatform.
Variable P : platform.

(** Lines 61-74, the effect with the empty dependency list. *)
Definition rehydrate (s : state) : state :=
  let s1 :=
    match localStorage s !! STORAGE_KEY with
    | Some stored =>
        if truthy_string (Some stored) then
          match JSON_parse P stored with
          | Some parsed =>
              match get parsed "tokens", get parsed "user" with
              | Some t, Some u => setUser u (setTokens t s)
              | _, _ => localStorage_removeItem STORAGE_KEY s
              end
          | None => localStorage_removeItem STORAGE_KEY s
          end
        else s
    | None => s
    end in
  setLoading false s1.

(** Lines 76-90. *)
Definition persist (nextTokens nextUser : value) (s : state) : state :=
  if negb (truthy nextTokens) then localStorage_removeItem STORAGE_KEY s
  else localStorage_setItem STORAGE_KEY
         (JSON_stringify P (snapshot nextTokens nextUser)) s.

(** Lines 92-97. *)
Definition logout (s : state) : state :=
  router_push "/" (persist null null (setUser null (setTokens null s))).

(** [apiFetch] as the provider sees it: a request, then what the
    awaited promise completes with. *)
Definition api := string -> Api.RequestOptions -> completion value.

(** [options.token] is declared [string | null]; [authTokens.access]
    is passed under that type. *)
Definition as_token (v : value) : option string :=
  match v with str t => Some t | _ => None end.

(** The request of [loadUserProfile]; [None] is the TypeError of
    [authTokens.access] on [null] or [undefined], thrown inside the
    [try]. *)
Definition loadUserProfile_request (authTokens : value)
  : option (string * Api.RequestOptions) :=
  match get authTokens "access" with
  | Some a =>
      Some ("/api/users/",
            {| Api.method := None; Api.headers := ∅;
               Api.body := undefined; Api.token := as_token a |})
  | None => None
  end.

Definition strict_eq_string (v : value) (s : string) : bool :=
  match v with str s' => String.eqb s' s | _ => false end.

(** [data.find((item) => item.username === username)]; the outer
    [None] is a TypeError ([data] is no array, or an item is [null]). *)
Fixpoint find_username (username : string) (items : list value)
  : option value :=
  match items with
  | [] => Some undefined
  | item :: rest =>
      match get item "username" with
      | Some u =>
          if strict_eq_string u username then Some item
          else find_username username rest
      | None => None
      end
  end.

Definition Array_find_username (username : string) (data : value)
  : option value :=
  match data with
  | array items => find_username username items
  | _ => None
  end.

(** [loadUserProfile] from its [await] on: every throw inside the
    [try] ends in [return null]. *)
Definition loadUserProfile_resume (authTokens : value) (username : string)
           (response : completion value) (s : state) : value * state :=
  match response with
  | Return data =>
      match Array_find_username username data with
      | Some found =>
          if truthy found then
            match get found "username", get found "role" with
            | Some u, Some r =>
                let enriched := object [("username", u); ("role", r)] in
                (enriched, persist authTokens enriched (setUser enriched s))
            | _, _ => (null, s)
            end
          else (null, s)
      | None => (null, s)
      end
  | Throw _ => (null, s)
  end.

(** Lines 99-124. *)
Definition loadUserProfile (fetch : api) (authTokens : value)
           (username : string) (s : state) : value * state :=
  match loadUserProfile_request authTokens with
  | Some (path, options) =>
      loadUserProfile_resume authTokens username (fetch path options) s
  | None => (null, s)
  end.

(** The three synchronous stretches of [login] (lines 126-167): up to
    the [await] of the token request, from there to the [await]
    inside [loadUserProfile], and from there to the end. *)
Definition login_request (credentials : LoginCredentials)
  : string * Api.RequestOptions :=
  ("/api/token/",
   {| Api.method := Some "POST"; Api.headers := ∅;
      Api.body := LoginCredentials_value credentials;
      Api.token := None |}).

Definition login_begin (s : state) : state :=
  setError None (setLoading true s).

Definition baseUser (credentials : LoginCredentials) : value :=
  object [("username", str (credentials_username credentials))].

Definition login_error_message (err : thrown) : string :=
  match err with
  | ApiError _ _ details =>
      if truthy details then JSON_stringify P details
      else "Credenciales inválidas"
  | _ => "No se pudo iniciar sesión, inténtalo nuevamente."
  end.

Definition login_failed (err : thrown) (s : state)
  : completion unit * state :=
  (Throw err, setLoading false (setError (Some (login_error_message err)) s)).

Definition login_tokens_arrived (credentials : LoginCredentials)
           (tokenResponse : value) (s : state) : state :=
  persist tokenResponse (baseUser credentials)
          (setUser (baseUser credentials) (setTokens tokenResponse s)).

Definition login_finish (loadedProfile : value) (s : state)
  : completion unit * state :=
  let targetRole :=
    match get loadedProfile "role" with
    | Some r => if truthy r then r else undefined
    | None => undefined
    end in
  let destination :=
    if strict_eq_string targetRole "cliente" then "/cliente"
    else "/dashboard" in
  (Return (), setLoading false (router_push destination s)).

(** [login] with nothing else running between its stretches. *)
Definition login (fetch : api) (credentials : LoginCredentials)
           (s : state) : completion unit * state :=
  let s0 := login_begin s in
  let '(path, options) := login_request credentials in
  match fetch path options with
  | Return tokenResponse =>
      let s1 := login_tokens_arrived credentials tokenResponse s0 in
      let '(loadedProfile, s2) :=
        loadUserProfile fetch tokenResponse
                        (credentials_username credentials) s1 in
      login_finish loadedProfile s2
  | Throw err => login_failed err s0
  end.

(** Lines 169-200.  The error of a failed [login] is rethrown by it and
    caught again here. *)
Definition register_request (payload : RegisterPayload)
  : string * Api.RequestOptions :=
  ("/api/users/",
   {| Api.method := Some "POST"; Api.headers := ∅;
      Api.body :=
        object [("username", str (payload_username payload));
                ("password", str (payload_password payload));
                ("email", match payload_email payload with
                          | Some email => str email
                          | None => undefined
                          end);
                ("role", str (default "cliente" (payload_role payload)))];
      Api.token := None |}).

Definition register_error_message (err : thrown) : string :=
  match err with
  | ApiError _ _ details =>
      if truthy details then JSON_stringify P details
      else "No se pudo registrar el usuario."
  | _ => "Ocurrió un error inesperado durante el registro."
  end.

Definition register_failed (err : thrown) (s : state)
  : completion unit * state :=
  (Throw err,
   setLoading false (setError (Some (register_error_message err)) s)).

Definition register (fetch : api) (payload : RegisterPayload) (s : state)
  : completion unit * state :=
  let s0 := setError None (setLoading true s) in
  let '(path, options) := register_request payload in
  match fetch path options with
  | Return _ =>
      let '(outcome, s1) :=
        login fetch
              {| credentials_username := payload_username payload;
                 credentials_password := payload_password payload |} s0 in
      match outcome with
      | Return _ => (Return (), setLoading false s1)
      | Throw err => register_failed err s1
      end
  | Throw err => register_failed err s0
  end.

(** Line 202. *)
Definition clearError (s : state) : state := setError None s.

(** ** The provider on the event loop

    An [await] hands control back to the event loop, and the rest of
    the function runs in a later turn.  [pending] is what a started
    [login] still has to run. *)
Inductive pending :=
| AwaitTokens (credentials : LoginCredentials)
| AwaitProfile (credentials : LoginCredentials) (tokenResponse : value).

Definition config : Type := state * list pending.

Inductive turn : config -> config -> Prop :=
| turn_login credentials s ps :
    turn (s, ps) (login_begin s, AwaitTokens credentials :: ps)
| turn_tokens credentials tokenResponse s ps1 ps2 :
    turn (s, (ps1 ++ AwaitTokens credentials :: ps2)%list)
         (match loadUserProfile_request tokenResponse with
          | Some _ =>
              (login_tokens_arrived credentials tokenResponse s,
               (ps1 ++ AwaitProfile credentials tokenResponse :: ps2)%list)
          | None =>
              (snd (login_finish null
                      (login_tokens_arrived credentials tokenResponse s)),
               (ps1 ++ ps2)%list)
          end)
| turn_tokens_failed credentials err s ps1 ps2 :
    turn (s, (ps1 ++ AwaitTokens credentials :: ps2)%list)
         (snd (login_failed err s), (ps1 ++ ps2)%list)
| turn_profile credentials tokenResponse response s ps1 ps2 :
    turn (s, (ps1 ++ AwaitProfile credentials tokenResponse :: ps2)%list)
         (let '(loadedProfile, s1) :=
            loadUserProfile_resume tokenResponse
              (credentials_username credentials) response s in
          (snd (login_finish loadedProfile s1), (ps1 ++ ps2)%list))
| turn_logout s ps :
    turn (s, ps) (logout s, ps).

(** The invariant of the session: an entry is stored under the key
    exactly when the tokens in memory are set. *)
Definition session_invariant (s : state) : Prop :=
  is_Some (localStorage s !! STORAGE_KEY) <-> truthy (tokens s) = true.

(** The same callbacks run one at a time: a [login] runs to its end
    before anything else starts. *)
Inductive operation : state -> state -> Prop :=
| operation_login fetch credentials s :
    operation s (snd (login fetch credentials s))
| operation_register fetch payload s :
    operation s (snd (register fetch payload s))
| operation_logout s :
    operation s (logout s)
| operation_clearError s :
    operation s (clearError s).

(** What [persist] can have left under the key. *)
Definition stored_by_persist (s : state) : Prop :=
  localStorage s !! STORAGE_KEY = None \/
  exists nextTokens nextUser,
    truthy nextTokens = true /\
    localStorage s !! STORAGE_KEY
    = Some (JSON_stringify P (snapshot nextTokens nextUser)).

(** The user that [loadUserProfile] makes of an entry of [/api/users/]. *)
Definition enriched (found : AuthUser) : value :=
  object [("username", str (username found));
          ("role", match role found with
                   | Some r => str r
                   | None => undefined
                   end)].

(** A storage as the provider itself leaves it: no entry, or the text of
    a snapshot with truthy tokens, which [JSON.parse] reads back. *)
Definition written_by_persist (storage : gmap string string) : Prop :=
  storage !! STORAGE_KEY = None \/
  exists t u,
    truthy t = true /\
    storage !! STORAGE_KEY = Some (JSON_stringify P (snapshot t u)) /\
    JSON_stringify P (snapshot t u) <> EmptyString /\
    JSON_parse P (JSON_stringify P (snapshot t u)) = Some (snapshot t u).

End WithPlatform.


End AuthContext.

(** ** [app/cliente/page.tsx] *)

Module ClientWallet.
Import JS.

Record TagDetails := {
  tag_id : Z; tag_name : string; icon : option string;
  accent_color : option string;
}.

Record Local := {
  local_id : Z;
  name : string;
  headline : string;
  highlights : string;
  address : string;
  schedule : string;
  type : string;
  cover_image_url : option string;
  website_url : string;
  instagram_url : string;
  contact_phone : string;
  contact_email : string;
  map_url : string;
  points_rate : Z;
  tag_details : list TagDetails;
}.

Record CatalogProduct := {
  id : Z;
  local : Z;
  product_name : string;
  description : string;
  price : string;
  category : option Z;
  category_name : string;
  category_slug : string;
  display_order : Z;
  image_url : option string;
  in_stock : bool;
  is_active : bool;
  state : string;
  stock_state : string;
}.

Record CatalogGroup := {
  categoryId : option Z;
  categoryName : string;
  items : list CatalogProduct;
}.

(** A key of [indexByCategory : Map<number | "uncategorized", number>];
    [None] is ["uncategorized"]. *)
Definition mapKey : Type := option Z.

(** [key = product.category ?? -1; mapKey = key === -1 ? "uncategorized" : key]. *)
Definition mapKey_of (product : CatalogProduct) : mapKey :=
  let key := default (-1) (category product) in
  if (key =? -1)%Z then None else Some key.

Definition new_group (product : CatalogProduct) : CatalogGroup :=
  {| categoryId := category product;
     categoryName :=
       if negb (String.eqb (category_name product) EmptyString)
       then category_name product else "Sin categoría";
     items := [] |}.

(** [group.items.push(product)]. *)
Definition items_push (product : CatalogProduct) (group : CatalogGroup)
  : CatalogGroup :=
  {| categoryId := categoryId group;
     categoryName := categoryName group;
     items := items group ++ [product] |}.

(** The body of the [forEach], on the two locals [groups] and
    [indexByCategory].  [None] is the TypeError of
    [groups[groupIndex].items] when [groups] has no such index. *)
Definition visit (acc : option (list CatalogGroup * gmap mapKey nat))
           (product : CatalogProduct)
  : option (list CatalogGroup * gmap mapKey nat) :=
  '(groups, indexByCategory) ← acc;
  let '(groupIndex, groups, indexByCategory) :=
    match indexByCategory !! mapKey_of product with
    | Some groupIndex => (groupIndex, groups, indexByCategory)
    | None =>
        (length groups,
         groups ++ [new_group product],
         <[ mapKey_of product := length groups ]> indexByCategory)
    end in
  group ← groups !! groupIndex;
  Some (<[ groupIndex := items_push product group ]> groups,
        indexByCategory).

(** Lines 131-155. *)
Definition groupProductsByCategory (products : list CatalogProduct)
  : option (list CatalogGroup) :=
  fst <$> fold_left visit products (Some ([], ∅)).

(** The grouping in the words of its description: the keys in the
    order of their first occurrence, and under each key the products
    that have it, in the order of the input; the group is labelled
    from its first member. *)
Fixpoint first_occurrences (keys : list mapKey) : list mapKey :=
  match keys with
  | [] => []
  | k :: rest => k :: filter (fun k' => k' <> k) (first_occurrences rest)
  end.

Definition members (k : mapKey) (products : list CatalogProduct)
  : list CatalogProduct :=
  filter (fun product => mapKey_of product = k) products.

Definition group_of (products : list CatalogProduct) (k : mapKey)
  : CatalogGroup :=
  {| categoryId := head (members k products) ≫= category;
     categoryName :=
       match head (members k products) with
       | Some first => categoryName (new_group first)
       | None => "Sin categoría"
       end;
     items := members k products |}.

Definition grouped (products : list CatalogProduct) : list CatalogGroup :=
  map (group_of products) (first_occurrences (map mapKey_of products)).

(** [indexByCategory] holds the position of each key seen so far. *)
Definition index_ok (keys : list mapKey) (index : gmap mapKey nat) : Prop :=
  forall k i, index !! k = Some i <-> keys !! i = Some k.


Section WithLocale.
(** [a.localeCompare(b)] in the browser's locale. *)
Variable localeCompare : string -> string -> Z.


End WithLocale.

(** The "Sin stock temporalmente" line of a catalog entry (lines
    800-805). *)
Definition sin_stock (product : CatalogProduct) : bool :=
  negb (in_stock product) || String.eqb (stock_state product) "out".

(** *** The rest of the wallet page *)

Record PointBalance := {
  balance_id : Z;
  balance_user : Z;
  balance_user_name : string;
  balance_local : Z;
  balance_local_name : string;
  total : Z;
  updated_at : string;
}.

Record Reward := {
  reward_id : Z;
  reward_local : Z;
  reward_local_name : string;
  reward_name : string;
  reward_description : string;
  points_required : Z;
  reward_image_url : option string;
  active : bool;
  redemption_count : Z;
}.

Record LocalOption := { option_id : Z; option_name : string }.

(** The message every [catch] block of the page computes, with its own
    fallback: the details of an ApiError when they are a string that is
    not empty. *)
Definition error_message (fallback : string) (err : thrown) : string :=
  match err with
  | ApiError _ _ (str details) =>
      if truthy (str details) then details else fallback
  | _ => fallback
  end.

(** The state behind the catalogs: [Record<number, ...>] objects as maps
    from the id of the local. *)
Record catalog_state := {
  expandedLocals : list Z;
  catalogs : gmap Z (list CatalogProduct);
  catalogLoading : gmap Z bool;
  catalogErrors : gmap Z string;
}.

(** Lines 304-345, given what the request completes with.  An array is
    truthy even when empty, so [catalogs[localId]] tests the key. *)
Definition loadCatalog (localId : Z)
           (response : completion (list CatalogProduct))
           (s : catalog_state) : catalog_state :=
  match catalogs s !! localId with
  | Some _ => s
  | None =>
      let errors := delete localId (catalogErrors s) in
      match response with
      | Return response =>
          let activeProducts :=
            filter (fun product => is_active product <> false) response in
          {| expandedLocals := expandedLocals s;
             catalogs := <[ localId := activeProducts ]> (catalogs s);
             catalogLoading :=
               <[ localId := false ]>
                 (<[ localId := true ]> (catalogLoading s));
             catalogErrors := errors |}
      | Throw err =>
          {| expandedLocals := expandedLocals s;
             catalogs := catalogs s;
             catalogLoading :=
               <[ localId := false ]>
                 (<[ localId := true ]> (catalogLoading s));
             catalogErrors :=
               <[ localId := error_message "No pudimos cargar el catálogo."
                                           err ]> errors |}
      end
  end.

(** Lines 379-391. *)
Definition handleToggleLocal (localId : Z)
           (response : completion (list CatalogProduct))
           (s : catalog_state) : catalog_state :=
  let s1 :=
    {| expandedLocals := Collections.toggle localId (expandedLocals s);
       catalogs := catalogs s; catalogLoading := catalogLoading s;
       catalogErrors := catalogErrors s |} in
  match catalogs s !! localId with
  | Some _ => s1
  | None => loadCatalog localId response s1
  end.

(** Lines 191-205: the options of the selector. *)
Definition localOptions (localeCompare : string -> string -> Z)
           (locals : list Local) (balances : list PointBalance)
           (rewards : list Reward) : list LocalOption :=
  let map0 :=
    fold_left (fun m local =>
                 Collections.Map_set (local_id local)
                   {| option_id := local_id local;
                      option_name := name local |} m)
              locals [] in
  let map1 :=
    fold_left (fun m balance =>
                 Collections.Map_set (balance_local balance)
                   {| option_id := balance_local balance;
                      option_name := balance_local_name balance |} m)
              balances map0 in
  let map2 :=
    fold_left (fun m reward =>
                 Collections.Map_set (reward_local reward)
                   {| option_id := reward_local reward;
                      option_name := reward_local_name reward |} m)
              rewards map1 in
  Array_sort (fun a b => localeCompare (option_name a) (option_name b))
             (Collections.Map_values map2).

(** The entries the three loops set, in their order. *)
Definition option_entries (locals : list Local)
           (balances : list PointBalance) (rewards : list Reward)
  : list (Z * string) :=
  map (fun local => (local_id local, name local)) locals
  ++ map (fun balance =>
            (balance_local balance, balance_local_name balance)) balances
  ++ map (fun reward =>
            (reward_local reward, reward_local_name reward)) rewards.

(** The entry of the [Map] an id and a name make. *)
Definition as_option (e : Z * string) : Z * LocalOption :=
  (e.1, {| option_id := e.1; option_name := e.2 |}).

End ClientWallet.

(** ** Orders page (the second file of [src/unnamed/part_001]) *)

Module Orders.

Inductive OrderStatus :=
| pendiente | preparando | listo | completado | cancelado.

#[global] Instance OrderStatus_eq_dec : EqDecision OrderStatus.
Proof. solve_decision. Defined.

Definition ORDER_STATUSES : list OrderStatus :=
  [pendiente; preparando; listo; completado; cancelado].

Definition NEXT_STATUS_OPTIONS (s : OrderStatus) : list OrderStatus :=
  match s with
  | pendiente => [preparando; cancelado]
  | preparando => [listo; cancelado]
  | listo => [completado; cancelado]
  | completado => []
  | cancelado => []
  end.

Definition REFRESH_INTERVAL_MS : Z := 30000.

(** The fields of [Order] the action column reads. *)
Record Order := { id : Z; status : OrderStatus }.

(** One status button: [key] is the status handed to
    [handleStatusUpdate] by [onClick]. *)
Record button := { key : OrderStatus; disabled : bool }.

(** The right-hand column of an order card: the buttons, or the
    "Sin acciones disponibles" pill. *)
Inductive actions := Buttons (bs : list button) | SinAcciones.

Definition render_actions (updatingOrderId : option Z) (order : Order)
  : actions :=
  let nextStatuses := NEXT_STATUS_OPTIONS (status order) in
  if decide (0 < length nextStatuses)%nat then
    Buttons (map (fun nextStatus =>
                    {| key := nextStatus;
                       disabled := bool_decide (updatingOrderId = Some (id order)) |})
                 nextStatuses)
  else SinAcciones.

(** What [handleStatusUpdate order nextStatus] posts: nothing without
    an access token, otherwise the path and the [status] of the body. *)
Definition handleStatusUpdate (accessToken : option string)
           (order : Order) (nextStatus : OrderStatus)
  : option (string * OrderStatus) :=
  match accessToken with
  | None | Some EmptyString => None
  | Some _ =>
      Some ("/api/orders/" +:+ pretty (id order) +:+ "/update_status/",
            nextStatus)
  end.

(** The step relation of the buttons: [offered s s'] when the card of
    an order in status [s] shows a button that asks for [s']. *)
Definition offered (s s' : OrderStatus) : Prop :=
  exists upd order bs b,
    status order = s /\ render_actions upd order = Buttons bs /\
    In b bs /\ key b = s'.

Definition terminal (s : OrderStatus) : Prop :=
  s = completado \/ s = cancelado.

(** *** The polling effect (lines 428-442)

    The browser's timers are a table from handles to intervals;
    [setInterval] hands out the next handle, a positive number that was
    never used.  [pollRef] is the ref of the page. *)

Inductive handler := call_fetchData | other_handler.

Record interval := { callback : handler; timeout : Z }.

Record page := {
  pollRef : option Z;
  intervals : gmap Z interval;
  next_handle : Z;
}.

Definition window_setInterval (h : handler) (ms : Z) (w : page) : Z * page :=
  (next_handle w,
   {| pollRef := pollRef w;
      intervals := <[ next_handle w := {| callback := h; timeout := ms |} ]>
                     (intervals w);
      next_handle := next_handle w + 1 |}).

Definition window_clearInterval (handle : Z) (w : page) : page :=
  {| pollRef := pollRef w;
     intervals := delete handle (intervals w);
     next_handle := next_handle w |}.

(** [if (pollRef.current) window.clearInterval(pollRef.current)]. *)
Definition clear_poll (w : page) : page :=
  match pollRef w with
  | Some handle =>
      if (handle =? 0)%Z then w else window_clearInterval handle w
  | None => w
  end.

(** The effect; the boolean tells whether it returned its cleanup
    function. *)
Definition poll_effect (accessToken : option string) (w : page)
  : page * bool :=
  if negb (JS.truthy_string accessToken) then (w, false)
  else
    let '(handle, w1) :=
      window_setInterval call_fetchData REFRESH_INTERVAL_MS (clear_poll w) in
    ({| pollRef := Some handle; intervals := intervals w1;
        next_handle := next_handle w1 |}, true).

Definition poll_cleanup (w : page) : page := clear_poll w.

(** React runs the cleanup of the last run, if it returned one, before
    it runs the effect again, and once more when the page unmounts. *)
Definition commit (c : page * bool) (accessToken : option string)
  : page * bool :=
  poll_effect accessToken (if snd c then poll_cleanup (fst c) else fst c).

Definition unmount (c : page * bool) : page :=
  if snd c then poll_cleanup (fst c) else fst c.

(** The page mounted in the browser [w], after the commits in which
    [accessToken] took the values [renders]. *)
Definition mounted (w : page) (renders : list (option string))
  : page * bool :=
  fold_left commit renders (w, false).

Definition poll_interval : interval :=
  {| callback := call_fetchData; timeout := 30000 |}.

(** What holds of the page between commits, over the timers [base] the
    browser had when the page was mounted: with a cleanup pending, the
    page owns exactly one interval, the one [pollRef] names; without, it
    owns none, and [pollRef] is empty or names a handle of the past. *)
Definition poll_invariant (base : page) (c : page * bool) : Prop :=
  next_handle base <= next_handle (fst c) /\
  if snd c then
    exists handle,
      pollRef (fst c) = Some handle /\
      next_handle base <= handle < next_handle (fst c) /\
      intervals (fst c) = <[ handle := poll_interval ]> (intervals base)
  else
    intervals (fst c) = intervals base /\
    match pollRef (fst c) with
    | Some handle => next_handle base <= handle < next_handle (fst c)
    | None => True
    end.

Definition well_formed (base : page) : Prop :=
  pollRef base = None /\ 0 < next_handle base /\
  forall handle, is_Some (intervals base !! handle) ->
                 handle < next_handle base.

(** *** The counts of the summary (lines 255-262) *)

(** The string each member of [ORDER_STATUSES] is. *)
Definition status_name (s : OrderStatus) : string :=
  match s with
  | pendiente => "pendiente"
  | preparando => "preparando"
  | listo => "listo"
  | completado => "completado"
  | cancelado => "cancelado"
  end.

(** [v?.[k]]. *)
Definition optional_get (v : JS.value) (k : string) : JS.value :=
  match JS.get v k with
  | Some x => x
  | None => JS.undefined
  end.

(** [a ?? b]. *)
Definition nullish_coalesce (a b : JS.value) : JS.value :=
  match a with
  | JS.undefined | JS.null => b
  | _ => a
  end.

(** The accumulator is the property list of [acc]; [acc[status] = v]
    replaces the property in place or appends it. *)
Definition ensureSummaryCounts (rawCounts : JS.value) : JS.value :=
  JS.object
    (fold_left
       (fun acc status =>
          Collections.Map_set
            (status_name status)
            (nullish_coalesce (optional_get rawCounts (status_name status))
                              (JS.number 0))
            acc)
       ORDER_STATUSES []).

End Orders.

(** ** React: the keyed children of a host element

    The pages run on React.  What is on screen after a render of a
    host element depends on the fibers of its children and on the keys
    of the new ones.  This is the reconciliation of the children of one
    host element and its commit to the DOM, as [react-reconciler] and
    [react-dom] do them ([reconcileChildrenArray],
    [reconcileSingleElement], [mapRemainingChildren], [placeChild],
    [getHostSibling], [commitPlacement]), for children that are an
    array of keyed elements of one type or a single element without a
    key. *)

Module React.
Import Collections.
Local Open Scope nat_scope.

Section Host.
(** What a DOM node shows. *)
Context {host : Type}.

(** An element of an array of children, with the string its [key] is
    once React has made it one. *)
Record row := { key : string; shows : host }.

(** The child expression of a host element: an array of keyed
    elements, or one element without a key. *)
Inductive children :=
| Rows (rows : list row)
| Single (element : host).

(** A fiber of the current tree: its key, [None] for [null], and its
    DOM node; its [index] is its place in the list. *)
Record fiber := { fiber_key : option string; stateNode : nat }.

(** A host element on screen: the fibers of its children, its DOM
    children in their order, and the next unused node. *)
Record container := {
  current : list fiber;
  dom : list (nat * host);
  fresh : nat;
}.

Definition empty : container := {| current := []; dom := []; fresh := 0 |}.

(** A fiber of the tree in progress: [alternate] is the current fiber
    it reuses, with its index; [Placement] is the flag of that name. *)
Record work_fiber := {
  work_key : option string;
  alternate : option (nat * fiber);
  node : nat;
  Placement : bool;
  pendingProps : host;
}.

(** [placeChild]: a reused fiber that stood before the last one placed
    is moved, one that stood after it stays; a new fiber is inserted. *)
Definition placeChild (oldIndex : option nat) (lastPlacedIndex : nat)
  : bool * nat :=
  match oldIndex with
  | Some oldIndex =>
      if oldIndex <? lastPlacedIndex then (true, lastPlacedIndex)
      else (false, oldIndex)
  | None => (true, lastPlacedIndex)
  end.

Definition useFiber (current : nat * fiber) (element : row)
           (lastPlacedIndex : nat) : work_fiber * nat :=
  let '(flag, lastPlacedIndex) :=
    placeChild (Some current.1) lastPlacedIndex in
  ({| work_key := Some (key element); alternate := Some current;
      node := stateNode current.2; Placement := flag;
      pendingProps := shows element |}, lastPlacedIndex).

Definition createFiber (n : nat) (element : row) : work_fiber :=
  {| work_key := Some (key element); alternate := None; node := n;
     Placement := true; pendingProps := shows element |}.

(** The first loop of [reconcileChildrenArray]: old fibers and new
    elements side by side, as long as the keys agree. *)
Fixpoint first_loop (oldFiber : list (nat * fiber)) (newChildren : list row)
         (lastPlacedIndex : nat)
  : list work_fiber * (list (nat * fiber) * list row * nat) :=
  match oldFiber, newChildren with
  | old :: oldFiber', element :: newChildren' =>
      if decide (fiber_key old.2 = Some (key element)) then
        let '(newFiber, lastPlacedIndex') :=
          useFiber old element lastPlacedIndex in
        let '(fibers, rest) :=
          first_loop oldFiber' newChildren' lastPlacedIndex' in
        (newFiber :: fibers, rest)
      else ([], (oldFiber, newChildren, lastPlacedIndex))
  | _, _ => ([], (oldFiber, newChildren, lastPlacedIndex))
  end.

(** No old fiber is left: the remaining elements are created. *)
Fixpoint create_rest (newChildren : list row) (n : nat)
  : list work_fiber * nat :=
  match newChildren with
  | [] => ([], n)
  | element :: newChildren' =>
      let '(fibers, n') := create_rest newChildren' (S n) in
      (createFiber n element :: fibers, n')
  end.

(** [mapRemainingChildren]: the old fibers that are left, in a [Map]
    under their key, or under their index when the key is [null]; of
    two fibers with one key the second replaces the first. *)
Definition slot_of (old : nat * fiber) : string + nat :=
  match fiber_key old.2 with
  | Some k => inl k
  | None => inr old.1
  end.

Definition mapRemainingChildren (oldFiber : list (nat * fiber))
  : list ((string + nat) * (nat * fiber)) :=
  fold_left (fun m old => Map_set (slot_of old) old m) oldFiber [].

(** The last loop: each remaining element reuses the fiber the [Map]
    has under its key, which leaves the [Map], or is created. *)
Fixpoint map_loop (existingChildren : list ((string + nat) * (nat * fiber)))
         (newChildren : list row) (lastPlacedIndex n : nat)
  : list work_fiber * (list ((string + nat) * (nat * fiber)) * nat) :=
  match newChildren with
  | [] => ([], (existingChildren, n))
  | element :: newChildren' =>
      match Map_get (inl (key element)) existingChildren with
      | Some matchedFiber =>
          let '(newFiber, lastPlacedIndex') :=
            useFiber matchedFiber element lastPlacedIndex in
          let '(fibers, rest) :=
            map_loop (Map_delete (inl (key element)) existingChildren)
                     newChildren' lastPlacedIndex' n in
          (newFiber :: fibers, rest)
      | None =>
          let '(fibers, rest) :=
            map_loop existingChildren newChildren' lastPlacedIndex (S n) in
          (createFiber n element :: fibers, rest)
      end
  end.

(** What the render phase hands to the commit: the new fibers, the
    nodes of the deleted ones, the next unused node. *)
Record work := {
  child : list work_fiber;
  deletions : list nat;
  next : nat;
}.

Definition indexed (fibers : list fiber) : list (nat * fiber) :=
  imap (fun i f => (i, f)) fibers.

(** [reconcileChildrenArray].  When the elements run out, the old
    fibers that are left are deleted; when the old fibers run out, the
    elements that are left are created; otherwise the fibers that are
    still in the [Map] at the end are deleted, and those only: a fiber
    that another one replaced in the [Map] is neither reused nor
    deleted. *)
Definition reconcileChildrenArray (c : container) (newChildren : list row)
  : work :=
  let '(matched, (oldFiber, rest, lastPlacedIndex)) :=
    first_loop (indexed (current c)) newChildren 0 in
  match rest, oldFiber with
  | [], _ =>
      {| child := matched;
         deletions := map (fun old => stateNode old.2) oldFiber;
         next := fresh c |}
  | _, [] =>
      let '(created, n) := create_rest rest (fresh c) in
      {| child := matched ++ created; deletions := []; next := n |}
  | _, _ =>
      let '(placed, (existingChildren, n)) :=
        map_loop (mapRemainingChildren oldFiber) rest lastPlacedIndex
                 (fresh c) in
      {| child := matched ++ placed;
         deletions := map (fun old => stateNode old.2)
                          (Map_values existingChildren);
         next := n |}
  end.

(** [reconcileSingleElement] for an element without a key: the first
    old fiber without a key is reused and its siblings are deleted; the
    keyed fibers before it are deleted one by one. *)
Fixpoint single_loop (child : list fiber) : option fiber * list nat :=
  match child with
  | [] => (None, [])
  | f :: siblings =>
      match fiber_key f with
      | None => (Some f, map stateNode siblings)
      | Some _ =>
          let '(found, deleted) := single_loop siblings in
          (found, stateNode f :: deleted)
      end
  end.

Definition reconcileSingleElement (c : container) (element : host) : work :=
  let '(found, deleted) := single_loop (current c) in
  match found with
  | Some f =>
      {| child := [{| work_key := None; alternate := Some (0, f);
                      node := stateNode f; Placement := false;
                      pendingProps := element |}];
         deletions := deleted; next := fresh c |}
  | None =>
      {| child := [{| work_key := None; alternate := None;
                      node := fresh c; Placement := true;
                      pendingProps := element |}];
         deletions := deleted; next := S (fresh c) |}
  end.

(** The DOM operations of the commit. *)
Definition removeChild (n : nat) (nodes : list (nat * host))
  : list (nat * host) :=
  filter (fun e => e.1 <> n) nodes.

(** [before] is the node of a fiber that stays in place, a child of the
    container in every commit ([ReactFacts.render_tracked]); the first
    case is there to make the function total. *)
Fixpoint insertBefore (e : nat * host) (before : nat)
         (nodes : list (nat * host)) : list (nat * host) :=
  match nodes with
  | [] => [e]
  | x :: rest =>
      if decide (x.1 = before) then e :: x :: rest
      else x :: insertBefore e before rest
  end.

(** [getHostSibling]: the node of the next sibling that is not itself
    to be placed. *)
Fixpoint getHostSibling (siblings : list work_fiber) : option nat :=
  match siblings with
  | [] => None
  | f :: rest => if Placement f then getHostSibling rest else Some (node f)
  end.

(** [commitPlacement]: [insertBefore] that sibling, [appendChild]
    without one; a node that is moved leaves its old place. *)
Definition commitPlacement (f : work_fiber) (siblings : list work_fiber)
           (nodes : list (nat * host)) : list (nat * host) :=
  let nodes := removeChild (node f) nodes in
  match getHostSibling siblings with
  | Some before => insertBefore (node f, pendingProps f) before nodes
  | None => nodes ++ [(node f, pendingProps f)]
  end.

(** [commitUpdate]: the node of a reused fiber shows the new props. *)
Definition commitUpdate (f : work_fiber) (nodes : list (nat * host))
  : list (nat * host) :=
  map (fun e => if decide (e.1 = node f) then (node f, pendingProps f)
                else e) nodes.

Fixpoint commitChildren (fibers : list work_fiber)
         (nodes : list (nat * host)) : list (nat * host) :=
  match fibers with
  | [] => nodes
  | f :: siblings =>
      commitChildren
        siblings
        (if Placement f then commitPlacement f siblings nodes
         else commitUpdate f nodes)
  end.

(** The commit: the deletions first, then the children in order. *)
Definition commit (w : work) (c : container) : container :=
  {| current := map (fun f => {| fiber_key := work_key f;
                                 stateNode := node f |}) (child w);
     dom := commitChildren (child w)
                           (foldr removeChild (dom c) (deletions w));
     fresh := next w |}.

(** [reconcileChildFibers]: by the kind of the new child. *)
Definition reconcileChildFibers (c : container) (newChild : children)
  : work :=
  match newChild with
  | Rows rows => reconcileChildrenArray c rows
  | Single element => reconcileSingleElement c element
  end.

Definition render (newChild : children) (c : container) : container :=
  commit (reconcileChildFibers c newChild) c.

(** What the container shows. *)
Definition shown (c : container) : list host := map snd (dom c).

(** *** What the proofs say of a container and of the work *)

(** No stale node: the DOM children are the nodes of the fibers, in
    their order. *)
Definition clean (c : container) : Prop :=
  map fst (dom c) = map stateNode (current c) /\
  NoDup (map stateNode (current c)) /\
  Forall (fun f => stateNode f < fresh c) (current c).

Definition hosts (newChild : children) : list host :=
  match newChild with
  | Rows rows => map shows rows
  | Single element => [element]
  end.

Definition keys (newChild : children) : list (option string) :=
  match newChild with
  | Rows rows => map (fun element => Some (key element)) rows
  | Single _ => [None]
  end.

Definition placed (todo : list work_fiber) : list work_fiber :=
  filter (fun f => Placement f = true) todo.
Definition stable (todo : list work_fiber) : list work_fiber :=
  filter (fun f => Placement f = false) todo.
Definition target (f : work_fiber) : nat * host := (node f, pendingProps f).

(** The fibers have their nodes among the DOM children. *)
Definition tracked (c : container) : Prop :=
  NoDup (map stateNode (current c)) /\
  (forall f, f ∈ current c -> stateNode f ∈ map fst (dom c)) /\
  Forall (fun f => stateNode f < fresh c) (current c).

(** Every [insertBefore] of the commit finds its reference node. *)
Fixpoint references_present (fibers : list work_fiber)
         (nodes : list (nat * host)) : Prop :=
  match fibers with
  | [] => True
  | f :: siblings =>
      (Placement f = true ->
       forall before, getHostSibling siblings = Some before ->
                      before ∈ map fst (removeChild (node f) nodes)) /\
      references_present
        siblings
        (if Placement f then commitPlacement f siblings nodes
         else commitUpdate f nodes)
  end.

Definition alt_node (a : nat * fiber) : nat := stateNode a.2.
Definition tag (V : list (nat * fiber))
  : list ((string + nat) * (nat * fiber)) :=
  map (fun a => (slot_of a, a)) V.

(** Where a new fiber comes from: an old fiber of [V] that is not in
    [V'], at or after [last] when it stays in place; or a new node. *)
Definition from (V V' : list (nat * fiber)) (n n' last : nat)
           (f : work_fiber) : Prop :=
  (exists x, x ∈ V /\ (x ∉ V') /\ node f = alt_node x /\
             (Placement f = false -> last <= x.1))
  \/ (n <= node f < n' /\ Placement f = true).
End Host.

End React.

(** ** Loyalty page (the third file of [src/unnamed/part_001]) *)

Module Loyalty.

(** [reward_id] and [reward_name] are declared plain, and read with
    [??]; [None] is [null]. *)
Record TopCustomer := {
  user_id : Z;
  user_name : string;
  local_id : Z;
  local_name : string;
  customer_total_points : Z;
}.

Record TopReward := {
  reward_id : option Z;
  reward_name : option string;
  redemptions : Z;
}.

Record LoyaltySummary := {
  total_points : Z;
  active_customers : Z;
  active_rewards : Z;
  total_rewards : Z;
  redemptions_last_window : Z;
  points_redeemed_last_window : Z;
  top_customers : list TopCustomer;
  top_rewards : list TopReward;
  generated_at : string;
  window_days : Z;
}.

(** [setSummary(summaryResponse)] (line 984). *)
Definition setSummary (summaryResponse : LoyaltySummary)
  : option LoyaltySummary := Some summaryResponse.

(** What a child of one of the two cards shows: a line, with its text
    and its figure, or the paragraph. *)
Inductive host :=
| Row (text figure : string)
| Paragraph (text : string).

Section WithIntl.
(** [new Intl.NumberFormat("es-CL").format]. *)
Variable formatNumber : Z -> string.

(** Lines 1249-1258.  The key is the template string. *)
Definition customer_row (customer : TopCustomer) : @React.row host :=
  {| React.key := pretty (user_id customer) +:+ "-"
                  +:+ pretty (local_id customer);
     React.shows :=
       Row (user_name customer)
           (formatNumber (customer_total_points customer) +:+ " pts") |}.

(** Lines 1273-1282.  The key is [reward_id ?? reward_name], which
    React turns into a string: the digits of a number, and "null" for
    [null]. *)
Definition reward_row (reward : TopReward) : @React.row host :=
  {| React.key :=
       match reward_id reward with
       | Some i => pretty i
       | None =>
           match reward_name reward with
           | Some n => n
           | None => "null"
           end
       end;
     React.shows :=
       Row (default "Recompensa sin nombre" (reward_name reward))
           (formatNumber (redemptions reward) +:+ " canjes") |}.

(** Lines 1247-1262 and 1271-1286: the child expression of each card;
    [summary] is the state, [null] until the first answer. *)
Definition render_top_customers (summary : option LoyaltySummary)
  : @React.children host :=
  match summary with
  | Some summary =>
      if decide (length (top_customers summary) = 0%nat)
      then React.Single (Paragraph "Sin datos disponibles")
      else React.Rows (map customer_row (top_customers summary))
  | None => React.Single (Paragraph "Sin datos disponibles")
  end.

Definition render_top_rewards (summary : option LoyaltySummary)
  : @React.children host :=
  match summary with
  | Some summary =>
      if decide (length (top_rewards summary) = 0%nat)
      then React.Single (Paragraph "Sin datos disponibles")
      else React.Rows (map reward_row (top_rewards summary))
  | None => React.Single (Paragraph "Sin datos disponibles")
  end.

(** The two cards on screen. *)
Record cards := {
  top_customers_card : @React.container host;
  top_rewards_card : @React.container host;
}.

(** While [loading] is true the page returns the skeleton (lines
    1104-1119), so the cards are mounted anew when an initial fetch
    ends, with the summary there is then. *)
Definition mount (summary : option LoyaltySummary) : cards :=
  {| top_customers_card :=
       React.render (render_top_customers summary) React.empty;
     top_rewards_card :=
       React.render (render_top_rewards summary) React.empty |}.

(** A render of the page with the cards in place: a refresh
    ([handleRefresh], and [fetchData()] after an adjustment or a
    toggle) sets the summary and leaves [loading] false. *)
Definition rerender (summary : option LoyaltySummary) (screen : cards)
  : cards :=
  {| top_customers_card :=
       React.render (render_top_customers summary)
                    (top_customers_card screen);
     top_rewards_card :=
       React.render (render_top_rewards summary)
                    (top_rewards_card screen) |}.

(** The cards since they were mounted with [first], after the answers
    of the refreshes in their order. *)
Definition page (first : option LoyaltySummary)
           (answers : list LoyaltySummary) : cards :=
  fold_left (fun screen summaryResponse =>
               rerender (setSummary summaryResponse) screen)
            answers (mount first).

(** No two lines of a card of this summary have one key. *)
Definition distinct_keys (summary : LoyaltySummary) : Prop :=
  NoDup (map (fun customer => React.key (customer_row customer))
             (top_customers summary)) /\
  NoDup (map (fun reward => React.key (reward_row reward))
             (top_rewards summary)).

(** Both cards without a stale node, their fibers with distinct keys. *)
Definition in_step (screen : cards) : Prop :=
  React.clean (top_customers_card screen) /\
  NoDup (map React.fiber_key (React.current (top_customers_card screen))) /\
  React.clean (top_rewards_card screen) /\
  NoDup (map React.fiber_key (React.current (top_rewards_card screen))).
End WithIntl.

End Loyalty.

(** ** Catalog page (the third file of [app/register/page.tsx]) *)

Module Catalog.

Inductive StockState := available | normal | low | critical | out.

#[global] Instance StockState_eq_dec : EqDecision StockState.
Proof. solve_decision. Defined.

Record Product := {
  id : Z;
  local : Z;
  local_name : string;
  category : Z;
  category_name : string;
  category_slug : string;
  category_tracks_stock : bool;
  tracks_stock : bool;
  name : string;
  description : string;
  price : string;
  stock : Z;
  in_stock : bool;
  stock_state : StockState;
  low_stock_threshold : Z;
  critical_stock_threshold : Z;
  display_order : Z;
  state : string;
  is_active : bool;
  image_url : option string;
}.

Definition STOCK_STATE_LABELS (s : StockState) : string :=
  match s with
  | available => "Disponible"
  | normal => "Stock saludable"
  | low => "Stock bajo"
  | critical => "Stock crítico"
  | out => "Sin stock"
  end.

Definition STOCK_BADGE_CLASSES (s : StockState) : string :=
  match s with
  | available => "bg-(--surface-alt) text-(--muted-foreground)"
  | normal => "bg-(--surface-alt) text-(--muted-foreground)"
  | low => "bg-yellow-100 text-yellow-800"
  | critical => "bg-red-100 text-red-700"
  | out => "bg-red-200 text-red-800"
  end.

(** The "stock" cell of the table (lines 2247-2307).  With stock
    tracking: the minus button, the badge with the number of units, the
    plus button, and the line "Estado: ...".  Without: a badge and the
    availability button. *)
Inductive stock_cell :=
| Tracked (minus_disabled : bool) (badge_class : string) (units : Z)
          (plus_disabled : bool) (estado : string)
| Untracked (badge_class : string) (badge : string)
            (button_disabled : bool) (button : string).

Definition render_stock_cell (updatingProductId : option Z)
           (product : Product) : stock_cell :=
  let isUpdating := bool_decide (updatingProductId = Some (id product)) in
  let tracksStock := tracks_stock product in
  let stockStateClass := STOCK_BADGE_CLASSES (stock_state product) in
  let stockStateLabel := STOCK_STATE_LABELS (stock_state product) in
  if tracksStock then
    Tracked (isUpdating || (stock product =? 0)%Z) stockStateClass
            (stock product) isUpdating ("Estado: " +:+ stockStateLabel)
  else
    Untracked (if in_stock product
               then "bg-(--surface-alt) text-(--muted-foreground)"
               else "bg-red-100 text-red-700")
              (if in_stock product then "Disponible" else "Sin stock")
              isUpdating
              (if in_stock product then "Marcar sin stock"
               else "Marcar con stock").

(** The stock label a cell displays, and the style of its badge. *)
Definition displayed_label (cell : stock_cell) : string * string :=
  match cell with
  | Tracked _ badge_class _ _ estado => (estado, badge_class)
  | Untracked badge_class badge _ _ => (badge, badge_class)
  end.

(** Lines 1662-1668. *)
Definition criticalProducts (visibleProducts : list Product)
  : list Product :=
  filter (fun product => tracks_stock product = true
                         /\ stock_state product = critical)
         visibleProducts.

(** The same product with other stock figures. *)
Definition with_figures (product : Product) (units lowT criticalT : Z)
  : Product :=
  {| id := id product; local := local product;
     local_name := local_name product; category := category product;
     category_name := category_name product;
     category_slug := category_slug product;
     category_tracks_stock := category_tracks_stock product;
     tracks_stock := tracks_stock product; name := name product;
     description := description product; price := price product;
     stock := units; in_stock := in_stock product;
     stock_state := stock_state product;
     low_stock_threshold := lowT; critical_stock_threshold := criticalT;
     display_order := display_order product; state := state product;
     is_active := is_active product; image_url := image_url product |}.

(** *** The handlers of the page *)

(** The fields of [Local] the page reads. *)
Record Local := {
  local_id : Z;
  local_title : string;
  owner : Z;
  owner_name : string;
  type : string;
}.

(** Lines 1615-1624; [user] is [user.username], [None] without a
    user. *)
Definition myLocals (user : option string) (locals : list Local)
  : list Local :=
  match user with
  | None => []
  | Some username =>
      filter (fun local => owner_name local = username) locals
  end.

Definition myLocalIds (user : option string) (locals : list Local)
  : gset Z :=
  list_to_set (map local_id (myLocals user locals)).

(** The comparator of lines 1635-1642; [a.display_order -
    b.display_order || ...] takes the second operand when the
    difference is 0. *)
Definition compare_products (localeCompare : string -> string -> Z)
           (a b : Product) : Z :=
  if (category a =? category b)%Z then
    if (display_order a - display_order b =? 0)%Z
    then localeCompare (name a) (name b)
    else display_order a - display_order b
  else localeCompare (category_name a) (category_name b).

(** Lines 1631-1643. *)
Definition visibleProducts (localeCompare : string -> string -> Z)
           (user : option string) (locals : list Local)
           (products : list Product) : list Product :=
  if decide (size (myLocalIds user locals) = 0%nat) then []
  else JS.Array_sort (compare_products localeCompare)
         (filter (fun product => local product ∈ myLocalIds user locals)
                 products).

(** The two values of [stockFilter]. *)
Inductive StockFilter := stock_all | stock_critical.

Section Search.
(** [String.prototype.trim], [toLowerCase], and [includes s term] for
    [s.includes(term)]. *)
Variables trim toLowerCase : string -> string.
Variable includes : string -> string -> bool.

(** Lines 1670-1699: the data of the table.  [categoryFilter] is
    [None] for "all". *)
Definition filteredProducts (visibleProducts criticalProducts : list Product)
           (stockFilter : StockFilter) (categoryFilter : option Z)
           (searchTerm : string) : list Product :=
  let dataset := visibleProducts in
  let dataset :=
    match stockFilter with
    | stock_critical => criticalProducts
    | stock_all => dataset
    end in
  let dataset :=
    match categoryFilter with
    | Some c => filter (fun product => category product = c) dataset
    | None => dataset
    end in
  if negb (String.eqb (trim searchTerm) EmptyString) then
    let term := toLowerCase (trim searchTerm) in
    filter (fun product =>
              includes (toLowerCase (name product)) term
              || includes (toLowerCase (description product)) term = true)
           dataset
  else dataset.

(** Whether a product passes the three filters. *)
Definition passes (stockFilter : StockFilter) (categoryFilter : option Z)
           (searchTerm : string) (product : Product) : Prop :=
  (stockFilter = stock_critical ->
   tracks_stock product = true /\ stock_state product = critical) /\
  (forall c, categoryFilter = Some c -> category product = c) /\
  (trim searchTerm <> EmptyString ->
   includes (toLowerCase (name product)) (toLowerCase (trim searchTerm))
   = true \/
   includes (toLowerCase (description product))
            (toLowerCase (trim searchTerm)) = true).
#[global] Instance passes_dec stockFilter categoryFilter searchTerm product :
  Decision (passes stockFilter categoryFilter searchTerm product).
Proof.
  unfold passes.
  assert (Decision (stockFilter = stock_critical ->
                    tracks_stock product = true /\
                    stock_state product = critical)) as D1.
  { destruct stockFilter.
    - left. discriminate.
    - destruct (decide (tracks_stock product = true
                        /\ stock_state product = critical)) as [H|H].
      + left. auto.
      + right. intros H'. apply H. now apply H'. }
  assert (Decision (forall c, categoryFilter = Some c ->
                              category product = c)) as D2.
  { destruct categoryFilter as [c|].
    - destruct (decide (category product = c)) as [H|H].
      + left. now intros ? [= <-].
      + right. intros H'. apply H. now apply H'.
    - left. discriminate. }
  assert (Decision (trim searchTerm <> EmptyString ->
                    includes (toLowerCase (name product))
                             (toLowerCase (trim searchTerm)) = true \/
                    includes (toLowerCase (description product))
                             (toLowerCase (trim searchTerm)) = true)) as D3.
  { destruct (decide (trim searchTerm = EmptyString)) as [H|H].
    - left. tauto.
    - destruct (includes (toLowerCase (name product))
                         (toLowerCase (trim searchTerm))) eqn:H1.
      + left. auto.
      + destruct (includes (toLowerCase (description product))
                           (toLowerCase (trim searchTerm))) eqn:H2.
        * left. auto.
        * right. intros H'. destruct (H' H); discriminate. }
  destruct D1, D2, D3; [left; auto|right; tauto..].
Defined.
End Search.

Definition product_path (product : Product) : string :=
  "/api/products/" +:+ pretty (id product) +:+ "/".






(** *** The product form *)

Record ProductFormState := {
  form_name : string;
  form_description : string;
  form_price : string;
  localId : string;
  categoryId : string;
  form_stock : string;
  inStock : bool;
  tracksStock : bool;
  lowStockThreshold : string;
  criticalStockThreshold : string;
  form_state : string;
  form_image_url : string;
  tagIds : list Z;
}.

(** [ProductCategory], under its own name space: its fields share
    their names with those of [Product]. *)
Module Category.
Record t := {
  id : Z;
  name : string;
  slug : string;
  description : option string;
  local : Z;
  local_name : string;
  tracks_stock : bool;
}.
End Category.

(** A call [handleFormChange(field, value)]: the field and its value. *)
Inductive change :=
| change_name (value : string)
| change_description (value : string)
| change_price (value : string)
| change_localId (value : string)
| change_categoryId (value : string)
| change_stock (value : string)
| change_inStock (value : bool)
| change_tracksStock (value : bool)
| change_lowStockThreshold (value : string)
| change_criticalStockThreshold (value : string)
| change_state (value : string)
| change_image_url (value : string)
| change_tagIds (value : list Z).

(** [{ ...prev, [field]: value }]. *)
Definition set_field (c : change) (prev : ProductFormState)
  : ProductFormState :=
  {| form_name :=
       match c with change_name v => v | _ => form_name prev end;
     form_description :=
       match c with
       | change_description v => v
       | _ => form_description prev
       end;
     form_price :=
       match c with change_price v => v | _ => form_price prev end;
     localId := match c with change_localId v => v | _ => localId prev end;
     categoryId :=
       match c with change_categoryId v => v | _ => categoryId prev end;
     form_stock :=
       match c with change_stock v => v | _ => form_stock prev end;
     inStock := match c with change_inStock v => v | _ => inStock prev end;
     tracksStock :=
       match c with change_tracksStock v => v | _ => tracksStock prev end;
     lowStockThreshold :=
       match c with
       | change_lowStockThreshold v => v
       | _ => lowStockThreshold prev
       end;
     criticalStockThreshold :=
       match c with
       | change_criticalStockThreshold v => v
       | _ => criticalStockThreshold prev
       end;
     form_state :=
       match c with change_state v => v | _ => form_state prev end;
     form_image_url :=
       match c with change_image_url v => v | _ => form_image_url prev end;
     tagIds := match c with change_tagIds v => v | _ => tagIds prev end |}.

(** The assignments to [next] of [handleFormChange]. *)
Definition set_tracking (next : ProductFormState) (tracks : bool)
           (newLocalId : option string) : ProductFormState :=
  {| form_name := form_name next;
     form_description := form_description next;
     form_price := form_price next;
     localId := match newLocalId with Some l => l | None => localId next end;
     categoryId := categoryId next; form_stock := form_stock next;
     inStock := inStock next; tracksStock := tracks;
     lowStockThreshold := lowStockThreshold next;
     criticalStockThreshold := criticalStockThreshold next;
     form_state := form_state next;
     form_image_url := form_image_url next; tagIds := tagIds next |}.

Definition set_stock_fields (next : ProductFormState)
           (newStock lowT criticalT : string) (available : bool)
  : ProductFormState :=
  {| form_name := form_name next;
     form_description := form_description next;
     form_price := form_price next; localId := localId next;
     categoryId := categoryId next; form_stock := newStock;
     inStock := available; tracksStock := tracksStock next;
     lowStockThreshold := lowT; criticalStockThreshold := criticalT;
     form_state := form_state next;
     form_image_url := form_image_url next; tagIds := tagIds next |}.

(** [s || fallback] on strings. *)
Definition or_else (s fallback : string) : string :=
  if String.eqb s EmptyString then fallback else s.

(** Lines 1760-1803: the updater [handleFormChange] hands to
    [setForm]. *)
Definition handleFormChange (categories : list Category.t)
           (editingProduct : option Product) (c : change)
           (prev : ProductFormState) : ProductFormState :=
  let next := set_field c prev in
  let next :=
    match c with
    | change_categoryId value =>
        match List.find (fun item =>
                           String.eqb (pretty (Category.id item)) value)
                        categories with
        | Some category =>
            let next :=
              set_tracking
                next (Category.tracks_stock category)
                (if negb (Category.local category =? 0)%Z
                 then Some (pretty (Category.local category))
                 else None) in
            if negb (Category.tracks_stock category) then
              set_stock_fields next EmptyString "0" "0" (inStock next)
            else
              match editingProduct with
              | None =>
                  set_stock_fields
                    next (form_stock next)
                    (or_else (lowStockThreshold prev) "5")
                    (or_else (criticalStockThreshold prev) "0")
                    (inStock next)
              | Some _ => next
              end
        | None => next
        end
    | _ => next
    end in
  let next :=
    match c with
    | change_tracksStock false =>
        set_stock_fields next EmptyString "0" "0" true
    | _ => next
    end in
  match c, editingProduct with
  | change_tracksStock true, None =>
      set_stock_fields next (form_stock next)
                       (or_else (lowStockThreshold next) "5")
                       (or_else (criticalStockThreshold next) "0")
                       (inStock next)
  | _, _ => next
  end.

Section ProductForm.
(** The numbers of JavaScript without NaN, with their [<] and their 0;
    [Number s = None] is NaN; [trim] is [String.prototype.trim]. *)
Variable num : Type.
Variable zero : num.
Variable lt : num -> num -> bool.
Variable Number : string -> option num.
Variable trim : string -> string.

(** [Math.max] of two numbers. *)
Definition Math_max (a b : num) : num := if lt a b then b else a.

(** The body of the request; [payload_is_active] is there for a new
    product only. *)
Record payload := {
  payload_name : string;
  payload_description : string;
  payload_price : string;
  payload_category : option num;
  payload_state : string;
  payload_local : option num;
  payload_image_url : option string;
  payload_tracks_stock : bool;
  payload_tags : list Z;
  payload_is_active : option bool;
  payload_stock : num;
  payload_low_stock_threshold : num;
  payload_critical_stock_threshold : num;
  payload_in_stock : bool;
}.

Inductive submission :=
| Rejected (message : string)
| Sent (method path : string) (body : payload).

(** Lines 1904-1996 of [handleSubmitProduct]: the checks, and the
    request when they pass. *)
Definition handleSubmitProduct (accessToken : option string)
           (editingProduct : option Product) (form : ProductFormState)
  : submission :=
  if negb (JS.truthy_string accessToken) then
    Rejected "Tu sesión expiró. Inicia sesión nuevamente."
  else if String.eqb (localId form) EmptyString then
    Rejected "Selecciona un local para asociar el producto."
  else if String.eqb (categoryId form) EmptyString then
    Rejected "Selecciona una categoría para el producto."
  else if String.eqb (trim (form_name form)) EmptyString
          || String.eqb (form_price form) EmptyString then
    Rejected "Completa al menos nombre y precio para guardar el producto."
  else
    let send stock low critical available :=
      let body :=
        {| payload_name := trim (form_name form);
           payload_description := trim (form_description form);
           payload_price := form_price form;
           payload_category := Number (categoryId form);
           payload_state := form_state form;
           payload_local := Number (localId form);
           payload_image_url :=
             if String.eqb (trim (form_image_url form)) EmptyString
             then None else Some (trim (form_image_url form));
           payload_tracks_stock := tracksStock form;
           payload_tags := tagIds form;
           payload_is_active :=
             match editingProduct with
             | None => Some true
             | Some _ => None
             end;
           payload_stock := stock;
           payload_low_stock_threshold := low;
           payload_critical_stock_threshold := critical;
           payload_in_stock := available |} in
      match editingProduct with
      | Some product => Sent "PATCH" (product_path product) body
      | None => Sent "POST" "/api/products/" body
      end in
    if tracksStock form then
      match Number (form_stock form) with
      | None => Rejected "Stock debe ser un número válido."
      | Some parsedStock =>
          match Number (lowStockThreshold form),
                Number (criticalStockThreshold form) with
          | Some parsedLow, Some parsedCritical =>
              let normalizedStock := Math_max parsedStock zero in
              let normalizedCritical := Math_max parsedCritical zero in
              let normalizedLow := Math_max parsedLow zero in
              if lt normalizedLow normalizedCritical then
                Rejected
                  "El umbral de stock bajo debe ser igual o superior al crítico."
              else send normalizedStock normalizedLow normalizedCritical
                        (lt zero normalizedStock)
          | _, _ => Rejected "Los umbrales deben ser números válidos."
          end
      end
    else send zero zero zero (inStock form).

End ProductForm.

Arguments Math_max {num} lt a b.
Arguments payload_name {num} p.
Arguments payload_description {num} p.
Arguments payload_price {num} p.
Arguments payload_category {num} p.
Arguments payload_state {num} p.
Arguments payload_local {num} p.
Arguments payload_image_url {num} p.
Arguments payload_tracks_stock {num} p.
Arguments payload_tags {num} p.
Arguments payload_is_active {num} p.
Arguments payload_stock {num} p.
Arguments payload_low_stock_threshold {num} p.
Arguments payload_critical_stock_threshold {num} p.
Arguments payload_in_stock {num} p.
Arguments Rejected {num} message.
Arguments Sent {num} method path body.
Arguments handleSubmitProduct {num} zero lt Number trim accessToken
  editingProduct form.

End Catalog.

(** ** Dashboard of a local (the second file of [app/register/page.tsx]) *)

Module LocalDashboard.

Inductive WeekDay :=
| monday | tuesday | wednesday | thursday | friday | saturday | sunday.

#[global] Instance WeekDay_eq_dec : EqDecision WeekDay.
Proof. solve_decision. Defined.

Definition WEEK_DAYS : list WeekDay :=
  [monday; tuesday; wednesday; thursday; friday; saturday; sunday].

(** The string each member of [WEEK_DAYS] is. *)
Definition day_name (day : WeekDay) : string :=
  match day with
  | monday => "monday"
  | tuesday => "tuesday"
  | wednesday => "wednesday"
  | thursday => "thursday"
  | friday => "friday"
  | saturday => "saturday"
  | sunday => "sunday"
  end.

Record DayHours := { open : string; close : string; closed : bool }.

(** [Record<WeekDay, DayHours>]. *)
Definition OpeningHours := WeekDay -> DayHours.

(** Lines 254-265. *)
Definition buildDefaultOpeningHours : OpeningHours :=
  fun day =>
    match day with
    | monday | tuesday | wednesday | thursday | friday =>
        {| open := "08:00"; close := "20:00"; closed := false |}
    | saturday => {| open := "09:00"; close := "18:00"; closed := false |}
    | sunday => {| open := "09:00"; close := "16:00"; closed := true |}
    end.

(** [base[day] = info]. *)
Definition set_day (base : OpeningHours) (day : WeekDay) (info : DayHours)
  : OpeningHours :=
  fun d => if decide (d = day) then info else base d.

Definition typeof (v : JS.value) : string :=
  match v with
  | JS.undefined => "undefined"
  | JS.null => "object"
  | JS.boolean _ => "boolean"
  | JS.number _ => "number"
  | JS.str _ => "string"
  | JS.array _ | JS.object _ => "object"
  end.

(** [v[k]] for a [v] that is neither [undefined] nor [null]. *)
Definition read (v : JS.value) (k : string) : JS.value :=
  match JS.get v k with
  | Some x => x
  | None => JS.undefined
  end.

(** [typeof v === "string" && v ? v : fallback]. *)
Definition string_or (v : JS.value) (fallback : string) : string :=
  match v with
  | JS.str s => if JS.truthy v then s else fallback
  | _ => fallback
  end.

(** One round of the [forEach] of lines 273-291. *)
Definition normalize_day (value : JS.value) (base : OpeningHours)
           (day : WeekDay) : OpeningHours :=
  let raw := read value (day_name day) in
  if JS.truthy raw && String.eqb (typeof raw) "object" then
    let cast := raw in
    set_day base day
            {| open := string_or (read cast "open") (open (base day));
               close := string_or (read cast "close") (close (base day));
               closed :=
                 match read cast "closed" with
                 | JS.boolean b => b
                 | v => JS.truthy v
                 end |}
  else base.

(** Lines 267-293. *)
Definition normalizeOpeningHours (value : JS.value) : OpeningHours :=
  let base := buildDefaultOpeningHours in
  if negb (JS.truthy value) || negb (String.eqb (typeof value) "object")
  then base
  else fold_left (normalize_day value) WEEK_DAYS base.

(** The state [openingHours] as a value: what [handleScheduleSubmit]
    hands to [updateLocal] as [opening_hours]. *)
Definition DayHours_value (info : DayHours) : JS.value :=
  JS.object [("open", JS.str (open info)); ("close", JS.str (close info));
             ("closed", JS.boolean (closed info))].

Definition OpeningHours_value (hours : OpeningHours) : JS.value :=
  JS.object (map (fun day => (day_name day, DayHours_value (hours day)))
                 WEEK_DAYS).

(** The updater [updateLocal] hands to [setLocals] (lines 484-486), for
    any type of profiles with its [id]. *)
Section UpdateLocal.
Context {LocalProfile : Type} (id : LocalProfile -> Z).

Definition replace_local (updated : LocalProfile)
           (prev : list LocalProfile) : list LocalProfile :=
  map (fun local => if decide (id local = id updated) then updated
                    else local) prev.
End UpdateLocal.

End LocalDashboard.

(** ** Login page ([src/unnamed/part_000]) *)

Module LoginPage.
Import JS.

Record form_state := { username : string; password : string }.

Section WithPlatform.
Variable P : platform.

(** Lines 12-25: [handleSubmit], from the state of the provider to
    [localError] and the state of the provider. *)
Definition handleSubmit (fetch : AuthContext.api) (form : form_state)
           (s : AuthContext.state) : option string * AuthContext.state :=
  let s := AuthContext.clearError s in
  if String.eqb (username form) EmptyString
     || String.eqb (password form) EmptyString then
    (Some "Ingresa tu usuario y contraseña.", s)
  else
    match AuthContext.login
            P fetch
            {| AuthContext.credentials_username := username form;
               AuthContext.credentials_password := password form |} s with
    | (Return _, s') => (None, s')
    | (Throw _, s') =>
        (Some "Credenciales inválidas. Verifica e inténtalo nuevamente.", s')
    end.
End WithPlatform.

(** Lines 37-41: the message above the form,
    [(localError || error) && (localError ?? error)]. *)
Definition banner (localError : option string) (s : AuthContext.state)
  : option string :=
  if truthy_string localError || truthy_string (AuthContext.error s) then
    match localError with
    | Some message => Some message
    | None => AuthContext.error s
    end
  else None.

End LoginPage.

(** ** Register page (the first file of [app/register/page.tsx]) *)

Module RegisterPage.
Import JS.

Record form_state := {
  username : string;
  email : string;
  password : string;
  role : string;
}.

(** The form as the [RegisterPayload] that [register(form)] gets. *)
Definition as_payload (form : form_state) : AuthContext.RegisterPayload :=
  {| AuthContext.payload_username := username form;
     AuthContext.payload_password := password form;
     AuthContext.payload_email := Some (email form);
     AuthContext.payload_role := Some (role form) |}.

Section WithPlatform.
Variable P : platform.

(** Lines 24-39: [handleSubmit], from the state of the provider to
    [localError] and the state of the provider. *)
Definition handleSubmit (fetch : AuthContext.api) (form : form_state)
           (s : AuthContext.state) : option string * AuthContext.state :=
  let s := AuthContext.clearError s in
  if String.eqb (username form) EmptyString
     || String.eqb (password form) EmptyString then
    (Some "Completa usuario y contraseña.", s)
  else
    match AuthContext.register P fetch (as_payload form) s with
    | (Return _, s') => (None, s')
    | (Throw _, s') =>
        (Some "No pudimos crear tu cuenta. Revisa los datos y vuelve a intentar.",
         s')
    end.
End WithPlatform.

(** Lines 52-56: the message above the form,
    [(localError || error) && (localError ?? error)]. *)
Definition banner (localError : option string) (s : AuthContext.state)
  : option string :=
  if truthy_string localError || truthy_string (AuthContext.error s) then
    match localError with
    | Some message => Some message
    | None => AuthContext.error s
    end
  else None.

End RegisterPage.

(** ** Concrete inputs *)

Module Inputs.
Import JS.

Definition platform0 : platform := RefJSON.ref_platform None.

(** A 200 response whose body is a page of HTML. *)
Definition html_200 : Response :=
  {| ok := true; status := 200; statusText := "OK";
     body := Some "<html>"; bodyUsed := false |}.

(** A 404 response with a JSON body. *)
Definition json_404 : Response :=
  {| ok := false; status := 404; statusText := "Not Found";
     body := Some "[404]"; bodyUsed := false |}.

(** A 502 response whose body is plain text. *)
Definition text_502 : Response :=
  {| ok := false; status := 502; statusText := EmptyString;
     body := Some "Bad Gateway"; bodyUsed := false |}.

Definition get_options : Api.RequestOptions :=
  {| Api.method := None; Api.headers := ∅; Api.body := undefined;
     Api.token := None |}.

(** No token, and an [Authorization] header of the caller's own. *)
Definition own_authorization : Api.RequestOptions :=
  {| Api.method := None;
     Api.headers := {[ "Authorization" := "Basic Y29mZmVl" ]};
     Api.body := undefined; Api.token := None |}.

(** The empty token, and the header that [apiFetch] would make of it. *)
Definition empty_token : Api.RequestOptions :=
  {| Api.method := None;
     Api.headers := {[ "Authorization" := "Bearer " ]};
     Api.body := undefined; Api.token := Some EmptyString |}.

Definition product (i : Z) (n : string) (c : option Z) (cn : string)
  : ClientWallet.CatalogProduct :=
  {| ClientWallet.id := i; ClientWallet.local := 1;
     ClientWallet.product_name := n;
     ClientWallet.description := EmptyString;
     ClientWallet.price := "2500.00";
     ClientWallet.category := c; ClientWallet.category_name := cn;
     ClientWallet.category_slug := EmptyString;
     ClientWallet.display_order := i;
     ClientWallet.image_url := None; ClientWallet.in_stock := true;
     ClientWallet.is_active := true; ClientWallet.state := "normal";
     ClientWallet.stock_state := "normal" |}.

Definition espresso := product 1 "Espresso" (Some 3) "Cafés".
Definition galleta := product 2 "Galleta" None EmptyString.
Definition latte := product 3 "Latte" (Some 3) "Cafés".
Definition agua := product 4 "Agua" None EmptyString.

(** A product filed under the category number -1. *)
Definition oferta := product 5 "Oferta" (Some (-1)) "Ofertas".

(** One consistent comparator: the order of the bytes. *)
Definition byte_compare (a b : string) : Z :=
  match String.compare a b with
  | Lt => -1
  | Eq => 0
  | Gt => 1
  end.

Definition a_local (i : Z) (n t : string) : ClientWallet.Local :=
  {| ClientWallet.local_id := i; ClientWallet.name := n;
     ClientWallet.headline := EmptyString;
     ClientWallet.highlights := EmptyString;
     ClientWallet.address := EmptyString;
     ClientWallet.schedule := EmptyString;
     ClientWallet.type := t;
     ClientWallet.cover_image_url := None;
     ClientWallet.website_url := EmptyString;
     ClientWallet.instagram_url := EmptyString;
     ClientWallet.contact_phone := EmptyString;
     ClientWallet.contact_email := EmptyString;
     ClientWallet.map_url := EmptyString;
     ClientWallet.points_rate := 1;
     ClientWallet.tag_details := [] |}.

Definition locals_response : list ClientWallet.Local :=
  [a_local 1 "Tostaduria Sur" "tostaduria";
   a_local 2 "Molino" "hibrido";
   a_local 3 "Aroma" "cafeteria";
   a_local 4 "Bodega" "admin"].


(** A browser with one interval of its own, and the page's ref as
    [useRef(null)] makes it. *)
Definition browser : Orders.page :=
  {| Orders.pollRef := None;
     Orders.intervals :=
       {[ 3 := {| Orders.callback := Orders.other_handler;
                  Orders.timeout := 1000 |} ]};
     Orders.next_handle := 7 |}.

Definition bebida : Catalog.Product :=
  {| Catalog.id := 9; Catalog.local := 1; Catalog.local_name := "Aroma";
     Catalog.category := 3; Catalog.category_name := "Cafés";
     Catalog.category_slug := "cafes";
     Catalog.category_tracks_stock := true; Catalog.tracks_stock := true;
     Catalog.name := "Latte"; Catalog.description := EmptyString;
     Catalog.price := "2500.00"; Catalog.stock := 40;
     Catalog.in_stock := true; Catalog.stock_state := Catalog.low;
     Catalog.low_stock_threshold := 5;
     Catalog.critical_stock_threshold := 2;
     Catalog.display_order := 1; Catalog.state := "normal";
     Catalog.is_active := true; Catalog.image_url := None |}.

Definition ana : AuthContext.LoginCredentials :=
  {| AuthContext.credentials_username := "ana";
     AuthContext.credentials_password := "secreta" |}.

Definition ana_tokens : value :=
  AuthContext.AuthTokens_value
    {| AuthContext.access := "eyJhY2Nlc3M"; AuthContext.refresh := "eyJyZWZyZXNo" |}.

Definition ana_user : value :=
  AuthContext.AuthUser_value
    {| AuthContext.username := "ana"; AuthContext.role := Some "cliente" |}.

(** The answer of [/api/users/]. *)
Definition users : value :=
  array [object [("username", str "luis"); ("role", str "cafeteria")];
         object [("username", str "ana"); ("role", str "cliente")]].

(** A fresh browser, mounted and re-hydrated. *)
Definition fresh : AuthContext.state :=
  AuthContext.rehydrate platform0 (AuthContext.mount ∅).

(** [login] is called, the tokens arrive, the user clicks "Cerrar
    sesión" while the profile request is in flight, the profile
    arrives. *)
Definition race1 : AuthContext.config :=
  (AuthContext.login_begin fresh, [AuthContext.AwaitTokens ana]).
Definition race2 : AuthContext.config :=
  (AuthContext.login_tokens_arrived platform0 ana ana_tokens (fst race1),
   [AuthContext.AwaitProfile ana ana_tokens]).
Definition race3 : AuthContext.config :=
  (AuthContext.logout platform0 (fst race2),
   [AuthContext.AwaitProfile ana ana_tokens]).
Definition race4 : AuthContext.config :=
  (let '(loadedProfile, s1) :=
     AuthContext.loadUserProfile_resume platform0 ana_tokens "ana"
       (Return users) (fst race3) in
   snd (AuthContext.login_finish loadedProfile s1), []).

(** A 500 response without a body. *)
Definition empty_500 : Response :=
  {| ok := false; status := 500; statusText := "Internal Server Error";
     body := None; bodyUsed := false |}.

(** A stored value that is JSON and no snapshot. *)
Definition stored_null : gmap string string :=
  {[ AuthContext.STORAGE_KEY := "null" ]}.

Definition nobody : AuthContext.RegisterPayload :=
  {| AuthContext.payload_username := "ana";
     AuthContext.payload_password := "secreta";
     AuthContext.payload_email := None;
     AuthContext.payload_role := None |}.

(** A network that is down. *)
Definition offline : string -> Api.RequestOptions -> completion value :=
  fun _ _ => Throw TypeError.

(** A server that knows ana. *)
Definition server : string -> Api.RequestOptions -> completion value :=
  fun path _ =>
    if String.eqb path "/api/token/" then Return ana_tokens
    else Return users.

Definition a_balance (l : Z) (n : string) (t : Z) : ClientWallet.PointBalance :=
  {| ClientWallet.balance_id := l; ClientWallet.balance_user := 7;
     ClientWallet.balance_user_name := "ana";
     ClientWallet.balance_local := l; ClientWallet.balance_local_name := n;
     ClientWallet.total := t;
     ClientWallet.updated_at := "2025-01-01T00:00:00Z" |}.

(** Summaries of the loyalty page. *)
Definition points (u : Z) (n : string) (t : Z) : Loyalty.TopCustomer :=
  {| Loyalty.user_id := u; Loyalty.user_name := n; Loyalty.local_id := 1;
     Loyalty.local_name := "Central"; Loyalty.customer_total_points := t |}.

Definition summary_of (customers : list Loyalty.TopCustomer)
           (rewards : list Loyalty.TopReward) : Loyalty.LoyaltySummary :=
  {| Loyalty.total_points := 200; Loyalty.active_customers := 2;
     Loyalty.active_rewards := 1; Loyalty.total_rewards := 1;
     Loyalty.redemptions_last_window := 3;
     Loyalty.points_redeemed_last_window := 30;
     Loyalty.top_customers := customers; Loyalty.top_rewards := rewards;
     Loyalty.generated_at := "2025-01-01T00:00:00Z";
     Loyalty.window_days := 30 |}.

Definition first_answer : Loyalty.LoyaltySummary :=
  summary_of [points 7 "ana" 120; points 9 "luis" 80]
             [{| Loyalty.reward_id := Some 4;
                 Loyalty.reward_name := Some "Espresso";
                 Loyalty.redemptions := 3 |}].

(** The same customer of the same local twice. *)
Definition repeated : Loyalty.LoyaltySummary :=
  summary_of [points 7 "ana" 120; points 7 "ana" 60] [].

Definition refreshed : Loyalty.LoyaltySummary :=
  summary_of [points 9 "luis" 80] [].

(** A product with stock tracking and three units. *)
Definition tracked : Catalog.Product :=
  {| Catalog.id := 12; Catalog.local := 1; Catalog.local_name := "Central";
     Catalog.category := 4; Catalog.category_name := "Cafés";
     Catalog.category_slug := "cafes";
     Catalog.category_tracks_stock := true; Catalog.tracks_stock := true;
     Catalog.name := "Espresso"; Catalog.description := EmptyString;
     Catalog.price := "1800.00"; Catalog.stock := 3;
     Catalog.in_stock := true; Catalog.stock_state := Catalog.low;
     Catalog.low_stock_threshold := 5;
     Catalog.critical_stock_threshold := 2; Catalog.display_order := 0;
     Catalog.state := "normal"; Catalog.is_active := true;
     Catalog.image_url := None |}.

(** [Number] on the strings of decimal digits; the empty string is 0,
    as in JavaScript, and every other string is NaN here. *)
Fixpoint digits (acc : Z) (s : string) : option Z :=
  match s with
  | EmptyString => Some acc
  | String c rest =>
      let n := Z.of_N (N_of_ascii c) - 48 in
      if (0 <=? n) && (n <=? 9) then digits (10 * acc + n) rest else None
  end.

Definition Number_Z (s : string) : option Z := digits 0 s.

(** [trim] as far as the space goes. *)
Fixpoint trim_start (s : string) : string :=
  match s with
  | String " " rest => trim_start rest
  | _ => s
  end.

Definition trim (s : string) : string :=
  String.rev (trim_start (String.rev (trim_start s))).

(** A category without stock tracking. *)
Definition pasteles : Catalog.Category.t :=
  {| Catalog.Category.id := 9; Catalog.Category.name := "Pasteles";
     Catalog.Category.slug := "pasteles";
     Catalog.Category.description := None;
     Catalog.Category.local := 1;
     Catalog.Category.local_name := "Central";
     Catalog.Category.tracks_stock := false |}.

(** The form filled for a new product with stock tracking. *)
Definition new_espresso : Catalog.ProductFormState :=
  {| Catalog.form_name := "Espresso";
     Catalog.form_description := EmptyString;
     Catalog.form_price := "1800"; Catalog.localId := "1";
     Catalog.categoryId := "4"; Catalog.form_stock := "12";
     Catalog.inStock := true; Catalog.tracksStock := true;
     Catalog.lowStockThreshold := "5";
     Catalog.criticalStockThreshold := "2";
     Catalog.form_state := "normal";
     Catalog.form_image_url := EmptyString; Catalog.tagIds := [] |}.

End Inputs.

(** * Part II.  The properties *)

Module ListFacts.

Lemma lookup_map {A B} (f : A -> B) (l : list A) i :
  map f l !! i = f <$> l !! i.
Proof.
  revert i. induction l as [|x l IH]; intros [|i]; cbn; auto.
Qed.

End ListFacts.

Module OrdersFacts.
Import Orders.

Lemma offered_iff_table s s' :
  offered s s' <-> In s' (NEXT_STATUS_OPTIONS s).
Proof.
  split.
  - intros (upd & o & bs & b & Hs & Hr & Hb & Hk). subst s s'.
    unfold render_actions in Hr.
    destruct (decide _) as [_|_]; [|discriminate].
    injection Hr as <-. apply in_map_iff in Hb as (n & <- & Hn). exact Hn.
  - intros Hin.
    exists None, {| id := 0; status := s |}.
    unfold render_actions; cbn [status].
    destruct (decide (0 < length (NEXT_STATUS_OPTIONS s))%nat) as [_|Hlen].
    + eexists _, {| key := s'; disabled := _ |}.
      split; [reflexivity|]. split; [reflexivity|]. split; [|reflexivity].
      apply in_map_iff. exists s'. split; [reflexivity|exact Hin].
    + destruct (NEXT_STATUS_OPTIONS s); [destruct Hin|cbn in Hlen; lia].
Qed.

Lemma terminal_stuck s s' : terminal s -> rtc offered s s' -> s' = s.
Proof.
  intros Ht Hrtc. induction Hrtc as [|s m s' Hstep _ _]; [reflexivity|].
  apply offered_iff_table in Hstep.
  destruct Ht as [-> | ->]; destruct Hstep.
Qed.

(** C9.  The table offers exactly the six transitions
    pendiente -> preparando | cancelado, preparando -> listo | cancelado,
    listo -> completado | cancelado; an order whose status is completado
    or cancelado gets no button (its card shows the "no actions" pill),
    so no sequence of button steps leaves a terminal status. *)
Theorem next_status_never_leaves_terminal :
  (forall s s',
      offered s s' <->
      In (s, s') [(pendiente, preparando); (pendiente, cancelado);
                  (preparando, listo); (preparando, cancelado);
                  (listo, completado); (listo, cancelado)]) /\
  NEXT_STATUS_OPTIONS completado = [] /\
  NEXT_STATUS_OPTIONS cancelado = [] /\
  (forall upd order, terminal (status order) ->
                     render_actions upd order = SinAcciones) /\
  (forall s s', terminal s -> ~ offered s s') /\
  (forall s s', terminal s -> rtc offered s s' -> s' = s).
Proof.
  split; [|split; [reflexivity|split; [reflexivity|split; [|split]]]].
  - intros s s'. rewrite offered_iff_table.
    destruct s, s'; cbn; intuition congruence.
  - intros upd [i s] [Hs | Hs]; cbn in Hs; subst s; reflexivity.
  - intros s s' Ht Hoff. apply offered_iff_table in Hoff.
    destruct Ht as [-> | ->]; destruct Hoff.
  - exact terminal_stuck.
Qed.

(** *** The polling effect *)

Lemma base_free base handle :
  well_formed base -> next_handle base <= handle ->
  intervals base !! handle = None.
Proof.
  intros (_ & _ & Hdom) Hle.
  destruct (intervals base !! handle) as [iv|] eqn:Hlook; [|reflexivity].
  specialize (Hdom handle (ex_intro _ iv Hlook)). lia.
Qed.

Lemma cleanup_invariant base c :
  well_formed base -> poll_invariant base c ->
  poll_invariant base (if snd c then poll_cleanup (fst c) else fst c, false).
Proof.
  intros Hwf [Hnext Hinv]. destruct c as [w [|]]; cbn [fst snd] in *.
  - destruct Hinv as (handle & Href & Hrange & Hint).
    unfold poll_cleanup, clear_poll. rewrite Href.
    destruct Hwf as (Hwf1 & Hpos & Hdom).
    destruct (Z.eqb_spec handle 0) as [->|_]; [lia|].
    split; [exact Hnext|]. cbn. rewrite Href, Hint. split; [|exact Hrange].
    apply delete_insert_id, base_free; [repeat split; assumption|lia].
  - split; [exact Hnext|exact Hinv].
Qed.

Lemma effect_invariant base w accessToken :
  well_formed base -> poll_invariant base (w, false) ->
  poll_invariant base (poll_effect accessToken w) /\
  snd (poll_effect accessToken w) = JS.truthy_string accessToken.
Proof.
  intros Hwf [Hnext [Hint Href]]. cbn [fst snd] in *. unfold poll_effect.
  destruct (JS.truthy_string accessToken); cbn [negb].
  - split; [|reflexivity].
    assert (intervals (clear_poll w) = intervals base
            /\ next_handle (clear_poll w) = next_handle w) as [Hint' Hnext'].
    { unfold clear_poll. destruct (pollRef w) as [handle|]; [|auto].
      destruct (handle =? 0); [auto|]. cbn. split; [|reflexivity].
      rewrite Hint. apply delete_id, base_free; [exact Hwf|lia]. }
    cbn. rewrite Hint', Hnext'. split; [cbn; lia|]. cbn [fst snd].
    exists (next_handle w). cbn. split; [reflexivity|]. split; [lia|].
    reflexivity.
  - split; [|reflexivity]. split; [exact Hnext|]. split; assumption.
Qed.

Lemma commit_invariant base c accessToken :
  well_formed base -> poll_invariant base c ->
  poll_invariant base (commit c accessToken) /\
  snd (commit c accessToken) = JS.truthy_string accessToken.
Proof.
  intros Hwf Hinv. unfold commit.
  apply effect_invariant; [exact Hwf|]. now apply cleanup_invariant.
Qed.

Lemma mounted_invariant base renders :
  well_formed base ->
  poll_invariant base (mounted base renders) /\
  snd (mounted base renders)
  = match last renders with
    | Some accessToken => JS.truthy_string accessToken
    | None => false
    end.
Proof.
  intros Hwf. unfold mounted.
  induction renders as [|accessToken renders IH] using rev_ind.
  - split; [|reflexivity]. unfold poll_invariant. cbv [fold_left fst snd].
    split; [lia|]. split; [reflexivity|]. now rewrite (proj1 Hwf).
  - rewrite fold_left_app, last_snoc. cbn [fold_left].
    apply commit_invariant; [exact Hwf|apply IH].
Qed.

(** C5.  Whatever values the access token takes from commit to commit:
    while the token of the last commit is present, the page has exactly
    one interval of its own, new to the browser, which calls [fetchData]
    every 30000 ms and which [pollRef] names (the one of the commit
    before is cleared first); while it is absent the page has none; and
    when the page unmounts, the cleanup leaves none. *)
Theorem poll_timer base renders :
  well_formed base ->
  let now := fst (mounted base renders) in
  match last renders with
  | Some accessToken =>
      if JS.truthy_string accessToken then
        exists handle,
          pollRef now = Some handle /\
          intervals base !! handle = None /\
          intervals now
          = <[ handle := {| callback := call_fetchData;
                            timeout := REFRESH_INTERVAL_MS |} ]>
              (intervals base)
      else intervals now = intervals base
  | None => intervals now = intervals base
  end /\
  REFRESH_INTERVAL_MS = 30000 /\
  intervals (unmount (mounted base renders)) = intervals base.
Proof.
  intros Hwf now.
  destruct (mounted_invariant base renders Hwf) as [Hinv Hsnd].
  pose proof (cleanup_invariant base _ Hwf Hinv) as [_ [Hclean _]].
  split; [|split; [reflexivity|exact Hclean]].
  destruct Hinv as [Hnext Hinv]. rewrite Hsnd in Hinv. subst now.
  destruct (last renders) as [accessToken|]; [|exact (proj1 Hinv)].
  destruct (JS.truthy_string accessToken); [|exact (proj1 Hinv)].
  destruct Hinv as (handle & Href & Hrange & Hint).
  exists handle. split; [exact Href|]. split; [|exact Hint].
  apply base_free; [exact Hwf|lia].
Qed.

Lemma browser_well_formed : well_formed Inputs.browser.
Proof.
  split; [reflexivity|]. split; [reflexivity|].
  intros handle [iv Hiv]. cbn in Hiv.
  apply lookup_singleton_Some in Hiv as [<- _]. reflexivity.
Qed.

Lemma poll_timer_witness :
  intervals (fst (mounted Inputs.browser [Some "t1"; None; Some "t2"; Some "t3"]))
  = <[ 9 := poll_interval ]> (intervals Inputs.browser) /\
  intervals (fst (mounted Inputs.browser [Some "t1"; None]))
  = intervals Inputs.browser /\
  intervals (unmount (mounted Inputs.browser [Some "t1"; Some "t2"]))
  = intervals Inputs.browser.
Proof.
  pose proof (poll_timer Inputs.browser [Some "t1"; None; Some "t2"; Some "t3"]
                         browser_well_formed) as [Hlast _].
  pose proof (poll_timer Inputs.browser [Some "t1"; None]
                         browser_well_formed) as [Hnone _].
  pose proof (poll_timer Inputs.browser [Some "t1"; Some "t2"]
                         browser_well_formed) as (_ & _ & Hunmount).
  split; [|split; [exact Hnone|exact Hunmount]].
  destruct Hlast as (handle & Href & _ & Hint).
  injection Href as <-. exact Hint.
Defined.

End OrdersFacts.

(** ** React: a render on a container without stale nodes *)

Module ReactFacts.
Import Collections React.
Local Open Scope nat_scope.

Section Host.
Context {host : Type}.
Implicit Types (nodes : list (nat * host)) (e : nat * host).
Implicit Types (f : @work_fiber host) (todo : list (@work_fiber host)).

Lemma insertBefore_split e b h A B :
  b ∉ map fst A ->
  insertBefore e b (A ++ (b, h) :: B) = A ++ e :: (b, h) :: B.
Proof.
  induction A as [|x A IH]; cbn [insertBefore app map].
  - intros _. now rewrite decide_True.
  - rewrite not_elem_of_cons. intros [Hne Hnin].
    rewrite decide_False by congruence. now rewrite IH.
Qed.

Lemma filter_split {A} (P : A -> Prop) `{forall x, Decision (P x)}
      (l l1 l2 : list A) x :
  filter P l = l1 ++ x :: l2 ->
  exists A B, l = A ++ x :: B /\ filter P A = l1 /\ filter P B = l2.
Proof.
  revert l1. induction l as [|y l IH]; intros l1 Hf.
  - now destruct l1.
  - rewrite filter_cons in Hf. destruct (decide (P y)) as [Hy|Hy].
    + destruct l1 as [|z l1]; cbn [app] in Hf.
      * injection Hf as -> Hf. exists [], l. cbn. auto.
      * injection Hf as -> Hf.
        destruct (IH _ Hf) as (A0 & B0 & -> & HA & HB).
        exists (z :: A0), B0. cbn [app]. rewrite filter_cons, decide_True by done.
        now rewrite HA.
    + destruct (IH _ Hf) as (A0 & B0 & -> & HA & HB).
      exists (y :: A0), B0. cbn [app]. rewrite filter_cons, decide_False by done.
      auto.
Qed.

Lemma filter_filter_and {A} (P Q : A -> Prop)
      `{forall x, Decision (P x)} `{forall x, Decision (Q x)} (l : list A) :
  filter P (filter Q l) = filter (fun x => P x /\ Q x) l.
Proof.
  induction l as [|x l IH]; [reflexivity|].
  rewrite !filter_cons. destruct (decide (Q x)) as [HQ|HQ].
  - rewrite filter_cons. destruct (decide (P x)) as [HP|HP].
    + rewrite decide_True by done. now rewrite IH.
    + rewrite decide_False by tauto. exact IH.
  - rewrite decide_False by tauto. exact IH.
Qed.

Lemma filter_ext_in {A} (P Q : A -> Prop)
      `{forall x, Decision (P x)} `{forall x, Decision (Q x)} (l : list A) :
  (forall x, x ∈ l -> P x <-> Q x) -> filter P l = filter Q l.
Proof.
  induction l as [|x l IH]; intros Hext; [reflexivity|].
  rewrite !filter_cons.
  assert (filter P l = filter Q l) as ->
      by (apply IH; intros y Hy; apply Hext; now right).
  destruct (decide (P x)) as [HP|HP].
  - rewrite decide_True; [reflexivity|]. apply Hext; [now left|done].
  - rewrite decide_False; [reflexivity|].
    intros HQ. apply HP, Hext; [now left|done].
Qed.

Lemma filter_keeps_all {A} (P : A -> Prop) `{forall x, Decision (P x)}
      (l : list A) :
  (forall x, x ∈ l -> P x) -> filter P l = l.
Proof.
  induction l as [|x l IH]; intros Hall; [reflexivity|].
  rewrite filter_cons, decide_True by (apply Hall; now left).
  rewrite IH; [reflexivity|]. intros y Hy. apply Hall. now right.
Qed.

Lemma filter_keeps_none {A} (P : A -> Prop) `{forall x, Decision (P x)}
      (l : list A) :
  (forall x, x ∈ l -> ~ P x) -> filter P l = [].
Proof.
  induction l as [|x l IH]; intros Hall; [reflexivity|].
  rewrite filter_cons, decide_False by (apply Hall; now left).
  apply IH. intros y Hy. apply Hall. now right.
Qed.

Lemma placed_cons f todo :
  placed (f :: todo) = if Placement f then f :: placed todo else placed todo.
Proof.
  unfold placed. rewrite filter_cons.
  destruct (Placement f); [now rewrite decide_True|now rewrite decide_False].
Qed.

Lemma stable_cons f todo :
  stable (f :: todo) = if Placement f then stable todo else f :: stable todo.
Proof.
  unfold stable. rewrite filter_cons.
  destruct (Placement f); [now rewrite decide_False|now rewrite decide_True].
Qed.

Lemma getHostSibling_None todo :
  getHostSibling todo = None -> stable todo = [].
Proof.
  unfold stable. induction todo as [|f todo IH]; [reflexivity|].
  cbn [getHostSibling]. rewrite filter_cons.
  destruct (Placement f); [|discriminate].
  intros Hn. rewrite decide_False by discriminate. auto.
Qed.

Lemma getHostSibling_Some todo b :
  getHostSibling todo = Some b ->
  exists s more, stable todo = s :: more /\ node s = b.
Proof.
  unfold stable. induction todo as [|f todo IH]; [discriminate|].
  cbn [getHostSibling]. rewrite filter_cons.
  destruct (Placement f) eqn:Hf.
  - intros Hn. rewrite decide_False by discriminate. auto.
  - intros [= <-]. rewrite decide_True by reflexivity. eauto.
Qed.

Lemma map_fst_commitUpdate f nodes :
  map fst (commitUpdate f nodes) = map fst nodes.
Proof.
  unfold commitUpdate. rewrite map_map. apply map_ext.
  intros e. now destruct (decide (e.1 = node f)) as [->|].
Qed.

Lemma commitUpdate_absent f nodes :
  node f ∉ map fst nodes -> commitUpdate f nodes = nodes.
Proof.
  unfold commitUpdate. induction nodes as [|e nodes IH]; [reflexivity|].
  cbn [map]. rewrite not_elem_of_cons. intros [Hne Hnin].
  rewrite decide_False by congruence. now rewrite IH.
Qed.

Lemma filter_ids_commitUpdate (P : nat -> Prop) `{forall n, Decision (P n)}
      f nodes :
  filter (fun e => P e.1) (commitUpdate f nodes)
  = commitUpdate f (filter (fun e => P e.1) nodes).
Proof.
  unfold commitUpdate. induction nodes as [|e nodes IH]; [reflexivity|].
  destruct e as [n h]. cbn [map fst]. rewrite !filter_cons. cbn [fst].
  destruct (decide (n = node f)) as [->|Hne]; cbn [fst].
  - destruct (decide (P (node f))); cbn [map fst].
    + rewrite decide_True by reflexivity. now rewrite IH.
    + exact IH.
  - destruct (decide (P n)); cbn [map fst].
    + rewrite decide_False by exact Hne. now rewrite IH.
    + exact IH.
Qed.

Lemma map_fst_filter_ids (P : nat -> Prop) `{forall n, Decision (P n)}
      nodes :
  map fst (filter (fun e => P e.1) nodes) = filter P (map fst nodes).
Proof.
  induction nodes as [|e nodes IH]; [reflexivity|].
  cbn [map]. rewrite !filter_cons.
  destruct (decide (P e.1)); cbn [map]; now rewrite IH.
Qed.

Lemma map_fst_removeChild n nodes :
  map fst (removeChild n nodes) = filter (fun m => m <> n) (map fst nodes).
Proof. exact (map_fst_filter_ids (fun m => m <> n) nodes). Qed.

Lemma commitChildren_spec todo : forall nodes pre X,
  NoDup (map fst nodes) ->
  NoDup (map node todo) ->
  (forall f, f ∈ todo -> node f ∉ map fst pre) ->
  filter (fun e => e.1 ∉ map node (placed todo)) nodes = pre ++ X ->
  map fst X = map node (stable todo) ->
  commitChildren todo nodes = pre ++ map target todo.
Proof.
  induction todo as [|f todo IH]; intros nodes pre X Hnd Hnodes Hpre Hfil HX.
  - cbn in *. destruct X; [|discriminate]. rewrite app_nil_r in *.
    rewrite <- Hfil. symmetry. apply filter_keeps_all.
    intros e _. apply not_elem_of_nil.
  - cbn [commitChildren map]. cbn [map] in Hnodes.
    apply NoDup_cons in Hnodes as [Hf Hnodes].
    assert (forall g, g ∈ todo -> node g <> node f) as Hother.
    { intros g Hg Heq. apply Hf. rewrite <- Heq.
      apply list_elem_of_fmap. eauto. }
    rewrite placed_cons in Hfil. rewrite stable_cons in HX.
    replace (pre ++ target f :: map target todo)
      with ((pre ++ [target f]) ++ map target todo)
      by now rewrite <- app_assoc.
    destruct (Placement f) eqn:Hflag.
    + cbn [map] in Hfil.
      assert (filter (fun e => e.1 ∉ map node (placed todo))
                     (removeChild (node f) nodes) = pre ++ X) as Hfil1.
      { unfold removeChild. rewrite filter_filter_and. rewrite <- Hfil.
        apply filter_ext_in. intros e _.
        rewrite not_elem_of_cons. tauto. }
      assert (NoDup (map fst (removeChild (node f) nodes))) as Hnd1.
      { rewrite map_fst_removeChild. now apply NoDup_filter. }
      assert (node f ∉ map fst (removeChild (node f) nodes)) as Hgone.
      { rewrite map_fst_removeChild, list_elem_of_filter. tauto. }
      assert (node f ∉ map node (placed todo)) as Hfp.
      { intros Hin. apply list_elem_of_fmap in Hin as (g & Heq & Hg).
        unfold placed in Hg. apply list_elem_of_filter in Hg as [_ Hg].
        now apply (Hother g). }
      unfold commitPlacement.
      destruct (getHostSibling todo) as [b|] eqn:Hsib.
      * apply getHostSibling_Some in Hsib as (s & more & Hst & Hb).
        rewrite Hst in HX. cbn [map] in HX.
        destruct X as [|x X']; [discriminate|]. cbn [map] in HX.
        injection HX as Hx HX'. rewrite Hb in Hx.
        destruct (filter_split _ _ _ _ _ Hfil1) as (A & B & HAB & HA & HB).
        rewrite HAB in *. destruct x as [xb xh]. cbn [fst] in Hx. subst xb.
        rewrite insertBefore_split.
        2:{ rewrite map_app in Hnd1. cbn [map] in Hnd1.
            apply NoDup_app in Hnd1 as (_ & Hdis & _).
            intros Hin. apply (Hdis _ Hin). now left. }
        apply (IH _ _ (((b, xh)) :: X')).
        -- rewrite map_app in *. cbn [map fst] in *.
           apply NoDup_app in Hnd1 as (HA1 & Hdis & HB1).
           apply NoDup_app. split; [exact HA1|]. split.
           ++ intros n Hn. rewrite elem_of_cons. intros [->|Hn'].
              ** apply Hgone. rewrite elem_of_app. now left.
              ** now apply (Hdis n).
           ++ constructor; [|exact HB1].
              intros Hin. apply Hgone. rewrite elem_of_app. right.
              exact Hin.
        -- exact Hnodes.
        -- intros g Hg. rewrite map_app. cbn [map target fst].
           rewrite elem_of_app, list_elem_of_singleton.
           intros [Hin|Heq]; [|now apply (Hother g)].
           apply (Hpre g); [now right|exact Hin].
        -- rewrite filter_app, !filter_cons, HA.
           rewrite decide_True by exact Hfp.
           rewrite filter_app, filter_cons in Hfil1.
           rewrite HA in Hfil1. apply app_inv_head in Hfil1.
           rewrite <- app_assoc. cbn [app]. now rewrite Hfil1.
        -- rewrite Hst. cbn [map]. now rewrite Hb, HX'.
      * apply getHostSibling_None in Hsib.
        rewrite Hsib in HX. destruct X; [|discriminate].
        rewrite app_nil_r in Hfil1.
        apply (IH _ _ []).
        -- rewrite map_app. cbn [map target fst].
           apply NoDup_app. split; [exact Hnd1|]. split.
           ++ intros n Hn Hn'. apply list_elem_of_singleton in Hn'.
              subst. contradiction.
           ++ apply NoDup_singleton.
        -- exact Hnodes.
        -- intros g Hg. rewrite map_app. cbn [map target fst].
           rewrite elem_of_app, list_elem_of_singleton.
           intros [Hin|Heq]; [|now apply (Hother g)].
           apply (Hpre g); [now right|exact Hin].
        -- rewrite filter_app, Hfil1, filter_cons.
           rewrite decide_True by exact Hfp. now rewrite app_nil_r.
        -- now rewrite Hsib.
    + cbn [map] in HX.
      destruct X as [|[xn xh] X']; [discriminate|].
      cbn [map fst] in HX. injection HX as -> HX'.
      apply (IH _ _ X').
      * now rewrite map_fst_commitUpdate.
      * exact Hnodes.
      * intros g Hg. rewrite map_app. cbn [map target fst].
        rewrite elem_of_app, list_elem_of_singleton.
        intros [Hin|Heq]; [|now apply (Hother g)].
        apply (Hpre g); [now right|exact Hin].
      * pose proof (filter_ids_commitUpdate
                      (fun n => n ∉ map node (placed todo)) f nodes) as Hc.
        cbv beta in Hc. rewrite Hc, Hfil.
        unfold commitUpdate. rewrite map_app. cbn [map fst].
        rewrite decide_True by reflexivity.
        fold (commitUpdate f pre). fold (commitUpdate f X').
        rewrite !commitUpdate_absent.
        -- now rewrite <- app_assoc.
        -- rewrite HX'. intros Hin.
           apply list_elem_of_fmap in Hin as (g & Heq & Hg).
           unfold stable in Hg. apply list_elem_of_filter in Hg as [_ Hg].
           symmetry in Heq. now apply (Hother g).
        -- apply Hpre. now left.
      * exact HX'.
Qed.


(** *** The fibers the reconciliation builds *)

Implicit Types (V : list (nat * fiber)) (a x : nat * fiber).
Implicit Types (rows : list (@row host)) (L : list (@work_fiber host)).

Lemma Map_get_tag_split s V a :
  Map_get s (tag V) = Some a ->
  exists V1 V2,
    V = V1 ++ a :: V2 /\ slot_of a = s /\
    Map_delete s (tag V) = tag (V1 ++ V2).
Proof.
  induction V as [|x V IH]; [discriminate|].
  cbn [tag map Map_get Map_delete].
  destruct (decide (s = slot_of x)) as [->|Hne].
  - intros [= ->]. exists [], V. auto.
  - intros Hget. destruct (IH Hget) as (V1 & V2 & -> & Hs & Hdel).
    exists (x :: V1), V2. split; [reflexivity|]. split; [exact Hs|].
    fold (tag (V1 ++ a :: V2)). rewrite Hdel. reflexivity.
Qed.

Lemma Map_set_absent {K W} `{EqDecision K} (k : K) (v : W) m :
  k ∉ map fst m -> Map_set k v m = m ++ [(k, v)].
Proof.
  induction m as [|[k' v'] m IH]; [reflexivity|].
  cbn [map fst Map_set app]. rewrite not_elem_of_cons. intros [Hne Hnin].
  rewrite decide_False by exact Hne. now rewrite IH.
Qed.

Lemma mapRemainingChildren_tag V :
  NoDup (map slot_of V) -> mapRemainingChildren V = tag V.
Proof.
  unfold mapRemainingChildren.
  enough (forall W, NoDup (map slot_of (W ++ V)) ->
                    fold_left (fun m old => Map_set (slot_of old) old m)
                              V (tag W) = tag (W ++ V)) as Hgen
      by exact (Hgen []).
  induction V as [|x V IH]; intros W Hnd; cbn [fold_left].
  - now rewrite app_nil_r.
  - rewrite Map_set_absent.
    + replace (tag W ++ [(slot_of x, x)]) with (tag (W ++ [x]))
        by (unfold tag; now rewrite map_app).
      rewrite IH; rewrite <- app_assoc; [reflexivity|exact Hnd].
    + unfold tag. rewrite map_map. cbn [fst].
      rewrite map_app in Hnd. cbn [map] in Hnd.
      apply NoDup_app in Hnd as (_ & Hdis & _).
      intros Hin. apply (Hdis _ Hin). now left.
Qed.

Lemma from_weaken V V' n n' last W m last0 f :
  (forall x, x ∈ V -> x ∈ W) -> (m <= n) -> (last0 <= last) ->
  from V V' n n' last f -> from W V' m n' last0 f.
Proof.
  intros HV Hn Hl [(x & Hx & Hx' & Hnode & Hlast)|[Hrange Hflag]].
  - left. exists x. repeat split; auto. intros Hs. specialize (Hlast Hs). lia.
  - right. split; [lia|exact Hflag].
Qed.

Lemma map_loop_spec rows : forall V last n L existing' n',
  map_loop (tag V) rows last n = (L, (existing', n')) ->
  StronglySorted (fun x y => (x.1 < y.1)) V ->
  NoDup (map alt_node V) ->
  Forall (fun x => (alt_node x < n)) V ->
  exists V',
    existing' = tag V' /\
    (forall x, x ∈ V' -> x ∈ V) /\
    map work_key L = map (fun r => Some (key r)) rows /\
    map pendingProps L = map shows rows /\
    (n <= n') /\
    Forall (from V V' n n' last) L /\
    NoDup (map node L) /\
    map alt_node
        (filter (fun x => (alt_node x ∉ map node (placed L))
                          /\ alt_node x ∉ map alt_node V') V)
    = map node (stable L).
Proof.
  induction rows as [|r rows IH]; intros V last n L existing' n' Hloop
                                         Hsorted Hnd Hlt.
  - cbn in Hloop. injection Hloop as <- <- <-. exists V.
    split; [reflexivity|]. split; [auto|]. split; [reflexivity|].
    split; [reflexivity|]. split; [lia|]. split; [constructor|].
    split; [constructor|].
    rewrite filter_keeps_none; [reflexivity|].
    intros x Hx [_ Hnin]. apply Hnin. apply list_elem_of_fmap. eauto.
  - cbn [map_loop] in Hloop.
    destruct (Map_get (inl (key r)) (tag V)) as [a|] eqn:Hget.
    + apply Map_get_tag_split in Hget as (V1 & V2 & -> & Hslot & Hdel).
      rewrite Hdel in Hloop.
      destruct (useFiber a r last) as [u last'] eqn:Huse.
      destruct (map_loop (tag (V1 ++ V2)) rows last' n)
        as [L' [ex n'']] eqn:Hrec.
      injection Hloop as <- <- <-.
      apply StronglySorted_app in Hsorted as (Hcross & HS1 & HS2a).
      apply StronglySorted_cons in HS2a as [Ha2 HS2].
      rewrite map_app in Hnd. cbn [map] in Hnd.
      apply NoDup_app in Hnd as (Hnd1 & Hdis & Hnd2a).
      apply NoDup_cons in Hnd2a as [Ha_nd Hnd2].
      rewrite Forall_app, Forall_cons in Hlt. destruct Hlt as (Hlt1 & Hlta & Hlt2).
      assert (alt_node a ∉ map alt_node (V1 ++ V2)) as Ha_out.
      { rewrite map_app, elem_of_app. intros [Hin|Hin].
        - apply (Hdis _ Hin). now left.
        - contradiction. }
      destruct (IH (V1 ++ V2) last' n L' ex n'' Hrec)
        as (V' & -> & Hsub & Hkeys & Hprops & Hn & Hfrom & HndL & Hfil).
      { apply StronglySorted_app. split; [|split; assumption].
        intros x1 x2 H1 H2. apply Hcross; [exact H1|now right]. }
      { rewrite map_app. apply NoDup_app. split; [exact Hnd1|].
        split; [|exact Hnd2]. intros m Hm Hm'. apply (Hdis _ Hm). now right. }
      { rewrite Forall_app. auto. }
      assert (forall x, x ∈ V1 ++ V2 -> x ∈ V1 ++ a :: V2) as Hincl.
      { intros x. rewrite !elem_of_app, elem_of_cons. tauto. }
      assert (node u = alt_node a /\ work_key u = Some (key r) /\
              pendingProps u = shows r /\
              ((Placement u = true /\ last' = last /\ (a.1 < last)) \/
               (Placement u = false /\ last' = a.1 /\ (last <= a.1))))
        as (Hu_node & Hu_key & Hu_props & Hu_flag).
      { unfold useFiber, placeChild in Huse.
        destruct (Nat.ltb_spec a.1 last); injection Huse as <- <-;
          cbn; auto 10. }
      assert (forall f, f ∈ L' -> node f <> alt_node a) as HL'_a.
      { intros f Hf Heq. rewrite Forall_forall in Hfrom.
        destruct (Hfrom f Hf) as [(x & Hx & _ & Hnode & _)|[Hrange _]].
        - apply Ha_out. rewrite <- Heq, Hnode.
          apply list_elem_of_fmap. eauto.
        - lia. }
      assert (a ∉ V') as Ha_V'.
      { intros Hin. apply Ha_out. apply list_elem_of_fmap.
        exists a. split; [reflexivity|]. now apply Hsub. }
      exists V'. split; [reflexivity|].
      split; [intros x Hx; apply Hincl, Hsub, Hx|].
      split; [cbn [map]; now rewrite Hu_key, Hkeys|].
      split; [cbn [map]; now rewrite Hu_props, Hprops|].
      split; [exact Hn|].
      split.
      { constructor.
        - left. exists a. split; [rewrite elem_of_app, elem_of_cons; tauto|].
          split; [exact Ha_V'|]. split; [exact Hu_node|].
          intros Hs. destruct Hu_flag as [[Hp _]|[_ [_ Hle]]];
            [congruence|exact Hle].
        - eapply Forall_impl; [exact Hfrom|]. intros f.
          apply from_weaken; [exact Hincl|lia|].
          destruct Hu_flag as [(_ & -> & _)|(_ & -> & Hle)]; lia. }
      split.
      { cbn [map]. constructor; [|exact HndL].
        rewrite Hu_node. intros Hin.
        apply list_elem_of_fmap in Hin as (f & Heq & Hf).
        symmetry in Heq. now apply (HL'_a f). }
      assert (alt_node a ∉ map alt_node V') as Ha_gV'.
      { intros Hin. apply list_elem_of_fmap in Hin as (x & Heq & Hx).
        apply Ha_out. rewrite Heq. apply list_elem_of_fmap.
        exists x. split; [reflexivity|]. now apply Hsub. }
      assert (alt_node a ∉ map node (placed L')) as Ha_pl.
      { intros Hin. apply list_elem_of_fmap in Hin as (f & Heq & Hf).
        unfold placed in Hf. apply list_elem_of_filter in Hf as [_ Hf].
        symmetry in Heq. now apply (HL'_a f). }
      rewrite placed_cons, stable_cons.
      rewrite filter_app in Hfil. rewrite filter_app, filter_cons.
      destruct Hu_flag as [(Hflag & -> & Hidx)|(Hflag & -> & Hidx)];
        rewrite Hflag.
      * (* moved *)
        cbn [map]. rewrite <- Hfil.
        rewrite decide_False by (rewrite Hu_node, not_elem_of_cons; tauto).
        rewrite !map_app. f_equal; f_equal; apply filter_ext_in; intros x Hx.
        -- rewrite not_elem_of_cons, Hu_node.
           assert (alt_node x <> alt_node a); [|tauto].
           intros Heq. apply (Hdis (alt_node x)).
           ++ apply list_elem_of_fmap; eauto.
           ++ rewrite Heq. now left.
        -- rewrite not_elem_of_cons, Hu_node.
           assert (alt_node x <> alt_node a); [|tauto].
           intros Heq. apply Ha_nd. rewrite <- Heq.
           apply list_elem_of_fmap; eauto.
      * (* stable *)
        rewrite decide_True by tauto.
        assert (filter (fun x => (alt_node x ∉ map node (placed L'))
                                 /\ alt_node x ∉ map alt_node V') V1 = [])
          as HV1.
        { apply filter_keeps_none. intros x Hx HP.
          assert (alt_node x ∈ map node (stable L')) as Hst.
          { rewrite <- Hfil, map_app, elem_of_app. left.
            apply list_elem_of_fmap. exists x. split; [reflexivity|].
            apply list_elem_of_filter. auto. }
          apply list_elem_of_fmap in Hst as (f & Heq & Hf).
          unfold stable in Hf. apply list_elem_of_filter in Hf as [Hfs Hf].
          rewrite Forall_forall in Hfrom.
          destruct (Hfrom f Hf) as [(y & Hy & _ & Hnode & Hlast)|[_ Hp]];
            [|congruence].
          specialize (Hlast Hfs).
          assert (y = x) as ->.
          { assert (alt_node y = alt_node x) as Hg by congruence.
            assert (NoDup (map alt_node (V1 ++ V2))) as HndV.
            { rewrite map_app. apply NoDup_app. split; [exact Hnd1|].
              split; [|exact Hnd2].
              intros m Hm Hm'. apply (Hdis _ Hm). now right. }
            apply list_elem_of_lookup in Hy as [i Hi].
            assert (x ∈ V1 ++ V2) as Hx' by (rewrite elem_of_app; tauto).
            apply list_elem_of_lookup in Hx' as [j Hj].
            assert (i = j) as ->.
            { apply (NoDup_lookup _ i j (alt_node x) HndV).
              - now rewrite list_lookup_fmap, Hi, <- Hg.
              - now rewrite list_lookup_fmap, Hj. }
            congruence. }
          assert (x.1 < a.1); [|lia].
          apply Hcross; [exact Hx|now left]. }
        rewrite HV1 in Hfil |- *. cbn [app map] in Hfil |- *.
        now rewrite Hu_node, Hfil.
    + destruct (map_loop (tag V) rows last (S n)) as [L' [ex n'']] eqn:Hrec.
      injection Hloop as <- <- <-.
      destruct (IH V last (S n) L' ex n'' Hrec Hsorted Hnd)
        as (V' & -> & Hsub & Hkeys & Hprops & Hn & Hfrom & HndL & Hfil).
      { eapply Forall_impl; [exact Hlt|]. cbn. intros; lia. }
      exists V'. split; [reflexivity|]. split; [exact Hsub|].
      split; [cbn [map createFiber work_key]; now rewrite Hkeys|].
      split; [cbn [map createFiber pendingProps]; now rewrite Hprops|].
      split; [lia|].
      split.
      { constructor.
        - right. cbn. split; [lia|reflexivity].
        - eapply Forall_impl; [exact Hfrom|]. intros f.
          apply from_weaken; [auto|lia|lia]. }
      split.
      { cbn [map createFiber node]. constructor; [|exact HndL].
        intros Hin. apply list_elem_of_fmap in Hin as (f & Heq & Hf).
        rewrite Forall_forall in Hfrom. rewrite Forall_forall in Hlt.
        destruct (Hfrom f Hf) as [(x & Hx & _ & Hnode & _)|[Hrange _]].
        - specialize (Hlt x Hx). cbn in Hlt. lia.
        - lia. }
      rewrite placed_cons, stable_cons. cbn [createFiber Placement map node].
      rewrite <- Hfil. f_equal. apply filter_ext_in. intros x Hx.
      rewrite not_elem_of_cons.
      rewrite Forall_forall in Hlt. specialize (Hlt x Hx). cbn in Hlt.
      assert (alt_node x <> n) by lia. tauto.
Qed.

Lemma create_rest_map_loop rows : forall last n,
  map_loop [] rows last n
  = ((create_rest rows n).1, ([], (create_rest rows n).2)).
Proof.
  induction rows as [|r rows IH]; intros last n; [reflexivity|].
  cbn [map_loop create_rest Map_get]. rewrite (IH last (S n)).
  now destruct (create_rest rows (S n)).
Qed.

Lemma first_loop_spec old : forall rows last L old' rows' last',
  first_loop old rows last = (L, (old', rows', last')) ->
  StronglySorted (fun x y => (x.1 < y.1)) old ->
  Forall (fun x => (last <= x.1)) old ->
  exists pre rpre,
    old = pre ++ old' /\ rows = rpre ++ rows' /\
    map work_key L = map (fun r => Some (key r)) rpre /\
    map pendingProps L = map shows rpre /\
    map node L = map alt_node pre /\
    placed L = [] /\ stable L = L /\
    Forall (fun x => (last' <= x.1)) old'.
Proof.
  induction old as [|x old IH]; intros rows last L old' rows' last' Hloop
                                       Hsorted Hlast.
  - cbn in Hloop. injection Hloop as <- <- <- <-. exists [], [].
    repeat split; auto.
  - destruct rows as [|r rows].
    { cbn in Hloop. injection Hloop as <- <- <- <-. exists [], [].
      repeat split; auto. }
    cbn [first_loop] in Hloop.
    destruct (decide (fiber_key x.2 = Some (key r))) as [Hkey|Hkey].
    + apply StronglySorted_cons in Hsorted as [Hx Hsorted].
      apply Forall_cons in Hlast as [Hxl Hlast].
      unfold useFiber, placeChild in Hloop.
      destruct (Nat.ltb_spec x.1 last) as [|_]; [lia|].
      destruct (first_loop old rows x.1) as [L0 rest] eqn:Hrec.
      injection Hloop as <- ->.
      destruct (IH rows x.1 L0 old' rows' last' Hrec Hsorted)
        as (pre & rpre & -> & -> & Hk & Hp & Hn & Hpl & Hst & Hl).
      { eapply Forall_impl; [exact Hx|]. cbn. intros; lia. }
      exists (x :: pre), (r :: rpre). split; [reflexivity|].
      split; [reflexivity|]. cbn [map work_key pendingProps node].
      rewrite Hk, Hp, Hn, placed_cons, stable_cons, Hpl, Hst.
      repeat split; auto.
    + injection Hloop as <- <- <- <-. exists [], [].
      repeat split; auto.
Qed.

Lemma indexed_from {A} (l : list A) : forall k,
  StronglySorted (fun x y : nat * A => (x.1 < y.1))
                 (imap (fun i z => ((k + i), z)) l) /\
  Forall (fun x : nat * A => (k <= x.1))
         (imap (fun i z => ((k + i), z)) l).
Proof.
  induction l as [|y l IH]; intros k; [split; constructor|].
  rewrite imap_cons.
  assert (imap ((fun i z => ((k + i), z)) ∘ S) l
          = imap (fun i z => ((S k + i), z)) l) as ->
      by (apply imap_ext; intros; cbn; f_equal; lia).
  destruct (IH (S k)) as [Hs Hf]. split.
  - constructor; [exact Hs|].
    eapply Forall_impl; [exact Hf|]. cbn. intros; lia.
  - constructor; [cbn; lia|].
    eapply Forall_impl; [exact Hf|]. cbn. intros; lia.
Qed.

Lemma indexed_sorted (fibers : list fiber) :
  StronglySorted (fun x y => (x.1 < y.1)) (indexed fibers).
Proof. exact (proj1 (indexed_from fibers 0)). Qed.

Lemma map_snd_indexed (fibers : list fiber) :
  map snd (indexed fibers) = fibers.
Proof.
  unfold indexed. apply list_eq. intros i.
  change (map snd ?l) with (snd <$> l).
  rewrite list_lookup_fmap, list_lookup_imap.
  now destruct (fibers !! i).
Qed.

Lemma map_alt_node V : map alt_node V = map stateNode (map snd V).
Proof. now rewrite map_map. Qed.

Lemma NoDup_map_finer {A B C} (f : A -> B) (h : A -> C) (l : list A) :
  (forall z1 z2, f z1 = f z2 -> h z1 = h z2) ->
  NoDup (map h l) -> NoDup (map f l).
Proof.
  intros Hfh. induction l as [|z l IH]; cbn [map]; [constructor|].
  rewrite !NoDup_cons. intros [Hz Hnd]. split; [|auto].
  intros Hin. apply Hz. apply list_elem_of_fmap in Hin as (z' & Heq & Hz').
  apply list_elem_of_fmap. exists z'. split; [now apply Hfh|exact Hz'].
Qed.

Lemma slot_of_key a x : slot_of a = slot_of x -> fiber_key a.2 = fiber_key x.2.
Proof.
  unfold slot_of.
  destruct (fiber_key a.2), (fiber_key x.2); congruence.
Qed.

Lemma foldr_removeChild nodes (deleted : list nat) :
  foldr removeChild nodes deleted
  = filter (fun e => e.1 ∉ deleted) nodes.
Proof.
  induction deleted as [|n deleted IH]; cbn [foldr].
  - symmetry. apply filter_keeps_all. intros e _. apply not_elem_of_nil.
  - rewrite IH. unfold removeChild. rewrite filter_filter_and.
    apply filter_ext_in. intros e _. rewrite not_elem_of_cons. tauto.
Qed.

Lemma filter_map {A B} (f : A -> B) (Q : B -> Prop)
      `{forall y, Decision (Q y)} (l : list A) :
  filter Q (map f l) = map f (filter (fun z => Q (f z)) l).
Proof.
  induction l as [|z l IH]; [reflexivity|].
  cbn [map]. rewrite !filter_cons.
  destruct (decide (Q (f z))); cbn [map]; now rewrite IH.
Qed.

(** What the reconciliation of an array leaves to the commit, on a
    container without stale nodes whose fibers have distinct keys. *)
Lemma reconcileChildrenArray_spec (c : @container host) rows :
  clean c -> NoDup (map fiber_key (current c)) ->
  let w := reconcileChildrenArray c rows in
  map work_key (child w) = map (fun r => Some (key r)) rows /\
  map pendingProps (child w) = map shows rows /\
  NoDup (map node (child w)) /\
  Forall (fun f => (node f < next w)) (child w) /\
  NoDup (map fst (foldr removeChild (dom c) (deletions w))) /\
  map fst (filter (fun e => e.1 ∉ map node (placed (child w)))
                  (foldr removeChild (dom c) (deletions w)))
  = map node (stable (child w)).
Proof.
  intros (Hdom & Hnodes & Hfresh) Hkeys.
  set (old := indexed (current c)).
  assert (map alt_node old = map stateNode (current c)) as Hold
      by (unfold old; now rewrite map_alt_node, map_snd_indexed).
  assert (NoDup (map slot_of old)) as Hslots.
  { apply (NoDup_map_finer _ (fun x => fiber_key x.2)); [apply slot_of_key|].
    unfold old. rewrite <- (map_map snd fiber_key), map_snd_indexed.
    exact Hkeys. }
  assert (Forall (fun x => (alt_node x < fresh c)) old) as Hbound.
  { apply Forall_forall. intros x Hx. rewrite Forall_forall in Hfresh.
    apply Hfresh. rewrite <- (map_snd_indexed (current c)).
    apply list_elem_of_fmap. exists x. split; [reflexivity|exact Hx]. }
  rewrite <- Hold in Hdom, Hnodes.
  pose proof (indexed_sorted (current c)) as Hsorted. fold old in Hsorted.
  unfold reconcileChildrenArray. fold old.
  destruct (first_loop old rows 0) as [Lpre [[V rest] last]] eqn:Hfirst.
  destruct (first_loop_spec old rows 0 Lpre V rest last Hfirst Hsorted)
    as (pre & rpre & Hsplit & -> & Hk & Hp & Hn & Hpl & Hst & Hlast).
  { apply Forall_forall. intros; lia. }
  rewrite Hsplit in Hsorted, Hnodes, Hslots, Hbound, Hdom.
  apply StronglySorted_app in Hsorted as (Hcross & _ & HsV).
  rewrite map_app in Hnodes, Hslots.
  apply NoDup_app in Hnodes as (Hnd_pre & Hdis & Hnd_V).
  apply NoDup_app in Hslots as (_ & _ & Hslots_V).
  apply Forall_app in Hbound as [Hb_pre Hb_V].
  (* the three ways out of the first loop leave the same facts *)
  assert (exists L2 V' n',
             (let w :=
                match rest, V with
                | [], _ =>
                    {| child := Lpre;
                       deletions := map (fun old => stateNode old.2) V;
                       next := fresh c |}
                | _, [] =>
                    let '(created, n) := create_rest rest (fresh c) in
                    {| child := Lpre ++ created; deletions := [];
                       next := n |}
                | _, _ =>
                    let '(placed, (existingChildren, n)) :=
                      map_loop (mapRemainingChildren V) rest last
                               (fresh c) in
                    {| child := Lpre ++ placed;
                       deletions := map (fun old => stateNode old.2)
                                        (Map_values existingChildren);
                       next := n |}
                end in
              child w = Lpre ++ L2 /\ deletions w = map alt_node V' /\
              next w = n') /\
             (forall x, x ∈ V' -> x ∈ V) /\
             map work_key L2 = map (fun r => Some (key r)) rest /\
             map pendingProps L2 = map shows rest /\
             (fresh c <= n') /\
             Forall (from V V' (fresh c) n' last) L2 /\
             NoDup (map node L2) /\
             map alt_node
                 (filter (fun x => (alt_node x ∉ map node (placed L2))
                                   /\ alt_node x ∉ map alt_node V') V)
             = map node (stable L2))
    as (L2 & V' & n' & Hw & Hsub & Hk2 & Hp2 & Hn' & Hfrom & HndL2 & Hfil).
  { destruct rest as [|r rest].
    - exists [], V, (fresh c). split; [now rewrite app_nil_r|].
      split; [auto|]. split; [reflexivity|]. split; [reflexivity|].
      split; [lia|]. split; [constructor|]. split; [constructor|].
      rewrite filter_keeps_none; [reflexivity|].
      intros x Hx [_ Hnin]. apply Hnin. apply list_elem_of_fmap. eauto.
    - destruct V as [|v V].
      + pose proof (create_rest_map_loop (r :: rest) last (fresh c)) as Hcr.
        destruct (create_rest (r :: rest) (fresh c)) as [created n] eqn:Hc.
        cbn [fst snd] in Hcr.
        destruct (map_loop_spec (r :: rest) [] last (fresh c) created
                                (tag []) n Hcr)
          as (V' & HV' & Hsub & Hrest); [constructor..|].
        destruct V' as [|? ?]; [|discriminate].
        exists created, [], n. split; [auto|]. split; [auto|]. exact Hrest.
      + rewrite (mapRemainingChildren_tag (v :: V)) by exact Hslots_V.
        destruct (map_loop (tag (v :: V)) (r :: rest) last (fresh c))
          as [L2 [ex n]] eqn:Hml.
        destruct (map_loop_spec (r :: rest) (v :: V) last (fresh c) L2 ex n
                                Hml HsV Hnd_V Hb_V)
          as (V' & -> & Hsub & Hrest).
        exists L2, V', n. split; [|split; [exact Hsub|exact Hrest]].
        cbn. split; [reflexivity|]. split; [|reflexivity].
        unfold Map_values, tag. now rewrite !map_map. }
  match goal with
  | Hw : (let w := ?W in _) |- _ => set (w := W) in *
  end.
  cbv zeta in Hw. destruct Hw as (Hchild & Hdel & Hnext).
  rewrite Hchild, Hdel, Hnext.
  assert (forall f, f ∈ L2 ->
                    node f ∈ map alt_node V \/ (fresh c <= node f))
    as Hwhere.
  { intros f Hf. rewrite Forall_forall in Hfrom.
    destruct (Hfrom f Hf) as [(x & Hx & _ & -> & _)|[Hrange _]].
    - left. apply list_elem_of_fmap. eauto.
    - right. lia. }
  assert (forall x, x ∈ pre -> alt_node x ∉ map node L2) as Hpre_L2.
  { intros x Hx Hin. apply list_elem_of_fmap in Hin as (f & Heq & Hf).
    destruct (Hwhere f Hf) as [HinV|Hge].
    - apply (Hdis (alt_node x)); [apply list_elem_of_fmap; eauto|].
      now rewrite Heq.
    - rewrite Forall_forall in Hb_pre. specialize (Hb_pre x Hx).
      cbn in Hb_pre. lia. }
  split; [rewrite !map_app; now rewrite Hk, Hk2|].
  split; [rewrite !map_app; now rewrite Hp, Hp2|].
  split.
  { rewrite map_app, Hn. apply NoDup_app. split; [exact Hnd_pre|].
    split; [|exact HndL2].
    intros m Hm. apply list_elem_of_fmap in Hm as (x & -> & Hx).
    now apply Hpre_L2. }
  split.
  { rewrite Forall_app. split.
    - apply Forall_forall. intros f Hf.
      assert (node f ∈ map alt_node pre) as Hin
          by (rewrite <- Hn; apply list_elem_of_fmap; eauto).
      apply list_elem_of_fmap in Hin as (x & -> & Hx).
      rewrite Forall_forall in Hb_pre. specialize (Hb_pre x Hx).
      cbn in Hb_pre. lia.
    - apply Forall_forall. intros f Hf. rewrite Forall_forall in Hfrom.
      destruct (Hfrom f Hf) as [(x & Hx & _ & -> & _)|[Hrange _]]; [|lia].
      rewrite Forall_forall in Hb_V. specialize (Hb_V x Hx).
      cbn in Hb_V. lia. }
  rewrite foldr_removeChild.
  split.
  { pose proof (map_fst_filter_ids (fun n => n ∉ map alt_node V') (dom c))
      as Hids.
    cbv beta in Hids. rewrite Hids.
    apply NoDup_filter. rewrite Hdom, map_app.
    apply NoDup_app. auto. }
  rewrite filter_filter_and.
  pose proof (map_fst_filter_ids
                (fun n => (n ∉ map node (placed (Lpre ++ L2)))
                          /\ n ∉ map alt_node V') (dom c)) as Hids.
  cbv beta in Hids. rewrite Hids. clear Hids.
  rewrite Hdom, filter_map, filter_app, map_app.
  assert (placed (Lpre ++ L2) = placed L2) as ->
      by (unfold placed; rewrite filter_app; fold (placed Lpre);
          now rewrite Hpl).
  assert (stable (Lpre ++ L2) = Lpre ++ stable L2) as ->
      by (unfold stable; rewrite filter_app; fold (stable Lpre);
          now rewrite Hst).
  rewrite Hfil, (map_app node), Hn. f_equal. f_equal.
  apply filter_keeps_all. intros x Hx. split.
  - intros Hin. apply (Hpre_L2 x Hx).
    apply list_elem_of_fmap in Hin as (f & Heq & Hf).
    unfold placed in Hf. apply list_elem_of_filter in Hf as [_ Hf].
    apply list_elem_of_fmap. eauto.
  - intros Hin. apply list_elem_of_fmap in Hin as (y & Heq & Hy).
    apply (Hdis (alt_node x)); [apply list_elem_of_fmap; eauto|].
    rewrite Heq. apply list_elem_of_fmap. exists y.
    split; [reflexivity|]. now apply Hsub.
Qed.

Lemma single_loop_spec (fibers : list fiber) :
  match single_loop fibers with
  | (Some f, deleted) =>
      exists A B, fibers = A ++ f :: B /\
                  deleted = map stateNode A ++ map stateNode B
  | (None, deleted) => deleted = map stateNode fibers
  end.
Proof.
  induction fibers as [|f fibers IH]; [reflexivity|].
  cbn [single_loop]. destruct (fiber_key f).
  - destruct (single_loop fibers) as [[found|] deleted].
    + destruct IH as (A & B & -> & ->). exists (f :: A), B. auto.
    + now rewrite IH.
  - exists [], fibers. auto.
Qed.

Lemma commit_clean (c : @container host) (w : @work host) :
  NoDup (map node (child w)) ->
  Forall (fun f => (node f < next w)) (child w) ->
  NoDup (map fst (foldr removeChild (dom c) (deletions w))) ->
  map fst (filter (fun e => e.1 ∉ map node (placed (child w)))
                  (foldr removeChild (dom c) (deletions w)))
  = map node (stable (child w)) ->
  clean (commit w c) /\
  shown (commit w c) = map pendingProps (child w) /\
  map fiber_key (current (commit w c)) = map work_key (child w).
Proof.
  intros Hnodes Hnext Hnd Hfil.
  assert (dom (commit w c) = map target (child w)) as Hdom.
  { cbn [commit dom].
    apply (commitChildren_spec
             _ _ []
             (filter (fun e => e.1 ∉ map node (placed (child w)))
                     (foldr removeChild (dom c) (deletions w)))
             Hnd Hnodes);
      [intros f _; apply not_elem_of_nil|reflexivity|exact Hfil]. }
  unfold clean, shown. rewrite Hdom. cbn [commit current fresh].
  rewrite !map_map. cbn [target fst snd fiber_key stateNode].
  repeat split; auto.
  apply Forall_forall. intros f Hf.
  apply list_elem_of_fmap in Hf as (x & -> & Hx).
  rewrite Forall_forall in Hnext. now apply Hnext.
Qed.

(** On a container without stale nodes whose fibers have distinct keys,
    a render leaves the new children on screen, in their order, and
    nothing else. *)
Lemma render_clean (newChild : @children host) (c : @container host) :
  clean c -> NoDup (map fiber_key (current c)) ->
  clean (render newChild c) /\
  shown (render newChild c) = hosts newChild /\
  map fiber_key (current (render newChild c)) = keys newChild.
Proof.
  intros Hclean Hkeys. unfold render.
  destruct newChild as [rows|element]; cbn [reconcileChildFibers].
  - destruct (reconcileChildrenArray_spec c rows Hclean Hkeys)
      as (Hk & Hp & Hnd & Hnext & Hnd1 & Hfil).
    destruct (commit_clean c _ Hnd Hnext Hnd1 Hfil) as (Hc & Hs & Hf).
    cbn [hosts keys]. now rewrite Hs, Hf, Hp, Hk.
  - destruct Hclean as (Hdom & Hnodes & Hfresh).
    pose proof (single_loop_spec (current c)) as Hloop.
    unfold reconcileSingleElement.
    destruct (single_loop (current c)) as [[f|] deleted].
    + destruct Hloop as (A & B & Hcur & ->).
      rewrite Hcur in Hdom, Hnodes, Hfresh.
      rewrite map_app in Hdom, Hnodes. cbn [map] in Hdom, Hnodes.
      rewrite Forall_app, Forall_cons in Hfresh.
      destruct Hfresh as (_ & Hf & _).
      assert (map fst (foldr removeChild (dom c)
                             (map stateNode A ++ map stateNode B))
              = [stateNode f]) as Hids.
      { rewrite foldr_removeChild.
        pose proof (map_fst_filter_ids
                      (fun n => n ∉ map stateNode A ++ map stateNode B)
                      (dom c)) as H0.
        cbv beta in H0. rewrite H0, Hdom. clear H0.
        apply NoDup_app in Hnodes as (_ & Hdis & HfB).
        apply NoDup_cons in HfB as [HfB _].
        rewrite filter_app, filter_cons.
        rewrite decide_True.
        2:{ rewrite elem_of_app. intros [Hin|Hin]; [|contradiction].
            apply (Hdis _ Hin). now left. }
        rewrite !filter_keeps_none; [reflexivity| |];
          intros n Hn Hnin; apply Hnin; rewrite elem_of_app; auto. }
      match goal with
      | |- context [commit ?W c] =>
          destruct (commit_clean c W) as (Hc & Hs & Hk)
      end; cbn [child deletions next map node placed stable].
      * apply NoDup_singleton.
      * constructor; [exact Hf|constructor].
      * rewrite Hids. apply NoDup_singleton.
      * unfold placed, stable. rewrite !filter_cons. cbn [Placement].
        rewrite decide_False by discriminate.
        rewrite decide_True by reflexivity. cbn [map node filter].
        rewrite filter_keeps_all; [exact Hids|].
        intros e _. apply not_elem_of_nil.
      * cbn [hosts keys]. now rewrite Hs, Hk.
    + rewrite Hloop.
      assert (foldr removeChild (dom c) (map stateNode (current c)) = [])
        as Hnone.
      { rewrite foldr_removeChild. apply filter_keeps_none.
        intros e He Hnin. apply Hnin. rewrite <- Hdom.
        apply list_elem_of_fmap. eauto. }
      match goal with
      | |- context [commit ?W c] =>
          destruct (commit_clean c W) as (Hc & Hs & Hk)
      end; cbn [child deletions next map node placed stable].
      * apply NoDup_singleton.
      * constructor; [cbn; lia|constructor].
      * rewrite Hnone. constructor.
      * now rewrite Hnone.
      * cbn [hosts keys]. now rewrite Hs, Hk.
Qed.

Lemma clean_empty : clean (@empty host).
Proof. repeat split; constructor. Qed.

(** *** The reference node of an insertion is there *)

Lemma map_fst_insertBefore e b nodes :
  forall n, n ∈ map fst (insertBefore e b nodes) <->
            n = e.1 \/ n ∈ map fst nodes.
Proof.
  induction nodes as [|y nodes IH]; intros n; cbn [insertBefore map].
  - rewrite list_elem_of_singleton, elem_of_nil. tauto.
  - destruct (decide (y.1 = b)); cbn [map].
    + rewrite !elem_of_cons. tauto.
    + rewrite !elem_of_cons, IH. tauto.
Qed.

Lemma map_fst_commitPlacement f siblings nodes :
  forall n, n ∈ map fst (commitPlacement f siblings nodes) <->
            n = node f \/ n ∈ map fst nodes.
Proof.
  intros n. unfold commitPlacement.
  assert (n ∈ map fst (removeChild (node f) nodes)
          <-> n <> node f /\ n ∈ map fst nodes) as Hrem
      by (rewrite map_fst_removeChild, list_elem_of_filter; tauto).
  destruct (getHostSibling siblings) as [b|].
  - rewrite map_fst_insertBefore, Hrem. cbn [fst].
    destruct (decide (n = node f)); tauto.
  - rewrite map_app, elem_of_app, Hrem. cbn [map fst].
    rewrite list_elem_of_singleton.
    destruct (decide (n = node f)); tauto.
Qed.

Lemma commitChildren_references todo : forall nodes,
  NoDup (map node todo) ->
  (forall f, f ∈ stable todo -> node f ∈ map fst nodes) ->
  references_present todo nodes /\
  (forall f, f ∈ todo -> node f ∈ map fst (commitChildren todo nodes)) /\
  (forall n, n ∈ map fst nodes ->
             n ∈ map fst (commitChildren todo nodes)).
Proof.
  induction todo as [|f todo IH]; intros nodes Hnd Hst.
  - cbn. split; [exact I|]. split; [|auto].
    intros f Hf. now apply elem_of_nil in Hf.
  - cbn [map] in Hnd. apply NoDup_cons in Hnd as [Hf Hnd].
    rewrite stable_cons in Hst.
    assert (forall g, g ∈ stable todo -> node g <> node f) as Hother.
    { intros g Hg Heq. apply Hf. rewrite <- Heq.
      unfold stable in Hg. apply list_elem_of_filter in Hg as [_ Hg].
      apply list_elem_of_fmap. eauto. }
    cbn [references_present commitChildren].
    destruct (Placement f) eqn:Hflag.
    + destruct (IH (commitPlacement f todo nodes) Hnd)
        as (Hrefs & Hall & Hkeep).
      { intros g Hg. apply map_fst_commitPlacement. right. now apply Hst. }
      split; [split; [|exact Hrefs]|split].
      * intros _ b Hb.
        apply getHostSibling_Some in Hb as (s0 & more & Hs & <-).
        assert (s0 ∈ stable todo) as Hin by (rewrite Hs; now left).
        rewrite map_fst_removeChild, list_elem_of_filter.
        split; [now apply Hother|now apply Hst].
      * intros g. rewrite elem_of_cons. intros [->|Hg]; [|now apply Hall].
        apply Hkeep, map_fst_commitPlacement. now left.
      * intros n Hn. apply Hkeep, map_fst_commitPlacement. now right.
    + destruct (IH (commitUpdate f nodes) Hnd) as (Hrefs & Hall & Hkeep).
      { intros g Hg. rewrite map_fst_commitUpdate. apply Hst. now right. }
      split; [split; [discriminate|exact Hrefs]|split].
      * intros g. rewrite elem_of_cons. intros [->|Hg]; [|now apply Hall].
        apply Hkeep. rewrite map_fst_commitUpdate. apply Hst. now left.
      * intros n Hn. apply Hkeep. now rewrite map_fst_commitUpdate.
Qed.

Lemma Map_set_keys {K W} `{EqDecision K} (k : K) (v : W) m :
  NoDup (map fst m) ->
  NoDup (map fst (Map_set k v m)) /\
  (forall z, z ∈ Map_set k v m -> z = (k, v) \/ z ∈ m).
Proof.
  induction m as [|[k' v'] m IH]; cbn [Map_set map fst].
  - intros _. split; [apply NoDup_singleton|].
    intros z. rewrite list_elem_of_singleton. auto.
  - rewrite NoDup_cons. intros [Hk Hnd].
    destruct (decide (k = k')) as [->|Hne]; cbn [map fst].
    + split; [now constructor|]. intros z. rewrite !elem_of_cons. tauto.
    + destruct (IH Hnd) as [Hnd' Hin]. split.
      * constructor; [|exact Hnd']. intros Hin'.
        apply list_elem_of_fmap in Hin' as (z & Hz & Hin').
        destruct (Hin z Hin') as [->|Hz']; [cbn in Hz; congruence|].
        apply Hk. rewrite Hz. apply list_elem_of_fmap. eauto.
      * intros z. rewrite !elem_of_cons. intros [->|Hz]; [tauto|].
        destruct (Hin z Hz); tauto.
Qed.

Lemma mapRemainingChildren_keys V :
  NoDup (map fst (mapRemainingChildren V)) /\
  (forall z, z ∈ mapRemainingChildren V -> z.2 ∈ V /\ z.1 = slot_of z.2).
Proof.
  unfold mapRemainingChildren.
  enough (forall m : list ((string + nat) * (nat * fiber)),
             NoDup (map fst m) ->
             NoDup (map fst (fold_left
                               (fun m old => Map_set (slot_of old) old m)
                               V m)) /\
             (forall z, z ∈ fold_left
                            (fun m old => Map_set (slot_of old) old m) V m ->
                        (z.2 ∈ V /\ z.1 = slot_of z.2) \/ z ∈ m)) as Hgen.
  { destruct (Hgen [] (NoDup_nil_2)) as [Hnd Hin]. split; [exact Hnd|].
    intros z Hz. destruct (Hin z Hz) as [|Hnil]; [assumption|].
    now apply elem_of_nil in Hnil. }
  induction V as [|x V IH]; intros m Hm; cbn [fold_left].
  - split; [exact Hm|]. auto.
  - destruct (Map_set_keys (slot_of x) x m Hm) as [Hnd Hin].
    destruct (IH _ Hnd) as [Hnd' Hin']. split; [exact Hnd'|].
    intros z Hz. rewrite elem_of_cons.
    destruct (Hin' z Hz) as [|Hz']; [tauto|].
    destruct (Hin z Hz') as [->|]; [cbn; tauto|tauto].
Qed.

Lemma NoDup_map_finer_in {A B C} (f : A -> B) (h : A -> C) (l : list A) :
  (forall z1 z2, z1 ∈ l -> z2 ∈ l -> f z1 = f z2 -> h z1 = h z2) ->
  NoDup (map h l) -> NoDup (map f l).
Proof.
  induction l as [|z l IH]; intros Hfh; cbn [map]; [constructor|].
  rewrite !NoDup_cons. intros [Hz Hnd]. split.
  - intros Hin. apply Hz. apply list_elem_of_fmap in Hin as (z' & Heq & Hz').
    apply list_elem_of_fmap. exists z'. split; [|exact Hz'].
    apply Hfh; [now left|now right|exact Heq].
  - apply IH; [|exact Hnd]. intros z1 z2 H1 H2. apply Hfh; now right.
Qed.

Lemma Map_get_delete {K W} `{EqDecision K} (k : K) (m : list (K * W)) v :
  NoDup (map fst m) -> Map_get k m = Some v ->
  (k, v) ∈ m /\
  (forall z, z ∈ Map_delete k m <-> z ∈ m /\ z <> (k, v)).
Proof.
  induction m as [|[k' v'] m IH]; [discriminate|].
  cbn [map fst Map_get Map_delete]. rewrite NoDup_cons. intros [Hk Hnd].
  destruct (decide (k = k')) as [->|Hne].
  - intros [= ->]. split; [now left|]. intros z. rewrite elem_of_cons.
    split.
    + intros Hz. split; [tauto|]. intros ->. apply Hk.
      apply list_elem_of_fmap. exists (k', v). auto.
    + intros [[->|Hz] Hne]; [contradiction|exact Hz].
  - intros Hget. destruct (IH Hnd Hget) as [Hin Hdel].
    split; [now right|]. intros z. rewrite !elem_of_cons, Hdel.
    split; [|tauto]. intros [->|[Hz Hne']]; [|tauto].
    split; [tauto|]. congruence.
Qed.

Lemma Map_delete_keys {K W} `{EqDecision K} (k : K) (m : list (K * W)) :
  NoDup (map fst m) -> NoDup (map fst (Map_delete k m)).
Proof.
  induction m as [|[k' v'] m IH]; [auto|].
  cbn [map fst Map_delete]. rewrite NoDup_cons. intros [Hk Hnd].
  destruct (decide (k = k')); [exact Hnd|]. cbn [map fst].
  constructor; [|auto]. intros Hin. apply Hk.
  apply list_elem_of_fmap in Hin as (z & -> & Hz).
  apply list_elem_of_fmap. exists z. split; [reflexivity|].
  clear -Hz. induction m as [|[k0 v0] m IH]; [easy|].
  cbn [Map_delete] in Hz. destruct (decide (k = k0)).
  - now right.
  - apply elem_of_cons in Hz as [->|Hz]; [now left|right; auto].
Qed.

(** Where the fibers of the last loop come from, whatever the keys. *)
Lemma map_loop_nodes rows : forall existing last n L existing' n',
  map_loop existing rows last n = (L, (existing', n')) ->
  NoDup (map fst existing) ->
  NoDup (map (fun z => alt_node z.2) existing) ->
  Forall (fun z => alt_node z.2 < n) existing ->
  n <= n' /\
  (forall z, z ∈ existing' -> z ∈ existing) /\
  Forall (fun f =>
            (exists z, z ∈ existing /\ (z ∉ existing') /\
                       node f = alt_node z.2)
            \/ (n <= node f < n' /\ Placement f = true)) L /\
  NoDup (map node L).
Proof.
  induction rows as [|r rows IH]; intros existing last n L existing' n' Hloop
                                         Hkeys Hnd Hlt.
  - cbn in Hloop. injection Hloop as <- <- <-.
    split; [lia|]. split; [auto|]. split; constructor.
  - cbn [map_loop] in Hloop.
    destruct (Map_get (inl (key r)) existing) as [a|] eqn:Hget.
    + destruct (Map_get_delete _ _ _ Hkeys Hget) as [Hin Hdel].
      destruct (useFiber a r last) as [u last'] eqn:Huse.
      destruct (map_loop (Map_delete (inl (key r)) existing) rows last' n)
        as [L' [ex n'']] eqn:Hrec.
      injection Hloop as <- <- <-.
      assert (node u = alt_node a) as Hu
          by (unfold useFiber in Huse;
              destruct (placeChild (Some a.1) last);
              now injection Huse as <- _).
      assert (forall z, z ∈ Map_delete (inl (key r)) existing ->
                        alt_node z.2 <> alt_node a) as Hother.
      { intros z Hz Heq. apply Hdel in Hz as [Hz Hne]. apply Hne.
        apply list_elem_of_lookup in Hz as [i Hi].
        apply list_elem_of_lookup in Hin as [j Hj].
        assert (i = j) as ->.
        { apply (NoDup_lookup _ i j (alt_node a) Hnd).
          - now rewrite list_lookup_fmap, Hi, <- Heq.
          - now rewrite list_lookup_fmap, Hj. }
        congruence. }
      destruct (IH _ _ _ _ _ _ Hrec) as (Hn & Hsub & Hfrom & HndL).
      { now apply Map_delete_keys. }
      { clear -Hnd. induction existing as [|[k0 v0] m IHm]; [constructor|].
        cbn [map Map_delete] in *. apply NoDup_cons in Hnd as [Hx Hnd].
        destruct (decide (inl (key r) = k0)); [exact Hnd|].
        cbn [map]. constructor; [|auto]. intros Hin. apply Hx.
        apply list_elem_of_fmap in Hin as (z & -> & Hz).
        apply list_elem_of_fmap. exists z. split; [reflexivity|].
        clear -Hz. induction m as [|[k1 v1] m IH]; [easy|].
        cbn [Map_delete] in Hz. destruct (decide (inl (key r) = k1)).
        - now right.
        - apply elem_of_cons in Hz as [->|Hz]; [now left|right; auto]. }
      { apply Forall_forall. intros z Hz. rewrite Forall_forall in Hlt.
        apply Hlt. now apply Hdel in Hz. }
      split; [exact Hn|].
      split; [intros z Hz; now apply Hdel, Hsub|].
      split.
      { constructor.
        - left. exists (inl (key r), a). split; [exact Hin|].
          split; [|exact Hu]. intros Hz.
          apply Hsub, Hdel in Hz as [_ Hne]. now apply Hne.
        - eapply Forall_impl; [exact Hfrom|]. cbn beta.
          intros f [(z & Hz & Hz' & Hnode)|Hnew]; [left|now right].
          exists z. split; [now apply Hdel in Hz|auto]. }
      cbn [map]. constructor; [|exact HndL]. rewrite Hu. intros Hin'.
      apply list_elem_of_fmap in Hin' as (f & Heq & Hf).
      rewrite Forall_forall in Hfrom.
      destruct (Hfrom f Hf) as [(z & Hz & _ & Hnode)|[Hrange _]].
      * apply (Hother z Hz). congruence.
      * rewrite Forall_forall in Hlt. specialize (Hlt _ Hin).
        cbn in Hlt. lia.
    + destruct (map_loop existing rows last (S n)) as [L' [ex n'']] eqn:Hrec.
      injection Hloop as <- <- <-.
      destruct (IH _ _ _ _ _ _ Hrec Hkeys Hnd) as (Hn & Hsub & Hfrom & HndL).
      { eapply Forall_impl; [exact Hlt|]. cbn. intros; lia. }
      split; [lia|]. split; [exact Hsub|]. split.
      { constructor.
        - right. cbn. split; [lia|reflexivity].
        - eapply Forall_impl; [exact Hfrom|]. cbn beta.
          intros f [?|[Hrange Hflag]]; [now left|right].
          split; [lia|exact Hflag]. }
      cbn [map createFiber node]. constructor; [|exact HndL].
      intros Hin. apply list_elem_of_fmap in Hin as (f & Heq & Hf).
      rewrite Forall_forall in Hfrom.
      destruct (Hfrom f Hf) as [(z & Hz & _ & Hnode)|[Hrange _]]; [|lia].
      rewrite Forall_forall in Hlt. specialize (Hlt z Hz). cbn in Hlt. lia.
Qed.

Lemma reconcileChildFibers_nodes (c : @container host) newChild :
  tracked c ->
  let w := reconcileChildFibers c newChild in
  NoDup (map node (child w)) /\
  Forall (fun f => node f < next w) (child w) /\
  (forall f, f ∈ stable (child w) ->
             node f ∈ map fst (foldr removeChild (dom c) (deletions w))).
Proof.
  intros (Hnodes & Hdom & Hfresh). cbv zeta.
  assert (forall n (deleted : list nat),
             n ∈ map stateNode (current c) -> n ∉ deleted ->
             n ∈ map fst (foldr removeChild (dom c) deleted)) as Hkept.
  { intros n deleted Hn Hdel. rewrite foldr_removeChild.
    pose proof (map_fst_filter_ids (fun m => m ∉ deleted) (dom c)) as H0.
    cbv beta in H0. rewrite H0, list_elem_of_filter. split; [exact Hdel|].
    apply list_elem_of_fmap in Hn as (f & -> & Hf). now apply Hdom. }
  destruct newChild as [rows|element]; cbn [reconcileChildFibers].
  - set (old := indexed (current c)).
    assert (map alt_node old = map stateNode (current c)) as Hold
        by (unfold old; now rewrite map_alt_node, map_snd_indexed).
    assert (Forall (fun x => alt_node x < fresh c) old) as Hbound.
    { apply Forall_forall. intros x Hx. rewrite Forall_forall in Hfresh.
      apply Hfresh. rewrite <- (map_snd_indexed (current c)).
      apply list_elem_of_fmap. exists x. split; [reflexivity|exact Hx]. }
    rewrite <- Hold in Hnodes. rewrite <- Hold in Hkept.
    pose proof (indexed_sorted (current c)) as Hsorted. fold old in Hsorted.
    unfold reconcileChildrenArray. fold old.
    destruct (first_loop old rows 0) as [Lpre [[V rest] last]] eqn:Hfirst.
    destruct (first_loop_spec old rows 0 Lpre V rest last Hfirst Hsorted)
      as (pre & rpre & Hsplit & -> & Hk & Hp & Hpn & Hpl & Hst & Hlast).
    { apply Forall_forall. intros; lia. }
    rewrite Hsplit in Hnodes, Hbound, Hkept. clear Hsorted Hold.
    rewrite map_app in Hnodes, Hkept.
    apply NoDup_app in Hnodes as (Hnd_pre & Hdis & Hnd_V).
    apply Forall_app in Hbound as [Hb_pre Hb_V].
    assert (exists L2 deleted n',
               (let w :=
                  match rest, V with
                  | [], _ =>
                      {| child := Lpre;
                         deletions := map (fun old => stateNode old.2) V;
                         next := fresh c |}
                  | _, [] =>
                      let '(created, n) := create_rest rest (fresh c) in
                      {| child := Lpre ++ created; deletions := [];
                         next := n |}
                  | _, _ =>
                      let '(placed, (existingChildren, n)) :=
                        map_loop (mapRemainingChildren V) rest last
                                 (fresh c) in
                      {| child := Lpre ++ placed;
                         deletions := map (fun old => stateNode old.2)
                                          (Map_values existingChildren);
                         next := n |}
                  end in
                child w = Lpre ++ L2 /\ deletions w = deleted /\
                next w = n') /\
               fresh c <= n' /\
               (forall n, n ∈ deleted -> n ∈ map alt_node V) /\
               Forall (fun f =>
                         (node f ∈ map alt_node V /\ node f ∉ deleted)
                         \/ (fresh c <= node f < n' /\ Placement f = true))
                      L2 /\
               NoDup (map node L2))
      as (L2 & deleted & n' & Hw & Hn' & Hdel & Hfrom & HndL2).
    { assert (forall L ex n,
                 map_loop (mapRemainingChildren V) rest last (fresh c)
                 = (L, (ex, n)) ->
                 fresh c <= n /\
                 (forall m, m ∈ map (fun old : nat * fiber => stateNode old.2)
                                    (Map_values ex) ->
                            m ∈ map alt_node V) /\
                 Forall (fun f =>
                           (node f ∈ map alt_node V /\
                            node f ∉ map (fun old : nat * fiber =>
                                            stateNode old.2)
                                         (Map_values ex))
                           \/ (fresh c <= node f < n /\ Placement f = true))
                        L /\
                 NoDup (map node L)) as Hmap.
      { intros L ex n Hml.
        destruct (mapRemainingChildren_keys V) as [Hkeys Hvals].
        assert (NoDup (map (fun z : (string + nat) * (nat * fiber) =>
                              alt_node z.2) (mapRemainingChildren V)))
          as Hnd_ex.
        { apply (NoDup_map_finer_in _ fst); [|exact Hkeys].
          intros z1 z2 H1 H2 Heq.
          destruct (Hvals z1 H1) as [Hv1 ->], (Hvals z2 H2) as [Hv2 ->].
          f_equal.
          apply list_elem_of_lookup in Hv1 as [i Hi].
          apply list_elem_of_lookup in Hv2 as [j Hj].
          assert (i = j) as ->.
          { apply (NoDup_lookup _ i j (alt_node z1.2) Hnd_V).
            - now rewrite list_lookup_fmap, Hi.
            - now rewrite list_lookup_fmap, Hj, Heq. }
          congruence. }
        destruct (map_loop_nodes rest _ last (fresh c) L ex n Hml Hkeys
                                 Hnd_ex)
          as (Hn & Hsub & Hfrom & HndL).
        { apply Forall_forall. intros z Hz. rewrite Forall_forall in Hb_V.
          apply Hb_V. now apply Hvals. }
        split; [exact Hn|]. split.
        { intros m Hm. unfold Map_values in Hm. rewrite map_map in Hm.
          apply list_elem_of_fmap in Hm as (z & -> & Hz).
          apply list_elem_of_fmap. exists z.2. split; [reflexivity|].
          now apply Hvals, Hsub. }
        split; [|exact HndL].
        eapply Forall_impl; [exact Hfrom|]. cbn beta.
        intros f [(z & Hz & Hz' & Hnode)|Hnew]; [left|now right].
        split.
        - rewrite Hnode. apply list_elem_of_fmap. exists z.2.
          split; [reflexivity|]. now apply Hvals.
        - intros Hin. unfold Map_values in Hin. rewrite map_map in Hin.
          apply list_elem_of_fmap in Hin as (z' & Heq & Hz'in).
          apply Hz'. replace z with z'; [exact Hz'in|].
          apply Hsub in Hz'in.
          apply list_elem_of_lookup in Hz as [i Hi].
          apply list_elem_of_lookup in Hz'in as [j Hj].
          assert (j = i) as ->.
          { apply (NoDup_lookup _ j i (alt_node z.2) Hnd_ex).
            - rewrite list_lookup_fmap, Hj. cbn. f_equal.
              rewrite <- Hnode, Heq. reflexivity.
            - now rewrite list_lookup_fmap, Hi. }
          congruence. }
      destruct rest as [|r rest].
      - exists [], (map (fun old : nat * fiber => stateNode old.2) V),
               (fresh c).
        split; [now rewrite app_nil_r|]. split; [lia|].
        split; [auto|]. split; constructor.
      - destruct V as [|v V].
        + pose proof (create_rest_map_loop (r :: rest) last (fresh c)) as Hcr.
          destruct (create_rest (r :: rest) (fresh c)) as [created n] eqn:Hc.
          cbn [fst snd] in Hcr.
          destruct (Hmap created [] n Hcr) as (Hn & _ & Hfrom & HndL).
          exists created, [], n. split; [auto|]. split; [exact Hn|].
          split; [intros m Hm; now apply elem_of_nil in Hm|].
          split; [exact Hfrom|exact HndL].
        + destruct (map_loop (mapRemainingChildren (v :: V)) (r :: rest)
                             last (fresh c)) as [L2 [ex n]] eqn:Hml.
          destruct (Hmap L2 ex n eq_refl) as (Hn & Hdel & Hfrom & HndL).
          exists L2, (map (fun old : nat * fiber => stateNode old.2)
                          (Map_values ex)), n.
          split; [cbn; auto|]. split; [exact Hn|].
          split; [exact Hdel|]. split; [exact Hfrom|exact HndL]. }
    match goal with
    | Hw : (let w := ?W in _) |- _ => set (w := W) in *
    end.
    cbv zeta in Hw. destruct Hw as (Hchild & Hdeleted & Hnext).
    rewrite Hchild, Hdeleted, Hnext.
    assert (forall x, x ∈ pre -> alt_node x ∉ map node L2) as Hpre_L2.
    { intros x Hx Hin. apply list_elem_of_fmap in Hin as (f & Heq & Hf).
      rewrite Forall_forall in Hfrom.
      destruct (Hfrom f Hf) as [[HinV _]|[Hrange _]].
      - apply (Hdis (alt_node x)); [apply list_elem_of_fmap; eauto|].
        now rewrite Heq.
      - rewrite Forall_forall in Hb_pre. specialize (Hb_pre x Hx).
        cbn in Hb_pre. lia. }
    split.
    { rewrite map_app, Hpn. apply NoDup_app. split; [exact Hnd_pre|].
      split; [|exact HndL2].
      intros m Hm. apply list_elem_of_fmap in Hm as (x & -> & Hx).
      now apply Hpre_L2. }
    split.
    { rewrite Forall_app. split.
      - apply Forall_forall. intros f Hf.
        assert (node f ∈ map alt_node pre) as Hin
            by (rewrite <- Hpn; apply list_elem_of_fmap; eauto).
        apply list_elem_of_fmap in Hin as (x & -> & Hx).
        rewrite Forall_forall in Hb_pre. specialize (Hb_pre x Hx).
        cbn in Hb_pre. lia.
      - apply Forall_forall. intros f Hf. rewrite Forall_forall in Hfrom.
        destruct (Hfrom f Hf) as [[HinV _]|[Hrange _]]; [|lia].
        apply list_elem_of_fmap in HinV as (x & -> & Hx).
        rewrite Forall_forall in Hb_V. specialize (Hb_V x Hx).
        cbn in Hb_V. lia. }
    intros f Hf. unfold stable in Hf.
    apply list_elem_of_filter in Hf as [Hflag Hf].
    apply elem_of_app in Hf as [Hf|Hf].
    + assert (node f ∈ map alt_node pre) as Hin
          by (rewrite <- Hpn; apply list_elem_of_fmap; eauto).
      apply Hkept; [rewrite elem_of_app; now left|].
      intros Hd. apply (Hdis _ Hin). now apply Hdel.
    + rewrite Forall_forall in Hfrom.
      destruct (Hfrom f Hf) as [[HinV Hnd]|[_ Hnew]]; [|congruence].
      apply Hkept; [rewrite elem_of_app; now right|exact Hnd].
  - pose proof (single_loop_spec (current c)) as Hloop.
    unfold reconcileSingleElement.
    destruct (single_loop (current c)) as [[f|] deleted].
    + destruct Hloop as (A & B & Hcur & ->).
      cbn [child deletions next map node].
      split; [apply NoDup_singleton|]. split.
      { constructor; [|constructor]. cbn [node].
        rewrite Forall_forall in Hfresh. apply Hfresh.
        rewrite Hcur, elem_of_app, elem_of_cons. tauto. }
      intros g Hg. unfold stable in Hg.
      apply list_elem_of_filter in Hg as [_ Hg].
      apply list_elem_of_singleton in Hg as ->. cbn [node].
      rewrite Hcur, map_app in Hnodes. cbn [map] in Hnodes.
      apply NoDup_app in Hnodes as (_ & Hdis & HfB).
      apply NoDup_cons in HfB as [HfB _].
      apply Hkept.
      * rewrite Hcur, map_app, elem_of_app. cbn [map]. right. now left.
      * rewrite elem_of_app. intros [Hin|Hin]; [|contradiction].
        apply (Hdis _ Hin). now left.
    + cbn [child deletions next map node].
      split; [apply NoDup_singleton|]. split.
      { constructor; [cbn; lia|constructor]. }
      intros g Hg. unfold stable in Hg.
      apply list_elem_of_filter in Hg as [Hflag Hg].
      apply list_elem_of_singleton in Hg as ->. discriminate.
Qed.

(** Whatever was rendered before, with or without repeated keys, the
    fibers keep their nodes among the DOM children, and every
    [insertBefore] of a commit finds its reference node there. *)
Lemma render_tracked (newChild : @children host) (c : @container host) :
  tracked c ->
  tracked (render newChild c) /\
  references_present
    (child (reconcileChildFibers c newChild))
    (foldr removeChild (dom c)
           (deletions (reconcileChildFibers c newChild))).
Proof.
  intros Htracked.
  destruct (reconcileChildFibers_nodes c newChild Htracked)
    as (Hnd & Hnext & Hstable).
  destruct (commitChildren_references _ _ Hnd Hstable)
    as (Hrefs & Hall & _).
  split; [|exact Hrefs].
  unfold tracked, render. cbn [commit current dom fresh].
  rewrite !map_map. cbn [stateNode]. split; [exact Hnd|]. split.
  - intros f Hf. apply list_elem_of_fmap in Hf as (g & -> & Hg).
    cbn [stateNode]. now apply Hall.
  - apply Forall_forall. intros f Hf.
    apply list_elem_of_fmap in Hf as (g & -> & Hg). cbn [stateNode].
    rewrite Forall_forall in Hnext. now apply Hnext.
Qed.

Lemma tracked_empty : tracked (@empty host).
Proof.
  split; [constructor|]. split; [|constructor].
  intros f Hf. now apply elem_of_nil in Hf.
Qed.

End Host.
End ReactFacts.

(** ** Loyalty page *)

Module LoyaltyFacts.
Import Loyalty.

Section WithIntl.
Variable formatNumber : Z -> string.

Lemma NoDup_keys_Rows (rows : list (@React.row host)) :
  NoDup (map React.key rows) ->
  NoDup (React.keys (React.Rows rows)).
Proof.
  intros Hnd. cbn [React.keys]. rewrite <- (map_map React.key Some).
  apply (NoDup_fmap_2 Some). exact Hnd.
Qed.

Lemma NoDup_keys_top summary :
  (forall s, summary = Some s -> distinct_keys formatNumber s) ->
  NoDup (React.keys (render_top_customers formatNumber summary)) /\
  NoDup (React.keys (render_top_rewards formatNumber summary)).
Proof.
  intros Hs. unfold render_top_customers, render_top_rewards.
  destruct summary as [s|]; [|split; apply NoDup_singleton].
  destruct (Hs s eq_refl) as [Hc Hr]. split.
  - destruct (decide _); [apply NoDup_singleton|].
    apply NoDup_keys_Rows. now rewrite map_map.
  - destruct (decide _); [apply NoDup_singleton|].
    apply NoDup_keys_Rows. now rewrite map_map.
Qed.

Lemma mount_in_step first :
  (forall s, first = Some s -> distinct_keys formatNumber s) ->
  in_step (mount formatNumber first).
Proof.
  intros Hs. destruct (NoDup_keys_top first Hs) as [Hc Hr].
  unfold in_step, mount. cbn [top_customers_card top_rewards_card].
  destruct (ReactFacts.render_clean
              (render_top_customers formatNumber first) React.empty
              ReactFacts.clean_empty NoDup_nil_2) as (? & _ & Hkc).
  destruct (ReactFacts.render_clean
              (render_top_rewards formatNumber first) React.empty
              ReactFacts.clean_empty NoDup_nil_2) as (? & _ & Hkr).
  rewrite Hkc, Hkr. auto.
Qed.

Lemma rerender_in_step summary screen :
  in_step screen ->
  (forall s, summary = Some s -> distinct_keys formatNumber s) ->
  in_step (rerender formatNumber summary screen).
Proof.
  intros (Hc & Hkc & Hr & Hkr) Hs.
  destruct (NoDup_keys_top summary Hs) as [Hnc Hnr].
  unfold in_step, rerender. cbn [top_customers_card top_rewards_card].
  destruct (ReactFacts.render_clean
              (render_top_customers formatNumber summary) _ Hc Hkc)
    as (? & _ & Hkc').
  destruct (ReactFacts.render_clean
              (render_top_rewards formatNumber summary) _ Hr Hkr)
    as (? & _ & Hkr').
  rewrite Hkc', Hkr'. auto.
Qed.

Lemma page_in_step first answers :
  (forall s, first = Some s \/ s ∈ answers -> distinct_keys formatNumber s) ->
  in_step (page formatNumber first answers).
Proof.
  intros Hs. unfold page.
  assert (in_step (mount formatNumber first)) as Hmount
      by (apply mount_in_step; intros s ->; apply Hs; now left).
  assert (forall s, s ∈ answers -> distinct_keys formatNumber s) as Hall
      by (intros s Hin; apply Hs; now right).
  clear Hs. revert Hmount. generalize (mount formatNumber first).
  induction answers as [|s answers IH]; intros screen Hscreen; [exact Hscreen|].
  cbn [fold_left]. apply IH.
  - intros s' Hin. apply Hall. now right.
  - apply rerender_in_step; [exact Hscreen|].
    intros s' [= <-]. apply Hall. now left.
Qed.

Lemma page_snoc first answers summaryResponse :
  page formatNumber first (answers ++ [summaryResponse])
  = rerender formatNumber (Some summaryResponse)
             (page formatNumber first answers).
Proof. unfold page. now rewrite fold_left_app. Qed.

(** Whatever the summaries, the fibers of both cards keep their nodes
    among the DOM children. *)
Lemma page_tracked first answers :
  React.tracked (top_customers_card (page formatNumber first answers)) /\
  React.tracked (top_rewards_card (page formatNumber first answers)).
Proof.
  induction answers as [|summaryResponse answers IH] using rev_ind.
  - unfold page, mount. cbn [fold_left top_customers_card top_rewards_card].
    split; apply ReactFacts.render_tracked, ReactFacts.tracked_empty.
  - rewrite page_snoc. unfold rerender.
    cbn [top_customers_card top_rewards_card]. destruct IH as [Hc Hr].
    split; now apply ReactFacts.render_tracked.
Qed.

Lemma hosts_top_customers summary :
  React.hosts (render_top_customers formatNumber (Some summary))
  = if decide (top_customers summary = [])
    then [Paragraph "Sin datos disponibles"]
    else map (fun customer =>
                Row (user_name customer)
                    (formatNumber (customer_total_points customer)
                     +:+ " pts"))
             (top_customers summary).
Proof.
  unfold render_top_customers.
  destruct (top_customers summary) as [|c l]; [reflexivity|].
  rewrite decide_False by discriminate. rewrite decide_False by discriminate.
  cbn [React.hosts]. now rewrite map_map.
Qed.

Lemma hosts_top_rewards summary :
  React.hosts (render_top_rewards formatNumber (Some summary))
  = if decide (top_rewards summary = [])
    then [Paragraph "Sin datos disponibles"]
    else map (fun reward =>
                Row (default "Recompensa sin nombre" (reward_name reward))
                    (formatNumber (redemptions reward) +:+ " canjes"))
             (top_rewards summary).
Proof.
  unfold render_top_rewards.
  destruct (top_rewards summary) as [|r l]; [reflexivity|].
  rewrite decide_False by discriminate. rewrite decide_False by discriminate.
  cbn [React.hosts]. now rewrite map_map.
Qed.

(** C6, as the code has it.  When the cards are mounted they show the
    two top lists of the summary there is then, as received.  After a
    refresh they show the two top lists of its answer, one line per
    entry, in the order of the answer, with the name and the figure of
    the entry, or the paragraph for an empty list, and nothing else,
    provided that no two lines of a card had one key in the summaries
    shown before: the key of a customer is [user_id-local_id], the key
    of a reward its [reward_id], or its [reward_name] without one. *)
Theorem top_lists_as_received :
  let customer_key := fun customer =>
    pretty (user_id customer) +:+ "-" +:+ pretty (local_id customer) in
  let reward_key := fun reward =>
    match reward_id reward with
    | Some i => pretty i
    | None => match reward_name reward with
              | Some n => n
              | None => "null"
              end
    end in
  let customers_of := fun summary =>
    if decide (top_customers summary = [])
    then [Paragraph "Sin datos disponibles"]
    else map (fun customer =>
                Row (user_name customer)
                    (formatNumber (customer_total_points customer)
                     +:+ " pts"))
             (top_customers summary) in
  let rewards_of := fun summary =>
    if decide (top_rewards summary = [])
    then [Paragraph "Sin datos disponibles"]
    else map (fun reward =>
                Row (default "Recompensa sin nombre" (reward_name reward))
                    (formatNumber (redemptions reward) +:+ " canjes"))
             (top_rewards summary) in
  (forall first,
      React.shown (top_customers_card (mount formatNumber (Some first)))
      = customers_of first /\
      React.shown (top_rewards_card (mount formatNumber (Some first)))
      = rewards_of first) /\
  (forall first answers summaryResponse,
      (forall summary,
          first = Some summary \/ summary ∈ answers ->
          NoDup (map customer_key (top_customers summary)) /\
          NoDup (map reward_key (top_rewards summary))) ->
      let screen :=
        page formatNumber first (answers ++ [summaryResponse]) in
      React.shown (top_customers_card screen) = customers_of summaryResponse /\
      React.shown (top_rewards_card screen) = rewards_of summaryResponse).
Proof.
  cbv zeta. split.
  - intros first. unfold mount. cbn [top_customers_card top_rewards_card].
    destruct (ReactFacts.render_clean
                (render_top_customers formatNumber (Some first)) React.empty
                ReactFacts.clean_empty NoDup_nil_2) as (_ & Hc & _).
    destruct (ReactFacts.render_clean
                (render_top_rewards formatNumber (Some first)) React.empty
                ReactFacts.clean_empty NoDup_nil_2) as (_ & Hr & _).
    now rewrite Hc, Hr, hosts_top_customers, hosts_top_rewards.
  - intros first answers summaryResponse Hkeys.
    destruct (page_in_step first answers Hkeys) as (Hc & Hkc & Hr & Hkr).
    rewrite page_snoc. set (screen := page formatNumber first answers) in *.
    unfold rerender. cbn [top_customers_card top_rewards_card].
    destruct (ReactFacts.render_clean
                (render_top_customers formatNumber (Some summaryResponse))
                _ Hc Hkc) as (_ & Hsc & _).
    destruct (ReactFacts.render_clean
                (render_top_rewards formatNumber (Some summaryResponse))
                _ Hr Hkr) as (_ & Hsr & _).
    now rewrite Hsc, Hsr, hosts_top_customers, hosts_top_rewards.
Qed.

End WithIntl.

Lemma top_lists_as_received_witness :
  React.shown
    (top_customers_card
       (page pretty (Some Inputs.first_answer) [Inputs.refreshed]))
  = [Row "luis" "80 pts"] /\
  React.shown
    (top_rewards_card
       (page pretty (Some Inputs.first_answer) [Inputs.refreshed]))
  = [Paragraph "Sin datos disponibles"].
Proof.
  refine (proj2 (top_lists_as_received pretty)
                (Some Inputs.first_answer) [] Inputs.refreshed _).
  intros summary [[= <-]|Hin]; [|now apply elem_of_nil in Hin].
  split; apply (bool_decide_unpack _); vm_compute; exact I.
Defined.

(** C6 as stated fails: the answer of the first fetch has the same
    customer of the same local twice, so both lines have the key
    ["7-1"]; the cards are mounted with it, and a refresh answers with
    one other customer.  Of the two fibers with one key the map of the
    remaining children holds the second alone: the first is neither
    reused nor deleted, and its line stays on screen before the line of
    the new answer. *)
Lemma stale_row_after_refresh :
  let screen := page pretty (Some Inputs.repeated) [Inputs.refreshed] in
  React.shown (top_customers_card screen)
  = [Row "ana" "120 pts"; Row "luis" "80 pts"] /\
  React.shown (top_customers_card screen)
  <> map (fun customer =>
            Row (user_name customer)
                (pretty (customer_total_points customer) +:+ " pts"))
         (top_customers Inputs.refreshed).
Proof.
  assert (React.shown
            (top_customers_card
               (page pretty (Some Inputs.repeated) [Inputs.refreshed]))
          = [Row "ana" "120 pts"; Row "luis" "80 pts"]) as Hshown
      by (vm_compute; reflexivity).
  cbv zeta. rewrite Hshown. split; [reflexivity|discriminate].
Qed.

End LoyaltyFacts.

(** ** Catalog page *)

Module CatalogFacts.
Import Catalog.

(** C8.  [StockState] has exactly the five values available, normal,
    low, critical and out; each has its label and its badge style in the
    two tables; and the label and the style a stock cell displays are
    those of the product's [stock_state] (of [in_stock] for a product
    without stock tracking), whatever its quantity and its thresholds
    are.  The same holds of the list of critical products and of the
    "Sin stock temporalmente" line of the customer's catalog. *)
Theorem stock_state_displayed :
  (forall s : StockState, In s [available; normal; low; critical; out]) /\
  NoDup [available; normal; low; critical; out] /\
  map STOCK_STATE_LABELS [available; normal; low; critical; out]
  = ["Disponible"; "Stock saludable"; "Stock bajo"; "Stock crítico";
     "Sin stock"] /\
  map STOCK_BADGE_CLASSES [available; normal; low; critical; out]
  = ["bg-(--surface-alt) text-(--muted-foreground)";
     "bg-(--surface-alt) text-(--muted-foreground)";
     "bg-yellow-100 text-yellow-800"; "bg-red-100 text-red-700";
     "bg-red-200 text-red-800"] /\
  (forall (updatingProductId : option Z) (product : Product),
      tracks_stock product = true ->
      displayed_label (render_stock_cell updatingProductId product)
      = ("Estado: " +:+ STOCK_STATE_LABELS (stock_state product),
         STOCK_BADGE_CLASSES (stock_state product))) /\
  (forall (updatingProductId : option Z) (product : Product)
          (units lowT criticalT : Z),
      displayed_label
        (render_stock_cell updatingProductId
                           (with_figures product units lowT criticalT))
      = displayed_label (render_stock_cell updatingProductId product)) /\
  (forall (products : list Product) (change : Product -> Z * Z * Z),
      criticalProducts
        (map (fun p => with_figures p (change p).1.1 (change p).1.2
                                    (change p).2) products)
      = map (fun p => with_figures p (change p).1.1 (change p).1.2
                                   (change p).2)
            (criticalProducts products)) /\
  (forall product : ClientWallet.CatalogProduct,
      ClientWallet.sin_stock product = true <->
      ClientWallet.in_stock product = false \/
      ClientWallet.stock_state product = "out").
Proof.
  split; [intros []; cbn; tauto|].
  split; [apply (bool_decide_unpack _); vm_compute; exact I|].
  split; [reflexivity|]. split; [reflexivity|].
  split.
  { intros upd product Htracks. unfold render_stock_cell.
    now rewrite Htracks. }
  split.
  { intros upd product units lowT criticalT. unfold render_stock_cell.
    cbn [with_figures tracks_stock stock_state in_stock id stock].
    now destruct (tracks_stock product). }
  split.
  { intros products change. unfold criticalProducts.
    induction products as [|p ps IH]; [reflexivity|].
    cbn [map]. rewrite !filter_cons.
    cbn [with_figures tracks_stock stock_state].
    destruct (decide _); cbn [map]; now rewrite IH. }
  intros product. unfold ClientWallet.sin_stock.
  rewrite orb_true_iff, negb_true_iff.
  now rewrite String.eqb_eq.
Qed.

End CatalogFacts.

(** ** [Array.prototype.sort] *)

Module JSFacts.
Import JS.

Section ArraySort.
Context {A : Type} (compareFn : A -> A -> Z).

Hypothesis compareFn_total :
  forall a b, compareFn a b <= 0 \/ compareFn b a <= 0.
Hypothesis compareFn_trans :
  forall a b c,
    compareFn a b <= 0 -> compareFn b c <= 0 -> compareFn a c <= 0.

Lemma sort_insert_Permutation x (l : list A) :
  sort_insert compareFn x l ≡ₚ x :: l.
Proof.
  induction l as [|y l IH]; cbn [sort_insert]; [reflexivity|].
  destruct (compareFn x y <=? 0); [reflexivity|].
  rewrite IH. apply perm_swap.
Qed.

Lemma Array_sort_Permutation (l : list A) : Array_sort compareFn l ≡ₚ l.
Proof.
  induction l as [|x l IH]; [reflexivity|].
  cbn [Array_sort foldr]. rewrite sort_insert_Permutation.
  now constructor.
Qed.

Lemma sort_insert_sorted x (l : list A) :
  StronglySorted (fun a b => compareFn a b <= 0) l ->
  StronglySorted (fun a b => compareFn a b <= 0) (sort_insert compareFn x l).
Proof.
  induction 1 as [|y l Hsorted IH Hy]; cbn [sort_insert].
  - repeat constructor.
  - destruct (Z.leb_spec (compareFn x y) 0) as [Hle|Hgt].
    + constructor; [now constructor|]. constructor; [exact Hle|].
      eapply Forall_impl; [exact Hy|]. intros z Hz.
      now apply (compareFn_trans x y z).
    + constructor; [exact IH|].
      rewrite sort_insert_Permutation. constructor; [|exact Hy].
      destruct (compareFn_total x y) as [Hxy|Hyx]; [lia|exact Hyx].
Qed.

Lemma Array_sort_sorted (l : list A) :
  StronglySorted (fun a b => compareFn a b <= 0) (Array_sort compareFn l).
Proof.
  induction l as [|x l IH]; [constructor|].
  cbn [Array_sort foldr]. now apply sort_insert_sorted.
Qed.
End ArraySort.

End JSFacts.

(** ** [lib/api.ts] *)

Module ApiFacts.
Import JS Api.

Lemma strip_trailing_slash_snoc b :
  strip_trailing_slash (b +:+ "/") = b.
Proof.
  induction b as [|c b IH]; [reflexivity|].
  destruct b as [|c' b]; [reflexivity|].
  change (String c (String c' b) +:+ "/")
    with (String c (String c' (b +:+ "/"))).
  change (String c' b +:+ "/") with (String c' (b +:+ "/")) in IH.
  cbn [strip_trailing_slash] in *. now rewrite IH.
Qed.

Lemma strip_trailing_slash_id s :
  (forall b, s <> b +:+ "/") -> strip_trailing_slash s = s.
Proof.
  induction s as [|c s IH]; [reflexivity|]. intros Hno.
  cbn [strip_trailing_slash]. destruct s as [|c' s].
  - destruct (Ascii.eqb_spec c "/"%char) as [->|_]; [|reflexivity].
    now destruct (Hno EmptyString).
  - f_equal. apply IH. intros b Hb. apply (Hno (String c b)).
    cbn [String.append]. now rewrite Hb.
Qed.

Lemma message_of_statusText (r : Response) :
  (if String.eqb (statusText r) EmptyString
   then "Solicitud fallida" else statusText r)
  = (if decide (statusText r = EmptyString)
     then "Solicitud fallida" else statusText r).
Proof.
  destruct (String.eqb_spec (statusText r) EmptyString);
    destruct (decide _); congruence.
Qed.

(** A response that is not ok always ends in a throw. *)
Lemma read_response_not_ok P r :
  ok r = false -> exists e, fst (read_response P r) = Throw e.
Proof.
  intros Hok. unfold read_response. rewrite Hok. cbn [negb].
  destruct (Response_json P r) as [[details|e] r1]; [eauto|].
  destruct (Response_text r1) as [[text|e'] r2]; eauto.
Qed.

(** The text fallback of lines 58-60 is reached with the body already
    read by [json()]: with a body that is not JSON the [catch] block
    itself throws, and the caller gets a TypeError, not an ApiError. *)
Lemma read_response_not_ok_not_json P r bytes :
  ok r = false -> JS.body r = Some bytes -> bodyUsed r = false ->
  JSON_parse P bytes = None ->
  fst (read_response P r) = Throw TypeError.
Proof.
  intros Hok Hbody Hused Hparse.
  unfold read_response, Response_json, Response_text, consume_body.
  rewrite Hok, Hbody, Hused. cbn. rewrite Hparse. reflexivity.
Qed.

(** C1, as the code has it.  Whenever the response is not ok [apiFetch]
    throws; if the error body parses as JSON, what it throws is an
    ApiError with the response's status, its status text (or
    "Solicitud fallida" when that is empty) and the parsed body as
    details.  When the response is ok, a 204 gives [undefined] and
    leaves the body unread; any other status gives what
    [response.json()] gives: the parsed body, or the throw of a body
    that is not JSON. *)
Theorem apiFetch_response P fetch path options response :
  fetch (request_url P path) (request_init P options) = Return response ->
  (ok response = false ->
     (exists e, apiFetch P fetch path options = Throw e) /\
     (forall details,
         fst (Response_json P response) = Return details ->
         apiFetch P fetch path options =
         Throw (ApiError (if decide (statusText response = EmptyString)
                          then "Solicitud fallida"
                          else statusText response)
                         (status response) details))) /\
  (ok response = true -> status response = 204 ->
     apiFetch P fetch path options = Return undefined /\
     snd (read_response P response) = response) /\
  (ok response = true -> status response <> 204 ->
     apiFetch P fetch path options = fst (Response_json P response) /\
     forall bytes,
       JS.body response = Some bytes -> bodyUsed response = false ->
       apiFetch P fetch path options =
       match JSON_parse P bytes with
       | Some v => Return v
       | None => Throw SyntaxError
       end).
Proof.
  intros Hfetch. unfold apiFetch. rewrite Hfetch. cbn [bind].
  split; [|split].
  - intros Hok. split; [now apply read_response_not_ok|].
    intros details Hjson. unfold read_response. rewrite Hok. cbn [negb].
    destruct (Response_json P response) as [c r1]. cbn [fst] in Hjson.
    subst c. cbn [fst]. now rewrite message_of_statusText.
  - intros Hok H204. unfold read_response. rewrite Hok, H204. now cbn.
  - intros Hok H204. unfold read_response. rewrite Hok. cbn [negb].
    apply Z.eqb_neq in H204. rewrite H204. split; [reflexivity|].
    intros bytes Hbody Hused.
    unfold Response_json, consume_body. rewrite Hbody, Hused. reflexivity.
Qed.

Lemma apiFetch_response_witness :
  apiFetch Inputs.platform0 (fun _ _ => Return Inputs.json_404)
           "/api/locals/" Inputs.get_options
  = Throw (ApiError "Not Found" 404 (array [number 404])).
Proof.
  pose proof (apiFetch_response Inputs.platform0
                (fun _ _ => Return Inputs.json_404)
                "/api/locals/" Inputs.get_options Inputs.json_404
                eq_refl) as (Hnot_ok & _ & _).
  destruct (Hnot_ok eq_refl) as [_ Hdetails].
  exact (Hdetails (array [number 404]) eq_refl).
Defined.

(** C1 as stated fails: the response is ok and [apiFetch] throws. *)
Lemma apiFetch_throws_on_ok_response :
  ok Inputs.html_200 = true /\
  apiFetch Inputs.platform0 (fun _ _ => Return Inputs.html_200)
           "/api/locals/" Inputs.get_options
  = Throw SyntaxError.
Proof. split; reflexivity. Qed.

Lemma spread_headers_lookup (own : gmap string string) k :
  k <> "Accept" ->
  (own ∪ {[ "Accept" := "application/json" ]}) !! k = own !! k.
Proof.
  intros Hk. apply lookup_union_l. now apply lookup_singleton_ne.
Qed.

Lemma request_url_relative P path :
  String.prefix "http" path = false ->
  exists base,
    (API_BASE_URL P = base +:+ "/" \/
     base = API_BASE_URL P /\ forall b, API_BASE_URL P <> b +:+ "/") /\
    request_url P path
    = base +:+ (if String.prefix "/" path then EmptyString else "/")
           +:+ path.
Proof.
  intros Hrel. unfold request_url. rewrite Hrel.
  destruct (String.eqb_spec
              (strip_trailing_slash (API_BASE_URL P) +:+ "/")
              (API_BASE_URL P)) as [Heq|Hne].
  - exists (strip_trailing_slash (API_BASE_URL P)).
    split; [left; now rewrite Heq|reflexivity].
  - exists (API_BASE_URL P). split.
    + right. split; [reflexivity|]. intros b Hb. apply Hne.
      rewrite Hb at 1. now rewrite strip_trailing_slash_snoc.
    + rewrite strip_trailing_slash_id; [reflexivity|].
      intros b Hb. apply Hne.
      rewrite Hb at 1. now rewrite strip_trailing_slash_snoc.
Qed.

(** C2, as the code has it.  Every request goes to [fetch] once, with
    this URL and this init.  The URL is the path itself when the path
    starts with "http"; otherwise it is the base URL without one final
    "/", then "/" unless the path starts with one, then the path.  With
    a truthy token the Authorization header is "Bearer " and the token;
    with a JSON body (anything but [undefined]) the Content-Type is
    application/json and the body is the serialized value, and without
    one the request has no body.  Without a truthy token, or without a
    body, the header is the one of [options.headers], if it has one. *)
Theorem apiFetch_request P fetch path options :
  apiFetch P fetch path options
  = bind (fetch (request_url P path) (request_init P options))
         (fun response => fst (read_response P response)) /\
  (String.prefix "http" path = true -> request_url P path = path) /\
  (String.prefix "http" path = false ->
   exists base,
     (API_BASE_URL P = base +:+ "/" \/
      base = API_BASE_URL P /\ forall b, API_BASE_URL P <> b +:+ "/") /\
     request_url P path
     = base +:+ (if String.prefix "/" path then EmptyString else "/")
            +:+ path) /\
  (forall t, token options = Some t -> t <> EmptyString ->
             init_headers (request_init P options) !! "Authorization"
             = Some ("Bearer " +:+ t)) /\
  (truthy_string (token options) = false ->
   init_headers (request_init P options) !! "Authorization"
   = headers options !! "Authorization") /\
  (body options <> undefined ->
   init_headers (request_init P options) !! "Content-Type"
   = Some "application/json" /\
   init_body (request_init P options)
   = Some (JSON_stringify P (body options))) /\
  (body options = undefined ->
   init_headers (request_init P options) !! "Content-Type"
   = headers options !! "Content-Type" /\
   init_body (request_init P options) = None).
Proof.
  split; [reflexivity|]. split.
  { intros Habs. unfold request_url. now rewrite Habs. }
  split; [apply request_url_relative|].
  unfold request_init. cbn [init_headers init_body].
  split; [|split; [|split]].
  - intros t Ht Hne. rewrite Ht. cbn [truthy_string].
    destruct (String.eqb_spec t EmptyString) as [?|_]; [contradiction|].
    cbn [negb].
    destruct (negb (is_undefined (body options))).
    + rewrite lookup_insert_ne by discriminate. apply lookup_insert_eq.
    + apply lookup_insert_eq.
  - intros Hfalsy.
    assert (match token options with
            | Some t =>
                if truthy_string (Some t)
                then <[ "Authorization" := "Bearer " +:+ t ]>
                       (headers options ∪ {[ "Accept" := "application/json" ]})
                else headers options ∪ {[ "Accept" := "application/json" ]}
            | None => headers options ∪ {[ "Accept" := "application/json" ]}
            end = headers options ∪ {[ "Accept" := "application/json" ]})
      as ->.
    { destruct (token options) as [t|]; [|reflexivity]. now rewrite Hfalsy. }
    destruct (negb (is_undefined (body options)));
      [rewrite lookup_insert_ne by discriminate|];
      now apply spread_headers_lookup.
  - intros Hbody.
    assert (is_undefined (body options) = false) as ->
        by (destruct (body options); [contradiction|reflexivity..]).
    cbn [negb]. split; [apply lookup_insert_eq|reflexivity].
  - intros Hbody. rewrite Hbody. cbn [is_undefined negb].
    split; [|reflexivity].
    destruct (token options) as [t|]; [destruct (truthy_string (Some t))|];
      [rewrite lookup_insert_ne by discriminate|..];
      now apply spread_headers_lookup.
Qed.

(** C2 as stated fails: no truthy token, and an Authorization header
    all the same, because [options.headers] is spread into the headers;
    the header can even be "Bearer " followed by the token. *)
Lemma authorization_without_token :
  (truthy_string (token Inputs.own_authorization) = false /\
   init_headers (request_init Inputs.platform0 Inputs.own_authorization)
     !! "Authorization" = Some "Basic Y29mZmVl") /\
  (truthy_string (token Inputs.empty_token) = false /\
   token Inputs.empty_token = Some EmptyString /\
   init_headers (request_init Inputs.platform0 Inputs.empty_token)
     !! "Authorization" = Some ("Bearer " +:+ EmptyString)).
Proof.
  split; (split; [reflexivity|]); [|split; [reflexivity|]];
    vm_compute; reflexivity.
Qed.

End ApiFacts.

(** ** The reference codec reads back the snapshots it writes *)

Module RefJSONFacts.
Import JS RefJSON AuthContext.

Lemma append_cons x (a b : string) : String x a +:+ b = String x (a +:+ b).
Proof. reflexivity. Qed.

Lemma append_nil (s : string) : EmptyString +:+ s = s.
Proof. reflexivity. Qed.

Lemma append_assoc (a b c : string) : (a +:+ b) +:+ c = a +:+ (b +:+ c).
Proof.
  induction a as [|x a IH]; [reflexivity|].
  now rewrite !append_cons, IH.
Qed.

Lemma length_cons x (s : string) :
  String.length (String x s) = S (String.length s).
Proof. reflexivity. Qed.

Lemma length_append (a b : string) :
  String.length (a +:+ b) = (String.length a + String.length b)%nat.
Proof.
  induction a as [|x a IH]; [reflexivity|].
  rewrite append_cons, !length_cons, IH. reflexivity.
Qed.

(** One character, escaped, reads back as itself: by cases on its eight
    bits. *)
Lemma parse_chars_escape_char c rest :
  parse_chars (escape_char c +:+ rest)
  = match parse_chars rest with
    | Some (cs, out) => Some (String c cs, out)
    | None => None
    end.
Proof. destruct c as [[] [] [] [] [] [] [] []]; reflexivity. Qed.

Lemma parse_chars_escape s rest :
  parse_chars (escape s +:+ String dquote rest) = Some (s, rest).
Proof.
  induction s as [|c s IH]; [reflexivity|].
  cbn [escape]. now rewrite append_assoc, parse_chars_escape_char, IH.
Qed.

Lemma quote_append s rest :
  quote s +:+ rest = String dquote (escape s +:+ String dquote rest).
Proof. unfold quote. now rewrite append_cons, append_assoc. Qed.

(** The text as one chain of characters and escaped strings. *)
Ltac normal_text :=
  repeat (rewrite append_assoc || rewrite quote_append
          || rewrite append_cons || rewrite append_nil).

Ltac eval_chars :=
  match goal with
  | |- context [is_ws ?c] =>
      let v := eval vm_compute in (is_ws c) in change (is_ws c) with v
  | |- context [Ascii.eqb ?a ?b] =>
      let v := eval vm_compute in (Ascii.eqb a b) in
      change (Ascii.eqb a b) with v
  end.

(** The parser, run on such a chain. *)
Ltac run_parser :=
  repeat first
    [ rewrite parse_chars_escape
    | progress cbn [parse_value parse_members parse_elements skip_ws expect
                    mbind option_bind rev app]
    | eval_chars ].

Ltac enough_fuel n :=
  match goal with
  | |- context [parse_value ?f _] =>
      let Hf := fresh in
      assert (n <= f)%nat as Hf
          by (rewrite !length_cons, !length_append, !length_cons; lia);
      replace f with (n + (f - n))%nat by lia;
      generalize (f - n)%nat; clear Hf; intro;
      cbn [Nat.add]
  end.

Lemma parse_stringify_snapshot (t : AuthTokens) (u : AuthUser) :
  parse (stringify (snapshot (AuthTokens_value t) (AuthUser_value u)))
  = Some (snapshot (AuthTokens_value t) (AuthUser_value u)).
Proof.
  destruct t as [a r], u as [n [role|]];
    cbn -[quote String.append parse]; normal_text; unfold parse;
    enough_fuel 8%nat; run_parser; reflexivity.
Qed.

Lemma stringify_snapshot_not_empty (t u : value) :
  stringify (snapshot t u) <> EmptyString.
Proof. cbn -[quote String.append]. normal_text. discriminate. Qed.

End RefJSONFacts.

(** ** [context/auth-context.tsx] *)

Module AuthFacts.
Import JS AuthContext.

Section WithPlatform.
Variable P : platform.

Lemma persist_stored t u s :
  localStorage (persist P t u s) !! STORAGE_KEY
  = if truthy t then Some (JSON_stringify P (snapshot t u)) else None.
Proof.
  unfold persist. destruct (truthy t); cbn.
  - apply lookup_insert_eq.
  - apply lookup_delete_eq.
Qed.

Lemma persist_memory t u s :
  tokens (persist P t u s) = tokens s /\ user (persist P t u s) = user s
  /\ loading (persist P t u s) = loading s
  /\ error (persist P t u s) = error s.
Proof. unfold persist. destruct (truthy t); cbn; auto. Qed.

Lemma loading_rehydrate s : loading (rehydrate P s) = false.
Proof. reflexivity. Qed.

Lemma rehydrate_no_entry s :
  localStorage s !! STORAGE_KEY = None ->
  rehydrate P s = setLoading false s.
Proof. intros H. unfold rehydrate. now rewrite H. Qed.

Lemma rehydrate_snapshot s stored t u :
  localStorage s !! STORAGE_KEY = Some stored ->
  stored <> EmptyString ->
  JSON_parse P stored = Some (snapshot t u) ->
  rehydrate P s = setLoading false (setUser u (setTokens t s)).
Proof.
  intros Hs Hne Hp. unfold rehydrate. rewrite Hs. cbn [truthy_string].
  destruct (String.eqb_spec stored EmptyString) as [?|_]; [contradiction|].
  cbn [negb]. rewrite Hp. reflexivity.
Qed.

Lemma rehydrate_not_json s stored :
  localStorage s !! STORAGE_KEY = Some stored ->
  stored <> EmptyString ->
  JSON_parse P stored = None ->
  rehydrate P s
  = setLoading false (localStorage_removeItem STORAGE_KEY s).
Proof.
  intros Hs Hne Hp. unfold rehydrate. rewrite Hs. cbn [truthy_string].
  destruct (String.eqb_spec stored EmptyString) as [?|_]; [contradiction|].
  cbn [negb]. rewrite Hp. reflexivity.
Qed.

(** [loadUserProfile] leaves the tokens alone, and what it stores is
    the snapshot of its [authTokens] with the user it sets. *)
Lemma loadUserProfile_resume_effect authTokens username response s :
  let '(_, s') := loadUserProfile_resume P authTokens username response s in
  tokens s' = tokens s /\
  (s' = s \/
   localStorage s' !! STORAGE_KEY
   = if truthy authTokens
     then Some (JSON_stringify P (snapshot authTokens (user s')))
     else None).
Proof.
  unfold loadUserProfile_resume.
  destruct response as [data|e]; [|auto].
  destruct (Array_find_username username data) as [found|]; [|auto].
  destruct (truthy found); [|auto].
  destruct (get found "username") as [u|]; [|auto].
  destruct (get found "role") as [r|]; [|auto].
  split.
  - now rewrite (proj1 (persist_memory _ _ _)).
  - right. rewrite persist_stored.
    now rewrite (proj1 (proj2 (persist_memory _ _ _))).
Qed.

Lemma loadUserProfile_effect fetch authTokens username s :
  let '(_, s') := loadUserProfile P fetch authTokens username s in
  tokens s' = tokens s /\
  (s' = s \/
   localStorage s' !! STORAGE_KEY
   = if truthy authTokens
     then Some (JSON_stringify P (snapshot authTokens (user s')))
     else None).
Proof.
  unfold loadUserProfile.
  destruct (loadUserProfile_request authTokens) as [[path options]|];
    [|auto].
  apply loadUserProfile_resume_effect.
Qed.

(** After a [login] whose token request succeeded, the tokens in
    memory are the response, and the stored entry is the snapshot of
    the tokens and the user in memory (no entry for a falsy
    response). *)
Lemma login_succeeded fetch credentials s tokenResponse :
  fetch (fst (login_request credentials))
        (snd (login_request credentials)) = Return tokenResponse ->
  let s' := snd (login P fetch credentials s) in
  fst (login P fetch credentials s) = Return () /\
  tokens s' = tokenResponse /\
  loading s' = false /\
  localStorage s' !! STORAGE_KEY
  = if truthy tokenResponse
    then Some (JSON_stringify P (snapshot (tokens s') (user s')))
    else None.
Proof.
  intros Hfetch. unfold login. cbn [login_request fst snd] in *.
  rewrite Hfetch.
  pose proof (loadUserProfile_effect fetch tokenResponse
                (credentials_username credentials)
                (login_tokens_arrived P credentials tokenResponse
                                      (login_begin s))) as Hprofile.
  destruct (loadUserProfile P fetch tokenResponse _ _) as [profile s2].
  destruct Hprofile as [Htok Hsto].
  cbn [login_finish fst snd tokens loading localStorage router_push
       setLoading user].
  assert (tokens s2 = tokenResponse) as Htokens.
  { rewrite Htok. unfold login_tokens_arrived.
    now rewrite (proj1 (persist_memory _ _ _)). }
  split; [reflexivity|]. split; [exact Htokens|]. split; [reflexivity|].
  rewrite Htokens. destruct Hsto as [-> | Hsto]; [|exact Hsto].
  unfold login_tokens_arrived. rewrite persist_stored.
  now rewrite (proj1 (proj2 (persist_memory _ _ _))).
Qed.

Lemma login_failed_memory fetch credentials s err :
  fetch (fst (login_request credentials))
        (snd (login_request credentials)) = Throw err ->
  let s' := snd (login P fetch credentials s) in
  fst (login P fetch credentials s) = Throw err /\
  tokens s' = tokens s /\ user s' = user s /\
  localStorage s' = localStorage s /\ loading s' = false.
Proof.
  intros Hfetch. unfold login. cbn [login_request fst snd] in *.
  rewrite Hfetch. cbn. auto.
Qed.

Lemma logout_effect s :
  tokens (logout P s) = null /\ user (logout P s) = null /\
  localStorage (logout P s) !! STORAGE_KEY = None /\
  accessToken (logout P s) = null.
Proof.
  unfold logout, accessToken. cbn. repeat split; try reflexivity.
  apply lookup_delete_eq.
Qed.

Lemma login_invariant fetch credentials s :
  session_invariant s ->
  session_invariant (snd (login P fetch credentials s)).
Proof.
  intros Hinv.
  destruct (fetch (fst (login_request credentials))
                  (snd (login_request credentials)))
    as [tokenResponse|err] eqn:Hfetch.
  - destruct (login_succeeded fetch credentials s tokenResponse Hfetch)
      as (_ & Htok & _ & Hsto).
    unfold session_invariant. rewrite Hsto, Htok.
    destruct (truthy tokenResponse); split; intros H;
      try reflexivity; try (eexists; reflexivity);
      try discriminate; by destruct H.
  - destruct (login_failed_memory fetch credentials s err Hfetch)
      as (_ & Htok & _ & Hsto & _).
    unfold session_invariant. now rewrite Hsto, Htok.
Qed.

(** [register] touches tokens and storage through [login] only. *)
Lemma register_invariant fetch payload s :
  session_invariant s ->
  session_invariant (snd (register P fetch payload s)).
Proof.
  intros Hinv. unfold register. cbn [register_request].
  destruct (fetch _ _) as [created|err]; [|exact Hinv].
  pose proof (login_invariant fetch
                {| credentials_username := payload_username payload;
                   credentials_password := payload_password payload |}
                (setError None (setLoading true s)) Hinv) as Hlogin.
  destruct (login P fetch _ _) as [[done|err] s1]; exact Hlogin.
Qed.

Lemma operation_invariant s s' :
  session_invariant s -> operation P s s' -> session_invariant s'.
Proof.
  intros Hinv Hop.
  destruct Hop as [fetch credentials s|fetch payload s|s|s].
  - now apply login_invariant.
  - now apply register_invariant.
  - destruct (logout_effect s) as (Htok & _ & Hsto & _).
    unfold session_invariant. rewrite Hsto, Htok. cbn.
    split; intros H; [by destruct H|discriminate].
  - exact Hinv.
Qed.

Lemma rehydrate_invariant storage :
  written_by_persist P storage ->
  session_invariant (rehydrate P (mount storage)).
Proof.
  intros [Hnone | (t & u & Ht & Hsto & Hne & Hparse)].
  - rewrite rehydrate_no_entry by exact Hnone.
    unfold session_invariant. cbn. rewrite Hnone.
    split; intros H; [by destruct H|discriminate].
  - rewrite (rehydrate_snapshot (mount storage) _ t u Hsto Hne Hparse).
    unfold session_invariant. cbn. rewrite Hsto, Ht.
    split; intros _; [reflexivity|eexists; reflexivity].
Qed.

(** C3, as the code has it.  [persist] with truthy tokens stores the
    JSON text of the snapshot under "coffeefy-auth", and the effect
    of a provider mounted over that storage puts exactly these tokens
    and this user in the state.  A stored string that is not empty
    and is not JSON is removed by the effect, and tokens and user
    stay [null].  The effect always ends with [loading] false. *)
Theorem session_roundtrip :
  JSON_parse P EmptyString = None ->
  (forall nextTokens nextUser s,
      truthy nextTokens = true ->
      JSON_parse P (JSON_stringify P (snapshot nextTokens nextUser))
      = Some (snapshot nextTokens nextUser) ->
      let stored := localStorage (persist P nextTokens nextUser s) in
      stored !! STORAGE_KEY
      = Some (JSON_stringify P (snapshot nextTokens nextUser)) /\
      tokens (rehydrate P (mount stored)) = nextTokens /\
      user (rehydrate P (mount stored)) = nextUser /\
      localStorage (rehydrate P (mount stored)) = stored) /\
  (forall storage stored,
      storage !! STORAGE_KEY = Some stored ->
      stored <> EmptyString ->
      JSON_parse P stored = None ->
      localStorage (rehydrate P (mount storage))
      = delete STORAGE_KEY storage /\
      tokens (rehydrate P (mount storage)) = null /\
      user (rehydrate P (mount storage)) = null) /\
  (forall s, loading (rehydrate P s) = false).
Proof.
  intros Hempty. split; [|split; [|exact loading_rehydrate]].
  - intros t u s Ht Hparse stored.
    assert (stored !! STORAGE_KEY
            = Some (JSON_stringify P (snapshot t u))) as Hsto.
    { unfold stored. rewrite persist_stored. now rewrite Ht. }
    split; [exact Hsto|].
    assert (JSON_stringify P (snapshot t u) <> EmptyString) as Hne.
    { intros Habs. rewrite Habs in Hparse. congruence. }
    now rewrite (rehydrate_snapshot (mount stored) _ t u Hsto Hne Hparse).
  - intros storage stored Hsto Hne Hparse.
    now rewrite (rehydrate_not_json (mount storage) stored Hsto Hne Hparse).
Qed.

(** C10, as the code has it, for callbacks that run one at a time.
    Each operation keeps the invariant that an entry is stored
    exactly when the tokens in memory are set, and the effect
    establishes it over a storage that [persist] wrote, so it holds
    from then on.  Re-hydration loads nothing without an entry; a
    successful [login] stores the tokens of the response and the
    snapshot of tokens and user; [persist] with [null] tokens removes
    the entry; [logout] sets tokens and user to [null] and removes
    the entry, after which [accessToken] is [null] and a provider
    mounted anew restores no session. *)
Theorem session_invariant_sequential :
  (forall s s',
      session_invariant s -> operation P s s' -> session_invariant s') /\
  (forall storage s,
      written_by_persist P storage ->
      rtc (operation P) (rehydrate P (mount storage)) s ->
      session_invariant s) /\
  (forall storage,
      storage !! STORAGE_KEY = None ->
      tokens (rehydrate P (mount storage)) = null /\
      user (rehydrate P (mount storage)) = null) /\
  (forall fetch credentials s tokenResponse,
      fetch (fst (login_request credentials))
            (snd (login_request credentials)) = Return tokenResponse ->
      truthy tokenResponse = true ->
      let s' := snd (login P fetch credentials s) in
      tokens s' = tokenResponse /\
      localStorage s' !! STORAGE_KEY
      = Some (JSON_stringify P (snapshot (tokens s') (user s')))) /\
  (forall nextUser s,
      localStorage (persist P null nextUser s) !! STORAGE_KEY = None) /\
  (forall s,
      tokens (logout P s) = null /\ user (logout P s) = null /\
      localStorage (logout P s) !! STORAGE_KEY = None /\
      accessToken (logout P s) = null /\
      tokens (rehydrate P (mount (localStorage (logout P s)))) = null /\
      user (rehydrate P (mount (localStorage (logout P s)))) = null).
Proof.
  split; [exact operation_invariant|].
  split.
  { intros storage s Hwf Hrtc.
    revert s Hrtc. apply rtc_ind_r.
    - now apply rehydrate_invariant.
    - intros s s' _ Hop IH. now apply (operation_invariant s s'). }
  split.
  { intros storage Hnone. rewrite rehydrate_no_entry by exact Hnone.
    now cbn. }
  split.
  { intros fetch credentials s tokenResponse Hfetch Ht s'.
    destruct (login_succeeded fetch credentials s tokenResponse Hfetch)
      as (_ & Htok & _ & Hsto).
    split; [exact Htok|]. unfold s'. rewrite Hsto. now rewrite Ht. }
  split.
  { intros u s. now rewrite persist_stored. }
  intros s. destruct (logout_effect s) as (Htok & Husr & Hsto & Hacc).
  repeat (split; [assumption|]).
  rewrite rehydrate_no_entry by exact Hsto. now cbn.
Qed.

End WithPlatform.

(** With the reference codec the round trip holds of every tokens and
    every user of the declared types. *)
Lemma ref_session_roundtrip base (t : AuthTokens) (u : AuthUser) s :
  let P := RefJSON.ref_platform base in
  let stored :=
    localStorage (persist P (AuthTokens_value t) (AuthUser_value u) s) in
  tokens (rehydrate P (mount stored)) = AuthTokens_value t /\
  user (rehydrate P (mount stored)) = AuthUser_value u /\
  loading (rehydrate P (mount stored)) = false /\
  session_invariant (rehydrate P (mount stored)).
Proof.
  intros P stored.
  assert (stored !! STORAGE_KEY
          = Some (JSON_stringify P (snapshot (AuthTokens_value t)
                                             (AuthUser_value u)))) as Hsto.
  { unfold stored. now rewrite persist_stored. }
  rewrite (rehydrate_snapshot P (mount stored) _ _ _ Hsto
             (RefJSONFacts.stringify_snapshot_not_empty _ _)
             (RefJSONFacts.parse_stringify_snapshot t u)).
  repeat split; try reflexivity.
  intros _. cbn [localStorage setLoading setUser setTokens mount].
  rewrite Hsto. eexists; reflexivity.
Qed.

Lemma session_roundtrip_witness :
  tokens (rehydrate Inputs.platform0
            (mount (localStorage (persist Inputs.platform0 Inputs.ana_tokens
                                          Inputs.ana_user Inputs.fresh))))
  = Inputs.ana_tokens /\
  user (rehydrate Inputs.platform0
          (mount (localStorage (persist Inputs.platform0 Inputs.ana_tokens
                                        Inputs.ana_user Inputs.fresh))))
  = Inputs.ana_user /\
  localStorage (rehydrate Inputs.platform0
                  (mount {[ STORAGE_KEY := "{tokens" ]}))
  = delete STORAGE_KEY {[ STORAGE_KEY := "{tokens" ]}.
Proof.
  destruct (session_roundtrip Inputs.platform0 eq_refl)
    as (Hround & Hjunk & _).
  destruct (Hround Inputs.ana_tokens Inputs.ana_user Inputs.fresh
                   eq_refl eq_refl) as (_ & Htok & Husr & _).
  split; [exact Htok|]. split; [exact Husr|].
  refine (proj1 (Hjunk {[ STORAGE_KEY := "{tokens" ]} "{tokens" _ _ eq_refl)).
  - apply lookup_singleton_eq.
  - discriminate.
Defined.

(** C3 as stated fails: the empty string is not JSON, and the effect
    leaves it stored. *)
Lemma rehydrate_keeps_empty_entry :
  JSON_parse Inputs.platform0 EmptyString = None /\
  localStorage (rehydrate Inputs.platform0
                  (mount {[ STORAGE_KEY := EmptyString ]})) !! STORAGE_KEY
  = Some EmptyString.
Proof. split; [reflexivity|]. vm_compute. reflexivity. Qed.

(** C10 as stated fails: from a session that satisfies the invariant,
    a [logout] that runs while [login] awaits the profile ends with
    [null] tokens in memory and a stored snapshot, which the next
    mount restores. *)
Lemma logout_during_login :
  session_invariant Inputs.fresh /\
  rtc (turn Inputs.platform0) (Inputs.fresh, []) Inputs.race4 /\
  snd Inputs.race4 = [] /\
  tokens (fst Inputs.race4) = null /\
  accessToken (fst Inputs.race4) = null /\
  is_Some (localStorage (fst Inputs.race4) !! STORAGE_KEY) /\
  ~ session_invariant (fst Inputs.race4) /\
  tokens (rehydrate Inputs.platform0
            (mount (localStorage (fst Inputs.race4))))
  = Inputs.ana_tokens.
Proof.
  assert (is_Some (localStorage (fst Inputs.race4) !! STORAGE_KEY)) as Hsto.
  { vm_compute. eexists. reflexivity. }
  split.
  { unfold session_invariant. split; [intros [x Hx]|]; vm_compute in *;
      discriminate. }
  split.
  { eapply rtc_l; [apply (turn_login Inputs.platform0 Inputs.ana)|].
    eapply rtc_l;
      [apply (turn_tokens Inputs.platform0 Inputs.ana Inputs.ana_tokens
                          _ [] [])|].
    eapply rtc_l; [apply turn_logout|].
    eapply rtc_l;
      [apply (turn_profile Inputs.platform0 Inputs.ana Inputs.ana_tokens
                           (Return Inputs.users) _ [] [])|].
    apply rtc_refl. }
  split; [reflexivity|]. split; [reflexivity|]. split; [reflexivity|].
  split; [exact Hsto|]. split.
  { intros [Hinv _]. specialize (Hinv Hsto). discriminate. }
  vm_compute. reflexivity.
Qed.

End AuthFacts.

(** ** [app/cliente/page.tsx] *)

Module ClientWalletFacts.
Import JS ClientWallet.

(** *** Keys in the order of their first occurrence *)

Lemma elem_of_first_occurrences k keys :
  k ∈ first_occurrences keys <-> k ∈ keys.
Proof.
  induction keys as [|k0 keys IH]; [reflexivity|].
  cbn [first_occurrences]. rewrite !elem_of_cons, list_elem_of_filter, IH.
  destruct (decide (k = k0)); intuition.
Qed.

Lemma NoDup_first_occurrences keys : NoDup (first_occurrences keys).
Proof.
  induction keys as [|k keys IH]; [constructor|].
  cbn [first_occurrences]. constructor.
  - rewrite list_elem_of_filter. intros [Hne _]. now apply Hne.
  - now apply NoDup_filter.
Qed.

Lemma first_occurrences_snoc keys k :
  first_occurrences (keys ++ [k])
  = if decide (k ∈ keys) then first_occurrences keys
    else first_occurrences keys ++ [k].
Proof.
  induction keys as [|k0 keys IH].
  - cbn. destruct (decide (k ∈ [])) as [Hin|_]; [|reflexivity].
    now apply elem_of_nil in Hin.
  - cbn [app first_occurrences]. rewrite IH.
    destruct (decide (k ∈ keys)) as [Hin|Hnin].
    + rewrite decide_True by (now right). reflexivity.
    + rewrite filter_app. cbn [app]. rewrite filter_cons, filter_nil.
      destruct (decide (k <> k0)) as [Hne|Heq].
      * rewrite decide_False; [reflexivity|].
        rewrite elem_of_cons. intuition.
      * apply dec_stable in Heq. subst k0.
        rewrite decide_True by (now left). now rewrite app_nil_r.
Qed.

(** *** One step of the loop, on a state that agrees with [grouped] *)

Lemma members_snoc k products product :
  members k (products ++ [product])
  = members k products
    ++ (if decide (mapKey_of product = k) then [product] else []).
Proof.
  unfold members. rewrite filter_app, filter_cons, filter_nil.
  now destruct (decide _).
Qed.

Lemma members_nil k products :
  k ∉ map mapKey_of products -> members k products = [].
Proof.
  intros Hk. unfold members. induction products as [|p ps IH]; [reflexivity|].
  rewrite filter_cons. cbn in Hk. rewrite not_elem_of_cons in Hk.
  destruct Hk as [Hne Hk]. rewrite decide_False by congruence. now apply IH.
Qed.

Lemma members_cons k products :
  k ∈ map mapKey_of products ->
  exists first rest, members k products = first :: rest.
Proof.
  intros Hk. unfold members.
  induction products as [|p ps IH]; [now apply elem_of_nil in Hk|].
  rewrite filter_cons. destruct (decide (mapKey_of p = k)) as [_|Hne];
    [eauto|].
  cbn in Hk. apply elem_of_cons in Hk as [Heq|Hk]; [congruence|].
  now apply IH.
Qed.

Lemma group_of_other products product k :
  mapKey_of product <> k ->
  group_of (products ++ [product]) k = group_of products k.
Proof.
  intros Hne. unfold group_of. rewrite members_snoc.
  rewrite decide_False by exact Hne. now rewrite app_nil_r.
Qed.

Lemma group_of_hit products product :
  mapKey_of product ∈ map mapKey_of products ->
  group_of (products ++ [product]) (mapKey_of product)
  = items_push product (group_of products (mapKey_of product)).
Proof.
  intros Hin. unfold group_of, items_push. cbn [categoryId categoryName items].
  rewrite members_snoc. rewrite decide_True by reflexivity.
  destruct (members_cons _ _ Hin) as (first & rest & ->). reflexivity.
Qed.

Lemma group_of_miss products product :
  mapKey_of product ∉ map mapKey_of products ->
  group_of (products ++ [product]) (mapKey_of product)
  = items_push product (new_group product).
Proof.
  intros Hnin. unfold group_of, items_push. cbn [categoryId categoryName items].
  rewrite members_snoc. rewrite decide_True by reflexivity.
  rewrite (members_nil _ _ Hnin). reflexivity.
Qed.

Lemma index_ok_elem_of keys index k :
  index_ok keys index -> index !! k = None -> k ∉ keys.
Proof.
  intros Hok Hnone Hin. apply list_elem_of_lookup in Hin as [i Hi].
  apply Hok in Hi. congruence.
Qed.

Lemma index_ok_snoc keys index k :
  index_ok keys index -> k ∉ keys ->
  index_ok (keys ++ [k]) (<[ k := length keys ]> index).
Proof.
  intros Hok Hnin k' i. destruct (decide (k = k')) as [<-|Hne].
  - rewrite lookup_insert_eq. split.
    + intros [= <-]. now rewrite list_lookup_middle.
    + intros Hi. f_equal.
      destruct (decide (i < length keys)%nat) as [Hlt|Hge].
      * rewrite lookup_app_l in Hi by exact Hlt.
        destruct Hnin. apply list_elem_of_lookup. eauto.
      * apply lookup_lt_Some in Hi. rewrite length_app in Hi. cbn in Hi. lia.
  - rewrite lookup_insert_ne by exact Hne. rewrite (Hok k' i). split.
    + intros Hi. rewrite lookup_app_l; [exact Hi|].
      now apply lookup_lt_Some in Hi.
    + intros Hi.
      destruct (decide (i < length keys)%nat) as [Hlt|Hge].
      * now rewrite lookup_app_l in Hi by exact Hlt.
      * rewrite lookup_app_r in Hi by lia.
        apply list_lookup_singleton_Some in Hi as [_ Heq]. congruence.
Qed.

Lemma visit_grouped seen product index :
  index_ok (first_occurrences (map mapKey_of seen)) index ->
  exists index',
    visit (Some (grouped seen, index)) product
    = Some (grouped (seen ++ [product]), index') /\
    index_ok (first_occurrences (map mapKey_of (seen ++ [product]))) index'.
Proof.
  intros Hok. unfold visit. cbn [mbind option_bind].
  set (k := mapKey_of product).
  set (keys := first_occurrences (map mapKey_of seen)) in *.
  assert (map mapKey_of (seen ++ [product]) = map mapKey_of seen ++ [k])
    as Hkeys by (now rewrite map_app).
  destruct (index !! k) as [i|] eqn:Hindex.
  - (* the key has its group *)
    pose proof (proj1 (Hok k i) Hindex) as Hi.
    assert (k ∈ map mapKey_of seen) as Hin.
    { apply elem_of_first_occurrences, list_elem_of_lookup. eauto. }
    assert (grouped seen !! i = Some (group_of seen k)) as ->.
    { unfold grouped. fold keys. now rewrite ListFacts.lookup_map, Hi. }
    exists index. cbn [mbind option_bind].
    split.
    + f_equal. f_equal. unfold grouped. rewrite Hkeys, first_occurrences_snoc.
      rewrite decide_True by exact Hin. fold keys.
      apply list_eq. intros j. destruct (decide (i = j)) as [<-|Hne].
      * rewrite list_lookup_insert_eq
          by (rewrite length_map; now apply lookup_lt_Some in Hi).
        rewrite ListFacts.lookup_map, Hi. cbn.
        f_equal. symmetry. now apply group_of_hit.
      * rewrite list_lookup_insert_ne by exact Hne.
        rewrite !ListFacts.lookup_map.
        destruct (keys !! j) as [k'|] eqn:Hj; [|reflexivity]. cbn. f_equal.
        symmetry. apply group_of_other. fold k. intros <-.
        apply Hne. eapply NoDup_lookup; eauto.
        apply NoDup_first_occurrences.
    + rewrite Hkeys, first_occurrences_snoc.
      now rewrite decide_True by exact Hin.
  - (* a new group *)
    pose proof (index_ok_elem_of _ _ _ Hok Hindex) as Hnin.
    assert (k ∉ map mapKey_of seen) as Hnin'
        by (now rewrite <- elem_of_first_occurrences).
    exists (<[ k := length (grouped seen) ]> index).
    rewrite list_lookup_middle by reflexivity.
    cbn [mbind option_bind]. split.
    + f_equal. f_equal.
      rewrite insert_app_r_alt by reflexivity. rewrite Nat.sub_diag.
      cbn [insert list_insert].
      unfold grouped. rewrite Hkeys, first_occurrences_snoc.
      rewrite decide_False by exact Hnin'. fold keys.
      rewrite map_app. cbn [map]. f_equal.
      * apply map_ext_in. intros k' Hk'. symmetry. apply group_of_other.
        fold k. intros <-. apply Hnin. now apply list_elem_of_In.
      * f_equal. symmetry. now apply group_of_miss.
    + rewrite Hkeys, first_occurrences_snoc.
      rewrite decide_False by exact Hnin'. fold keys.
      unfold grouped. fold keys. rewrite length_map.
      now apply index_ok_snoc.
Qed.

Lemma fold_visit_grouped rest : forall seen index,
  index_ok (first_occurrences (map mapKey_of seen)) index ->
  exists index',
    fold_left visit rest (Some (grouped seen, index))
    = Some (grouped (seen ++ rest), index').
Proof.
  induction rest as [|product rest IH]; intros seen index Hok.
  - exists index. now rewrite app_nil_r.
  - cbn [fold_left].
    destruct (visit_grouped seen product index Hok) as (index' & -> & Hok').
    destruct (IH _ _ Hok') as (index'' & ->).
    exists index''. now rewrite <- app_assoc.
Qed.

(** The loop computes the grouping of its description, and never
    throws. *)
Lemma groupProductsByCategory_grouped products :
  groupProductsByCategory products = Some (grouped products).
Proof.
  unfold groupProductsByCategory.
  destruct (fold_visit_grouped products [] ∅) as (index & Hfold).
  - intros k i. rewrite lookup_empty. cbn. rewrite lookup_nil.
    split; discriminate.
  - change (@nil CatalogGroup) with (grouped []). now rewrite Hfold.
Qed.

(** *** What the grouping is *)

Lemma mapKey_of_None product :
  mapKey_of product = None
  <-> category product = None \/ category product = Some (-1).
Proof.
  unfold mapKey_of. destruct (category product) as [c|]; cbn.
  - destruct (Z.eqb_spec c (-1)) as [->|Hne]; split; intros H;
      try discriminate; auto.
    destruct H as [H|H]; [discriminate|]. congruence.
  - split; auto.
Qed.

Lemma filter_none {A} (P : A -> Prop) `{forall x, Decision (P x)}
      (l : list A) :
  (forall x, x ∈ l -> ~ P x) -> filter P l = [].
Proof.
  induction l as [|x l IH]; intros Hall; [reflexivity|].
  rewrite filter_cons, decide_False by (apply Hall; now left).
  apply IH. intros y Hy. apply Hall. now right.
Qed.

Lemma filter_all {A} (P : A -> Prop) `{forall x, Decision (P x)}
      (l : list A) :
  (forall x, x ∈ l -> P x) -> filter P l = l.
Proof.
  induction l as [|x l IH]; intros Hall; [reflexivity|].
  rewrite filter_cons, decide_True by (apply Hall; now left).
  f_equal. apply IH. intros y Hy. apply Hall. now right.
Qed.

Lemma members_split k keys products :
  k ∉ keys ->
  members k products ++ filter (fun p => mapKey_of p ∈ keys) products
  ≡ₚ filter (fun p => mapKey_of p ∈ k :: keys) products.
Proof.
  intros Hnin. unfold members.
  induction products as [|p ps IH]; [reflexivity|].
  rewrite !filter_cons.
  destruct (decide (mapKey_of p = k)) as [Heq|Hne].
  - rewrite decide_False by (rewrite Heq; exact Hnin).
    rewrite decide_True by (rewrite elem_of_cons; auto).
    cbn. now rewrite IH.
  - destruct (decide (mapKey_of p ∈ keys)) as [Hin|Hout].
    + rewrite decide_True by (rewrite elem_of_cons; auto).
      rewrite <- Permutation_middle. now rewrite IH.
    + rewrite decide_False; [exact IH|].
      rewrite elem_of_cons. intuition.
Qed.

Lemma concat_members keys products :
  NoDup keys ->
  concat (map (fun k => members k products) keys)
  ≡ₚ filter (fun p => mapKey_of p ∈ keys) products.
Proof.
  induction 1 as [|k keys Hnin _ IH]; cbn [map concat].
  - rewrite filter_none; [reflexivity|]. intros p _ Hp.
    now apply elem_of_nil in Hp.
  - rewrite IH. now apply members_split.
Qed.

Lemma concat_items_grouped products :
  concat (map items (grouped products)) ≡ₚ products.
Proof.
  unfold grouped. rewrite map_map. cbn [items group_of].
  rewrite concat_members by apply NoDup_first_occurrences.
  rewrite filter_all; [reflexivity|].
  intros p Hp. apply elem_of_first_occurrences.
  apply list_elem_of_In, in_map, list_elem_of_In, Hp.
Qed.

Lemma elem_of_grouped g products :
  g ∈ grouped products ->
  exists k, k ∈ map mapKey_of products /\ g = group_of products k.
Proof.
  intros Hg. apply list_elem_of_In, in_map_iff in Hg as (k & <- & Hk).
  exists k. split; [|reflexivity].
  now apply elem_of_first_occurrences, list_elem_of_In.
Qed.

Lemma elem_of_members p k products :
  p ∈ members k products <-> p ∈ products /\ mapKey_of p = k.
Proof. unfold members. rewrite list_elem_of_filter. tauto. Qed.

(** C4, as the code has it.  [groupProductsByCategory] returns, for
    every list of products: groups whose items, put end to end, are a
    rearrangement of the input, no product being in two groups; one
    group per key, in the order in which the keys first occur, holding
    the products of that key in their input order; each group labelled
    with the category and the category name of its first member, the
    name being "Sin categoría" when empty.  The products without a
    category share one key with those of category -1: they are all in
    one group, whose [categoryId] is that of its first member, hence
    [null] when no product has category -1. *)
Theorem groupProductsByCategory_partition products :
  exists groups,
    groupProductsByCategory products = Some groups /\
    concat (map items groups) ≡ₚ products /\
    (forall g1 g2 p,
        g1 ∈ groups -> g2 ∈ groups ->
        p ∈ items g1 -> p ∈ items g2 -> g1 = g2) /\
    Forall2 (fun k g => items g = members k products)
            (first_occurrences (map mapKey_of products)) groups /\
    (forall g, g ∈ groups ->
               exists first rest,
                 items g = first :: rest /\
                 categoryId g = category first /\
                 categoryName g
                 = if decide (category_name first = EmptyString)
                   then "Sin categoría" else category_name first) /\
    (forall g p,
        g ∈ groups -> p ∈ items g -> category p = None ->
        (forall q, q ∈ products ->
                   category q = None \/ category q = Some (-1) ->
                   q ∈ items g) /\
        ((forall q, q ∈ products -> category q <> Some (-1)) ->
         categoryId g = None)).
Proof.
  exists (grouped products).
  split; [apply groupProductsByCategory_grouped|].
  split; [apply concat_items_grouped|].
  split.
  { intros g1 g2 p Hg1 Hg2 Hp1 Hp2.
    apply elem_of_grouped in Hg1 as (k1 & _ & ->).
    apply elem_of_grouped in Hg2 as (k2 & _ & ->).
    cbn [items group_of] in Hp1, Hp2.
    apply elem_of_members in Hp1 as [_ <-].
    apply elem_of_members in Hp2 as [_ <-]. reflexivity. }
  split.
  { unfold grouped.
    induction (first_occurrences (map mapKey_of products)) as [|k ks IH];
      cbn [map]; constructor; [reflexivity|exact IH]. }
  split.
  { intros g Hg. apply elem_of_grouped in Hg as (k & Hk & ->).
    destruct (members_cons _ _ Hk) as (first & rest & Hm).
    exists first, rest. unfold group_of. cbn [items categoryId categoryName].
    rewrite Hm. cbn. split; [reflexivity|]. split; [reflexivity|].
    destruct (String.eqb_spec (category_name first) EmptyString);
      destruct (decide _); cbn; congruence. }
  intros g p Hg Hp Hcat.
  apply elem_of_grouped in Hg as (k & Hk & ->).
  cbn [items group_of] in Hp. apply elem_of_members in Hp as [Hp Hkey].
  assert (k = None) as ->.
  { rewrite <- Hkey. apply mapKey_of_None. now left. }
  split.
  - intros q Hq Hqcat. cbn [items group_of].
    apply elem_of_members. split; [exact Hq|]. now apply mapKey_of_None.
  - intros Hno. destruct (members_cons _ _ Hk) as (first & rest & Hm).
    unfold group_of. cbn [categoryId]. rewrite Hm. cbn.
    assert (first ∈ members None products) as Hfirst
        by (rewrite Hm; now left).
    apply elem_of_members in Hfirst as [Hin Hnone].
    apply mapKey_of_None in Hnone as [Hnone|Hminus]; [exact Hnone|].
    now destruct (Hno first Hin).
Qed.

(** *** The list of coffee shops *)

Section WithLocale.
Variable localeCompare : string -> string -> Z.

Hypothesis localeCompare_total :
  forall a b, localeCompare a b <= 0 \/ localeCompare b a <= 0.
Hypothesis localeCompare_trans :
  forall a b c,
    localeCompare a b <= 0 -> localeCompare b c <= 0 ->
    localeCompare a c <= 0.


End WithLocale.

Lemma byte_compare_total a b :
  Inputs.byte_compare a b <= 0 \/ Inputs.byte_compare b a <= 0.
Proof.
  unfold Inputs.byte_compare.
  pose proof (OrderedTypeEx.String_as_OT.cmp_antisym b a) as Hanti.
  unfold OrderedTypeEx.String_as_OT.cmp in Hanti. rewrite Hanti.
  destruct (String.compare a b); cbn; lia.
Qed.

Lemma byte_compare_trans a b c :
  Inputs.byte_compare a b <= 0 -> Inputs.byte_compare b c <= 0 ->
  Inputs.byte_compare a c <= 0.
Proof.
  unfold Inputs.byte_compare.
  destruct (String.compare a b) eqn:Hab; [| |lia].
  - apply OrderedTypeEx.String_as_OT.cmp_eq in Hab as ->.
    now destruct (String.compare b c).
  - destruct (String.compare b c) eqn:Hbc; [| |lia]; intros _ _.
    + apply OrderedTypeEx.String_as_OT.cmp_eq in Hbc as <-.
      now rewrite Hab.
    + apply OrderedTypeEx.String_as_OT.cmp_lt in Hab, Hbc.
      pose proof (OrderedTypeEx.String_as_OT.lt_trans _ _ _ Hab Hbc) as Hac.
      apply OrderedTypeEx.String_as_OT.cmp_lt in Hac.
      unfold OrderedTypeEx.String_as_OT.cmp in Hac. now rewrite Hac.
Qed.


(** C4 as stated fails: a product without a category lands in a group
    whose [categoryId] is -1, not [null]. *)
Lemma null_category_in_numbered_group :
  groupProductsByCategory [Inputs.oferta; Inputs.galleta]
  = Some [{| categoryId := Some (-1); categoryName := "Ofertas";
             items := [Inputs.oferta; Inputs.galleta] |}] /\
  category Inputs.galleta = None.
Proof. split; reflexivity. Qed.

End ClientWalletFacts.

(** * Part III.  More of the code *)

(** ** [lib/api.ts]: the edges of [apiFetch] *)

Module ApiBehaviour.
Import JS Api.

(** A response that is not ok and whose body is not JSON: with a body,
    [response.text()] in the [catch] block finds it used, and the caller
    gets that TypeError instead of an ApiError; without a body, the
    details of the ApiError are the empty text. *)
Theorem error_body_not_json P response :
  ok response = false -> bodyUsed response = false ->
  (forall bytes,
      JS.body response = Some bytes -> JSON_parse P bytes = None ->
      fst (read_response P response) = Throw TypeError /\
      forall message status details,
        fst (read_response P response) <> Throw (ApiError message status details)) /\
  (JS.body response = None -> JSON_parse P EmptyString = None ->
   fst (read_response P response)
   = Throw (ApiError (if decide (statusText response = EmptyString)
                      then "Solicitud fallida" else statusText response)
                     (status response) (str EmptyString))).
Proof.
  intros Hok Hused. split.
  - intros bytes Hbody Hparse.
    assert (fst (read_response P response) = Throw TypeError) as ->.
    { now apply (ApiFacts.read_response_not_ok_not_json P response bytes). }
    split; [reflexivity|discriminate].
  - intros Hbody Hparse.
    unfold read_response, Response_json, Response_text, consume_body.
    rewrite Hok, Hbody. cbn. rewrite Hparse. cbn. rewrite Hbody. cbn.
    now rewrite ApiFacts.message_of_statusText.
Qed.

Lemma error_body_not_json_witness :
  apiFetch Inputs.platform0 (fun _ _ => Return Inputs.text_502)
           "/api/orders/" Inputs.get_options = Throw TypeError /\
  apiFetch Inputs.platform0 (fun _ _ => Return Inputs.empty_500)
           "/api/orders/" Inputs.get_options
  = Throw (ApiError "Internal Server Error" 500 (str EmptyString)).
Proof.
  split.
  - exact (proj1 (proj1 (error_body_not_json Inputs.platform0 Inputs.text_502
                           eq_refl eq_refl)
                        "Bad Gateway" eq_refl eq_refl)).
  - exact (proj2 (error_body_not_json Inputs.platform0 Inputs.empty_500
                    eq_refl eq_refl) eq_refl eq_refl).
Defined.

(** What every request carries besides the token and the body: the
    method of the options or GET, the credentials mode "include", the
    Accept header of the caller or application/json, and every other
    header of the caller as it is. *)
Theorem request_defaults P options :
  init_method (request_init P options) = default "GET" (method options) /\
  init_credentials (request_init P options) = "include" /\
  init_headers (request_init P options) !! "Accept"
  = Some (default "application/json" (headers options !! "Accept")) /\
  (forall name,
      name <> "Accept" -> name <> "Authorization" ->
      name <> "Content-Type" ->
      init_headers (request_init P options) !! name
      = headers options !! name).
Proof.
  unfold request_init. cbn [init_method init_credentials init_headers].
  split; [reflexivity|]. split; [reflexivity|].
  assert (forall name (m : gmap string string),
             name <> "Authorization" -> name <> "Content-Type" ->
             (if negb (is_undefined (body options))
              then <[ "Content-Type" := "application/json" ]>
                     match token options with
                     | Some t =>
                         if truthy_string (Some t)
                         then <[ "Authorization" := "Bearer " +:+ t ]> m
                         else m
                     | None => m
                     end
              else match token options with
                   | Some t =>
                       if truthy_string (Some t)
                       then <[ "Authorization" := "Bearer " +:+ t ]> m
                       else m
                   | None => m
                   end) !! name = m !! name) as Hset.
  { intros name m Hauth Htype.
    destruct (negb (is_undefined (body options)));
      [rewrite lookup_insert_ne by congruence|];
      (destruct (token options) as [t|]; [|reflexivity]);
      (destruct (truthy_string (Some t)); [|reflexivity]);
      now rewrite lookup_insert_ne by congruence. }
  split.
  - rewrite Hset by discriminate. rewrite lookup_union.
    rewrite lookup_singleton_eq.
    now destruct (headers options !! "Accept").
  - intros name Haccept Hauth Htype. rewrite Hset by assumption.
    now apply ApiFacts.spread_headers_lookup.
Qed.

End ApiBehaviour.

(** ** [context/auth-context.tsx]: failures, routing, interleavings *)

Module AuthBehaviour.
Import JS AuthContext.

Section WithPlatform.
Variable P : platform.

(** A [login] whose token request fails rethrows the error, leaves
    tokens, user, storage and route as they were, ends with [loading]
    false and sets the message: the serialized details of an ApiError
    that has some, "Credenciales inválidas" for one that has none, and
    the generic message for any other error. *)
Theorem login_failure fetch credentials s err :
  fetch (fst (login_request credentials))
        (snd (login_request credentials)) = Throw err ->
  fst (login P fetch credentials s) = Throw err /\
  tokens (snd (login P fetch credentials s)) = tokens s /\
  user (snd (login P fetch credentials s)) = user s /\
  localStorage (snd (login P fetch credentials s)) = localStorage s /\
  router (snd (login P fetch credentials s)) = router s /\
  loading (snd (login P fetch credentials s)) = false /\
  error (snd (login P fetch credentials s))
  = Some match err with
         | ApiError _ _ details =>
             if truthy details then JSON_stringify P details
             else "Credenciales inválidas"
         | _ => "No se pudo iniciar sesión, inténtalo nuevamente."
         end.
Proof.
  intros Hfetch. unfold login. cbn [login_request fst snd] in *.
  rewrite Hfetch. cbn. repeat split.
Qed.

Lemma loadUserProfile_resume_result authTokens username response s :
  loadUserProfile_resume P authTokens username response s = (null, s) \/
  exists u r,
    loadUserProfile_resume P authTokens username response s
    = (object [("username", u); ("role", r)],
       persist P authTokens (object [("username", u); ("role", r)])
               (setUser (object [("username", u); ("role", r)]) s)).
Proof.
  unfold loadUserProfile_resume.
  destruct response as [data|e]; [|auto].
  destruct (Array_find_username username data) as [found|]; [|auto].
  destruct (truthy found); [|auto].
  destruct (get found "username") as [u|]; [|auto].
  destruct (get found "role") as [r|]; [|auto].
  right. eauto.
Qed.

Lemma loadUserProfile_result fetch authTokens username s :
  loadUserProfile P fetch authTokens username s = (null, s) \/
  exists u r,
    loadUserProfile P fetch authTokens username s
    = (object [("username", u); ("role", r)],
       persist P authTokens (object [("username", u); ("role", r)])
               (setUser (object [("username", u); ("role", r)]) s)).
Proof.
  unfold loadUserProfile.
  destruct (loadUserProfile_request authTokens) as [[path options]|];
    [|auto].
  apply loadUserProfile_resume_result.
Qed.

Lemma persist_router t u s : router (persist P t u s) = router s.
Proof. unfold persist. now destruct (truthy t). Qed.

Lemma persist_user t u s : user (persist P t u s) = user s.
Proof. unfold persist. now destruct (truthy t). Qed.

Lemma persist_error t u s : error (persist P t u s) = error s.
Proof. unfold persist. now destruct (truthy t). Qed.

Lemma cliente_iff (r : value) :
  strict_eq_string (if truthy r then r else undefined) "cliente" = true
  <-> r = str "cliente".
Proof.
  split.
  - destruct r as [| |b|n|x|xs|props]; cbn; try discriminate;
      try (destruct b; discriminate);
      try (destruct (negb _); discriminate).
    destruct (negb (String.eqb x EmptyString)); cbn; [|discriminate].
    intros H. apply String.eqb_eq in H. now subst.
  - intros ->. reflexivity.
Qed.

(** A [login] whose token request succeeds pushes exactly one route,
    "/cliente" or "/dashboard", and it is "/cliente" exactly when the
    user it leaves in the state has the role "cliente"; the error is
    cleared and [loading] is false. *)
Theorem login_destination fetch credentials s tokenResponse :
  fetch (fst (login_request credentials))
        (snd (login_request credentials)) = Return tokenResponse ->
  exists destination,
    router (snd (login P fetch credentials s)) = destination :: router s /\
    (destination = "/cliente" \/ destination = "/dashboard") /\
    (destination = "/cliente" <->
     get (user (snd (login P fetch credentials s))) "role"
     = Some (str "cliente")) /\
    error (snd (login P fetch credentials s)) = None /\
    loading (snd (login P fetch credentials s)) = false.
Proof.
  intros Hfetch. unfold login. cbn [login_request fst snd] in *.
  rewrite Hfetch.
  set (s1 := login_tokens_arrived P credentials tokenResponse (login_begin s)).
  assert (router s1 = router s /\ error s1 = None /\
          user s1 = baseUser credentials) as (Hr1 & He1 & Hu1).
  { unfold s1, login_tokens_arrived.
    rewrite persist_router, persist_error, persist_user. now cbn. }
  destruct (loadUserProfile_result fetch tokenResponse
              (credentials_username credentials) s1)
    as [-> | (u & r & ->)].
  - exists "/dashboard". cbn. rewrite Hr1, He1, Hu1. cbn.
    repeat split; auto; discriminate.
  - unfold login_finish.
    change (get (object [("username", u); ("role", r)]) "role")
      with (Some r).
    cbn [snd router router_push setLoading user error loading].
    rewrite persist_router, persist_error, persist_user. cbn.
    rewrite Hr1, He1.
    destruct (strict_eq_string (if truthy r then r else undefined) "cliente")
      eqn:Hrole.
    + exists "/cliente". repeat split; auto.
      intros _. f_equal. now apply cliente_iff.
    + exists "/dashboard". repeat split; auto; [discriminate|].
      intros [= Hr]. apply cliente_iff in Hr. congruence.
Qed.

Lemma get_username (u : AuthUser) :
  get (AuthUser_value u) "username" = Some (str (username u)).
Proof. reflexivity. Qed.

Lemma get_role (u : AuthUser) :
  get (AuthUser_value u) "role"
  = Some match role u with Some r => str r | None => undefined end.
Proof. destruct u as [n [r|]]; reflexivity. Qed.

Lemma find_username_users username (users : list AuthUser) :
  find_username username (map AuthUser_value users)
  = Some match find (fun u => String.eqb (AuthContext.username u) username)
                    users with
         | Some found => AuthUser_value found
         | None => undefined
         end.
Proof.
  induction users as [|u users IH]; [reflexivity|].
  cbn [map find_username find]. rewrite get_username.
  cbn [strict_eq_string].
  destruct (String.eqb (AuthContext.username u) username); [reflexivity|].
  exact IH.
Qed.

(** [loadUserProfile] over the list of users the server answers with:
    the first entry with the user name becomes the user of the state,
    name and role, and is persisted with the tokens of the call; without
    such an entry, or when the request fails, nothing changes and the
    result is [null].  The tokens of the state are never touched. *)
Theorem loadUserProfile_first_match fetch authTokens name s access :
  get authTokens "access" = Some access ->
  (forall users,
      fetch "/api/users/"
            {| Api.method := None; Api.headers := ∅; Api.body := undefined;
               Api.token := as_token access |}
      = Return (array (map AuthUser_value users)) ->
      match find (fun u => String.eqb (username u) name) users with
      | Some found =>
          fst (loadUserProfile P fetch authTokens name s) = enriched found /\
          user (snd (loadUserProfile P fetch authTokens name s))
          = enriched found /\
          tokens (snd (loadUserProfile P fetch authTokens name s))
          = tokens s /\
          localStorage (snd (loadUserProfile P fetch authTokens name s))
            !! STORAGE_KEY
          = if truthy authTokens
            then Some (JSON_stringify P (snapshot authTokens (enriched found)))
            else None
      | None => loadUserProfile P fetch authTokens name s = (null, s)
      end) /\
  (forall err,
      fetch "/api/users/"
            {| Api.method := None; Api.headers := ∅; Api.body := undefined;
               Api.token := as_token access |}
      = Throw err ->
      loadUserProfile P fetch authTokens name s = (null, s)).
Proof.
  intros Haccess. unfold loadUserProfile, loadUserProfile_request.
  rewrite Haccess. split.
  - intros users ->. unfold loadUserProfile_resume, Array_find_username.
    rewrite find_username_users.
    destruct (find _ users) as [found|]; [|reflexivity].
    rewrite get_username, get_role.
    change (truthy (AuthUser_value found)) with true. cbn iota.
    fold (enriched found). cbn [fst snd].
    rewrite AuthFacts.persist_stored.
    destruct (AuthFacts.persist_memory P authTokens (enriched found)
                (setUser (enriched found) s)) as (-> & -> & _).
    now cbn.
  - intros err ->. reflexivity.
Qed.

(** Whatever the order in which calls of [login] and [logout] and the
    answers of the server interleave, what is stored under the key is
    nothing, or the text of a snapshot with truthy tokens that [persist]
    wrote. *)
Theorem stored_by_persist_always c c' :
  rtc (turn P) c c' ->
  stored_by_persist P (fst c) -> stored_by_persist P (fst c').
Proof.
  assert (forall t u s, stored_by_persist P (persist P t u s)) as Hpersist.
  { intros t u s. unfold stored_by_persist.
    rewrite AuthFacts.persist_stored.
    destruct (truthy t) eqn:Ht; [right; eauto|now left]. }
  assert (forall s s', localStorage s' = localStorage s ->
                       stored_by_persist P s -> stored_by_persist P s')
    as Hsame.
  { intros s s' Heq. unfold stored_by_persist. now rewrite Heq. }
  induction 1 as [c|c1 c2 c3 Hturn _ IH]; [auto|].
  intros Hstored. apply IH. clear IH.
  destruct Hturn as [credentials s ps
                    |credentials tokenResponse s ps1 ps2
                    |credentials err s ps1 ps2
                    |credentials tokenResponse response s ps1 ps2
                    |s ps]; cbn [fst] in *.
  - now apply (Hsame s).
  - destruct (loadUserProfile_request tokenResponse); cbn [fst].
    + apply Hpersist.
    + eapply Hsame; [|apply (Hpersist tokenResponse (baseUser credentials)
                               (setUser (baseUser credentials)
                                        (setTokens tokenResponse s)))].
      reflexivity.
  - now apply (Hsame s).
  - destruct (loadUserProfile_resume_result tokenResponse
                (credentials_username credentials) response s)
      as [-> | (u & r & ->)]; cbn [fst].
    + now apply (Hsame s).
    + eapply Hsame; [|apply (Hpersist tokenResponse
                               (object [("username", u); ("role", r)])
                               (setUser (object [("username", u); ("role", r)])
                                        s))].
      reflexivity.
  - eapply Hsame; [|apply (Hpersist null null
                             (setUser null (setTokens null s)))].
    reflexivity.
Qed.

(** [register]: when the creation of the user fails, the error is
    rethrown, no login is tried, tokens, user, storage and route stay as
    they were and the message is set; when it succeeds, the session ends
    as the [login] of the new user leaves it. *)
Theorem register_then_login fetch payload s :
  (forall err,
      fetch (fst (register_request payload))
            (snd (register_request payload)) = Throw err ->
      fst (register P fetch payload s) = Throw err /\
      tokens (snd (register P fetch payload s)) = tokens s /\
      user (snd (register P fetch payload s)) = user s /\
      localStorage (snd (register P fetch payload s)) = localStorage s /\
      router (snd (register P fetch payload s)) = router s /\
      loading (snd (register P fetch payload s)) = false /\
      error (snd (register P fetch payload s))
      = Some match err with
             | ApiError _ _ details =>
                 if truthy details then JSON_stringify P details
                 else "No se pudo registrar el usuario."
             | _ => "Ocurrió un error inesperado durante el registro."
             end) /\
  (forall created,
      fetch (fst (register_request payload))
            (snd (register_request payload)) = Return created ->
      let logged :=
        login P fetch
              {| credentials_username := payload_username payload;
                 credentials_password := payload_password payload |}
              (setError None (setLoading true s)) in
      fst (register P fetch payload s) = fst logged /\
      tokens (snd (register P fetch payload s)) = tokens (snd logged) /\
      user (snd (register P fetch payload s)) = user (snd logged) /\
      localStorage (snd (register P fetch payload s))
      = localStorage (snd logged) /\
      router (snd (register P fetch payload s)) = router (snd logged) /\
      loading (snd (register P fetch payload s)) = false).
Proof.
  split.
  - intros err Hfetch. unfold register. cbn [register_request fst snd] in *.
    rewrite Hfetch. cbn. repeat split.
  - intros created Hfetch logged. unfold register.
    cbn [register_request fst snd] in *. rewrite Hfetch. fold logged.
    destruct logged as [[[]|err] s1]; cbn; repeat split.
Qed.

(** The effect over a stored value that is JSON: the value [null] is
    removed like a text that is no JSON (reading its [tokens] throws
    inside the [try]); of any other value the [tokens] and [user]
    properties go to the state, [undefined] for a missing one, and the
    entry stays. *)
Theorem rehydrate_json storage stored parsed :
  storage !! STORAGE_KEY = Some stored ->
  stored <> EmptyString ->
  JSON_parse P stored = Some parsed ->
  (parsed = null ->
   localStorage (rehydrate P (mount storage)) = delete STORAGE_KEY storage /\
   tokens (rehydrate P (mount storage)) = null /\
   user (rehydrate P (mount storage)) = null) /\
  (forall tokens0 user0,
      get parsed "tokens" = Some tokens0 ->
      get parsed "user" = Some user0 ->
      localStorage (rehydrate P (mount storage)) = storage /\
      tokens (rehydrate P (mount storage)) = tokens0 /\
      user (rehydrate P (mount storage)) = user0) /\
  loading (rehydrate P (mount storage)) = false.
Proof.
  intros Hsto Hne Hparse. unfold rehydrate. cbn [localStorage mount].
  rewrite Hsto. cbn [truthy_string].
  destruct (String.eqb_spec stored EmptyString) as [?|_]; [contradiction|].
  cbn [negb]. rewrite Hparse. split; [|split; [|reflexivity]].
  - intros ->. now cbn.
  - intros t u -> ->. now cbn.
Qed.

End WithPlatform.

Lemma login_failure_witness :
  error (snd (login Inputs.platform0 Inputs.offline Inputs.ana Inputs.fresh))
  = Some "No se pudo iniciar sesión, inténtalo nuevamente." /\
  tokens (snd (login Inputs.platform0 Inputs.offline Inputs.ana Inputs.fresh))
  = null.
Proof.
  destruct (login_failure Inputs.platform0 Inputs.offline Inputs.ana
              Inputs.fresh TypeError eq_refl)
    as (_ & Htok & _ & _ & _ & _ & Herr).
  split; [exact Herr|exact Htok].
Defined.

Lemma login_destination_witness :
  exists destination,
    router (snd (login Inputs.platform0 Inputs.server Inputs.ana Inputs.fresh))
    = destination :: router Inputs.fresh /\
    (destination = "/cliente" \/ destination = "/dashboard").
Proof.
  destruct (login_destination Inputs.platform0 Inputs.server Inputs.ana
              Inputs.fresh Inputs.ana_tokens eq_refl)
    as (destination & Hrouter & Hcases & _).
  exists destination. split; [exact Hrouter|exact Hcases].
Defined.

Lemma loadUserProfile_first_match_witness :
  (fst (loadUserProfile Inputs.platform0 Inputs.server Inputs.ana_tokens
                        "ana" Inputs.fresh)
   = object [("username", str "ana"); ("role", str "cliente")] /\
   user (snd (loadUserProfile Inputs.platform0 Inputs.server
                              Inputs.ana_tokens "ana" Inputs.fresh))
   = object [("username", str "ana"); ("role", str "cliente")] /\
   tokens (snd (loadUserProfile Inputs.platform0 Inputs.server
                                Inputs.ana_tokens "ana" Inputs.fresh))
   = tokens Inputs.fresh /\
   localStorage (snd (loadUserProfile Inputs.platform0 Inputs.server
                                      Inputs.ana_tokens "ana" Inputs.fresh))
     !! STORAGE_KEY
   = Some (JSON_stringify
             Inputs.platform0
             (snapshot Inputs.ana_tokens
                       (object [("username", str "ana");
                                ("role", str "cliente")])))) /\
  loadUserProfile Inputs.platform0 Inputs.offline Inputs.ana_tokens "ana"
                  Inputs.fresh = (null, Inputs.fresh).
Proof.
  split.
  - exact (proj1 (loadUserProfile_first_match
                    Inputs.platform0 Inputs.server Inputs.ana_tokens "ana"
                    Inputs.fresh (str "eyJhY2Nlc3M") eq_refl)
                 [{| username := "luis"; role := Some "cafeteria" |};
                  {| username := "ana"; role := Some "cliente" |}]
                 eq_refl).
  - exact (proj2 (loadUserProfile_first_match
                    Inputs.platform0 Inputs.offline Inputs.ana_tokens "ana"
                    Inputs.fresh (str "eyJhY2Nlc3M") eq_refl)
                 TypeError eq_refl).
Defined.

Lemma stored_by_persist_always_witness :
  stored_by_persist Inputs.platform0 (fst Inputs.race4).
Proof.
  apply (stored_by_persist_always Inputs.platform0 (Inputs.fresh, [])).
  - eapply rtc_l; [apply (turn_login Inputs.platform0 Inputs.ana)|].
    eapply rtc_l;
      [apply (turn_tokens Inputs.platform0 Inputs.ana Inputs.ana_tokens
                          _ [] [])|].
    eapply rtc_l; [apply turn_logout|].
    eapply rtc_l;
      [apply (turn_profile Inputs.platform0 Inputs.ana Inputs.ana_tokens
                           (Return Inputs.users) _ [] [])|].
    apply rtc_refl.
  - left. reflexivity.
Defined.

Lemma rehydrate_json_witness :
  localStorage (rehydrate Inputs.platform0 (mount Inputs.stored_null))
  = delete STORAGE_KEY Inputs.stored_null.
Proof.
  refine (proj1 (proj1 (rehydrate_json Inputs.platform0 Inputs.stored_null
                          "null" null _ _ eq_refl) eq_refl)).
  - apply lookup_singleton_eq.
  - discriminate.
Defined.

End AuthBehaviour.

(** ** The [Map] and the toggled list *)

Module CollectionsFacts.
Import Collections.

Section Map.
Context {K V : Type} `{EqDecision K}.
Implicit Types (m : list (K * V)) (k : K) (v : V).

Lemma Map_get_set k' k v m :
  Map_get k' (Map_set k v m)
  = if decide (k' = k) then Some v else Map_get k' m.
Proof.
  induction m as [|[k0 v0] m IH]; cbn [Map_set Map_get].
  - now destruct (decide (k' = k)).
  - destruct (decide (k = k0)) as [->|Hne]; cbn [Map_get].
    + now destruct (decide (k' = k0)).
    + destruct (decide (k' = k0)) as [->|Hne'].
      * rewrite decide_False by congruence. reflexivity.
      * exact IH.
Qed.

Lemma keys_Map_set k v m :
  map fst (Map_set k v m)
  = if decide (k ∈ map fst m) then map fst m else map fst m ++ [k].
Proof.
  induction m as [|[k0 v0] m IH]; cbn [Map_set map fst app].
  - rewrite decide_False; [reflexivity|]. apply not_elem_of_nil.
  - destruct (decide (k = k0)) as [->|Hne]; cbn [map fst].
    + rewrite decide_True; [reflexivity|]. now left.
    + rewrite IH. destruct (decide (k ∈ map fst m)) as [Hin|Hnin].
      * rewrite decide_True; [reflexivity|]. now right.
      * rewrite decide_False; [reflexivity|].
        rewrite elem_of_cons. intuition.
Qed.

Lemma NoDup_Map_set k v m :
  NoDup (map fst m) -> NoDup (map fst (Map_set k v m)).
Proof.
  intros Hnd. rewrite keys_Map_set. destruct (decide _) as [|Hnin]; [exact Hnd|].
  apply NoDup_app. split; [exact Hnd|]. split; [|apply NoDup_singleton].
  intros x Hx Hx'. apply list_elem_of_singleton in Hx'. now subst.
Qed.

Lemma Map_get_elem_of k v m :
  NoDup (map fst m) -> (k, v) ∈ m <-> Map_get k m = Some v.
Proof.
  induction m as [|[k0 v0] m IH]; intros Hnd; cbn [Map_get].
  - split; [intros Hin; now apply elem_of_nil in Hin|discriminate].
  - cbn [map fst] in Hnd. apply NoDup_cons in Hnd as [Hnin Hnd].
    rewrite elem_of_cons, (IH Hnd).
    destruct (decide (k = k0)) as [->|Hne].
    + split; [|intros [= ->]; now left].
      intros [[= ->]|Hget]; [reflexivity|].
      apply (IH Hnd) in Hget. destruct Hnin.
      apply list_elem_of_In, (in_map fst) in Hget.
      now apply list_elem_of_In in Hget.
    + split; [intros [[= -> _]|Hget]; [contradiction|exact Hget]|auto].
Qed.

Lemma NoDup_set_all entries m :
  NoDup (map fst m) -> NoDup (map fst (set_all entries m)).
Proof.
  revert m. induction entries as [|e entries IH]; intros m Hnd; [exact Hnd|].
  apply IH. now apply NoDup_Map_set.
Qed.

(** The last [set] of a key wins. *)
Lemma Map_get_set_all k entries m :
  Map_get k (set_all entries m)
  = match last (filter (fun e => e.1 = k) entries) with
    | Some e => Some e.2
    | None => Map_get k m
    end.
Proof.
  revert m. induction entries as [|e entries IH]; intros m; [reflexivity|].
  cbn [set_all fold_left]. fold (set_all entries (Map_set e.1 e.2 m)).
  rewrite IH, filter_cons, Map_get_set.
  destruct (decide (e.1 = k)) as [Heq|Hne].
  - rewrite last_cons. rewrite decide_True by congruence.
    now destruct (last _).
  - now rewrite decide_False by congruence.
Qed.
End Map.

Lemma fold_left_map_entries {A K V} `{EqDecision K}
      (key : A -> K) (val : A -> V) (l : list A) (m : list (K * V)) :
  fold_left (fun m x => Map_set (key x) (val x) m) l m
  = set_all (map (fun x => (key x, val x)) l) m.
Proof.
  revert m. induction l as [|x l IH]; intros m; [reflexivity|].
  cbn [fold_left map]. rewrite IH. reflexivity.
Qed.

Lemma set_all_app {K V} `{EqDecision K} (e1 e2 : list (K * V)) m :
  set_all e2 (set_all e1 m) = set_all (e1 ++ e2) m.
Proof. unfold set_all. now rewrite fold_left_app. Qed.

(** The toggled list: the element changes sides, the others stay, and a
    list without repetition stays one. *)
Lemma elem_of_toggle x prev y :
  y ∈ toggle x prev <-> (y <> x /\ y ∈ prev) \/ (y = x /\ x ∉ prev).
Proof.
  unfold toggle. destruct (bool_decide_reflect (x ∈ prev)) as [Hin|Hnin].
  - rewrite list_elem_of_filter. intuition.
  - rewrite elem_of_app, list_elem_of_singleton.
    destruct (decide (y = x)) as [->|Hne]; intuition.
Qed.

Lemma NoDup_toggle x prev : NoDup prev -> NoDup (toggle x prev).
Proof.
  intros Hnd. unfold toggle.
  destruct (bool_decide_reflect (x ∈ prev)) as [Hin|Hnin].
  - now apply NoDup_filter.
  - apply NoDup_app. split; [exact Hnd|]. split; [|apply NoDup_singleton].
    intros y Hy Hy'. apply list_elem_of_singleton in Hy'. now subst.
Qed.

Lemma filter_absent (x : Z) (prev : list Z) :
  x ∉ prev -> filter (fun id => id <> x) prev = prev.
Proof.
  induction prev as [|y l IH]; [reflexivity|].
  rewrite not_elem_of_cons. intros [Hne Hnin].
  rewrite filter_cons, decide_True by congruence. now rewrite IH.
Qed.

Lemma filter_present (x : Z) (prev : list Z) :
  NoDup prev -> x ∈ prev -> filter (fun id => id <> x) prev ++ [x] ≡ₚ prev.
Proof.
  induction 1 as [|y l Hnin Hnd IH]; [now intros ?%elem_of_nil|].
  rewrite filter_cons. destruct (decide (y = x)) as [->|Hne]; intros Hin.
  - rewrite decide_False by tauto. rewrite filter_absent by exact Hnin.
    symmetry. apply Permutation_cons_append.
  - rewrite decide_True by exact Hne.
    apply elem_of_cons in Hin as [->|Hin]; [congruence|].
    cbn [app]. constructor. now apply IH.
Qed.

(** Toggling an element of a list without repetitions twice gives the
    elements of the list back: the very list when the element was not
    in it, and the list with the element moved to its end when it
    was. *)
Theorem toggle_twice x prev :
  NoDup prev ->
  toggle x (toggle x prev) ≡ₚ prev /\
  (x ∉ prev -> toggle x (toggle x prev) = prev) /\
  (x ∈ prev ->
   toggle x (toggle x prev) = filter (fun id => id <> x) prev ++ [x]).
Proof.
  intros Hnd.
  assert (x ∉ prev -> toggle x (toggle x prev) = prev) as Habsent.
  { intros Hnin. unfold toggle at 2.
    rewrite bool_decide_eq_false_2 by exact Hnin.
    unfold toggle. rewrite bool_decide_eq_true_2
      by (rewrite elem_of_app, list_elem_of_singleton; auto).
    rewrite filter_app, filter_absent by exact Hnin.
    rewrite filter_cons, decide_False by tauto.
    apply app_nil_r. }
  assert (x ∈ prev ->
          toggle x (toggle x prev)
          = filter (fun id => id <> x) prev ++ [x]) as Hpresent.
  { intros Hin. unfold toggle at 2.
    rewrite bool_decide_eq_true_2 by exact Hin.
    unfold toggle. rewrite bool_decide_eq_false_2; [reflexivity|].
    rewrite list_elem_of_filter. tauto. }
  split; [|split; assumption].
  destruct (decide (x ∈ prev)) as [Hin|Hnin].
  - rewrite Hpresent by exact Hin. now apply filter_present.
  - now rewrite Habsent.
Qed.

Lemma toggle_twice_witness :
  NoDup [1; 2; 3] /\ toggle 2 (toggle 2 [1; 2; 3]) ≡ₚ [1; 2; 3].
Proof.
  assert (NoDup [1; 2; 3]) as Hnd
      by (apply (bool_decide_unpack _); vm_compute; exact I).
  split; [exact Hnd|]. exact (proj1 (toggle_twice 2 [1; 2; 3] Hnd)).
Defined.

End CollectionsFacts.

(** ** [app/cliente/page.tsx]: catalogs, expanded locals, options *)

Module WalletBehaviour.
Import JS Collections ClientWallet.

Lemma error_message_not_empty fallback err :
  fallback <> EmptyString -> error_message fallback err <> EmptyString.
Proof.
  intros Hfb. unfold error_message.
  destruct err as [m st [| |b|n|details|xs|props]| |]; try exact Hfb.
  cbn [truthy]. destruct (String.eqb_spec details EmptyString); cbn;
    [exact Hfb|assumption].
Qed.

Lemma expandedLocals_loadCatalog localId s response :
  expandedLocals (loadCatalog localId response s) = expandedLocals s.
Proof.
  unfold loadCatalog. destruct (catalogs s !! localId); [reflexivity|].
  now destruct response.
Qed.

(** [loadCatalog].  A local whose catalog is there, even an empty one,
    is never loaded again.  Otherwise a successful answer stores its
    active products in their order under the local and drops the error
    of the local; a failed one stores a message that is not empty and
    leaves the catalogs alone; both end with the loading flag of the
    local false, and touch nothing of any other local.  A second call
    after a success changes nothing. *)
Theorem loadCatalog_effect localId s :
  (forall response,
      is_Some (catalogs s !! localId) -> loadCatalog localId response s = s) /\
  (catalogs s !! localId = None ->
   (forall response,
       let s' := loadCatalog localId (Return response) s in
       catalogs s' !! localId
       = Some (filter (fun product => is_active product = true) response) /\
       catalogErrors s' !! localId = None /\
       catalogLoading s' !! localId = Some false /\
       forall again, loadCatalog localId again s' = s') /\
   (forall err,
       let s' := loadCatalog localId (Throw err) s in
       catalogs s' = catalogs s /\
       (exists message,
           catalogErrors s' !! localId = Some message /\
           message <> EmptyString) /\
       catalogLoading s' !! localId = Some false)) /\
  (forall response other,
      other <> localId ->
      let s' := loadCatalog localId response s in
      catalogs s' !! other = catalogs s !! other /\
      catalogErrors s' !! other = catalogErrors s !! other /\
      catalogLoading s' !! other = catalogLoading s !! other) /\
  (forall response,
      expandedLocals (loadCatalog localId response s) = expandedLocals s).
Proof.
  split; [|split; [|split]].
  - intros response [ps Hps]. unfold loadCatalog. now rewrite Hps.
  - intros Hnone. split.
    + intros response s'. unfold s', loadCatalog. rewrite Hnone.
      cbn [catalogs catalogErrors catalogLoading].
      rewrite !lookup_insert_eq, lookup_delete_eq.
      split.
      { f_equal. apply list_filter_iff. intros product.
        destruct (is_active product); split; congruence. }
      split; [reflexivity|]. split; [reflexivity|].
      intros again. reflexivity.
    + intros err s'. unfold s', loadCatalog. rewrite Hnone.
      cbn [catalogs catalogErrors catalogLoading].
      rewrite !lookup_insert_eq. split; [reflexivity|].
      split; [|reflexivity].
      eexists. split; [reflexivity|].
      now apply error_message_not_empty.
  - intros response other Hne s'. unfold s', loadCatalog.
    destruct (catalogs s !! localId); [auto|].
    destruct response as [response|err];
      cbn [catalogs catalogErrors catalogLoading];
      rewrite ?lookup_insert_ne, ?lookup_delete_ne by congruence; auto.
  - apply expandedLocals_loadCatalog.
Qed.

(** [handleToggleLocal]: the local changes sides in the list of expanded
    locals and the others stay; a list without repetition stays one; and
    toggling twice gives back the same set of expanded locals. *)
Theorem handleToggleLocal_expanded localId response s :
  (forall other,
      other ∈ expandedLocals (handleToggleLocal localId response s) <->
      (other <> localId /\ other ∈ expandedLocals s) \/
      (other = localId /\ localId ∉ expandedLocals s)) /\
  (NoDup (expandedLocals s) ->
   NoDup (expandedLocals (handleToggleLocal localId response s))) /\
  (forall again other,
      other ∈ expandedLocals
                (handleToggleLocal localId again
                   (handleToggleLocal localId response s)) <->
      other ∈ expandedLocals s).
Proof.
  assert (forall r t, expandedLocals (handleToggleLocal localId r t)
                      = toggle localId (expandedLocals t)) as Hexp.
  { intros r t. unfold handleToggleLocal.
    destruct (catalogs t !! localId); [reflexivity|].
    now rewrite expandedLocals_loadCatalog. }
  split; [|split].
  - intros other. rewrite Hexp. apply CollectionsFacts.elem_of_toggle.
  - intros Hnd. rewrite Hexp. now apply CollectionsFacts.NoDup_toggle.
  - intros again other. rewrite !Hexp.
    rewrite !CollectionsFacts.elem_of_toggle.
    destruct (decide (other = localId)) as [->|Hne];
      destruct (decide (localId ∈ expandedLocals s)); intuition.
Qed.

(** *** The options of the selector *)

Lemma localOptions_values localeCompare locals balances rewards :
  localOptions localeCompare locals balances rewards
  = Array_sort (fun a b => localeCompare (option_name a) (option_name b))
      (Map_values
         (Collections.set_all
            (map as_option (option_entries locals balances rewards)) [])).
Proof.
  unfold localOptions, option_entries.
  rewrite (CollectionsFacts.fold_left_map_entries local_id
             (fun local => {| option_id := local_id local;
                              option_name := name local |})).
  rewrite (CollectionsFacts.fold_left_map_entries balance_local
             (fun balance => {| option_id := balance_local balance;
                                option_name := balance_local_name balance |})).
  rewrite (CollectionsFacts.fold_left_map_entries reward_local
             (fun reward => {| option_id := reward_local reward;
                               option_name := reward_local_name reward |})).
  rewrite !CollectionsFacts.set_all_app, !map_app, !map_map.
  reflexivity.
Qed.

Lemma last_filter_as_option k (entries : list (Z * string)) :
  last (filter (fun e : Z * LocalOption => e.1 = k) (map as_option entries))
  = as_option <$> last (filter (fun e : Z * string => e.1 = k) entries).
Proof.
  induction entries as [|e entries IH]; [reflexivity|].
  cbn [map]. rewrite !filter_cons. cbn [as_option fst].
  destruct (decide (e.1 = k)); [|exact IH].
  rewrite !last_cons, IH.
  now destruct (last (filter (fun e1 : Z * string => e1.1 = k) entries)).
Qed.

Lemma elem_of_options (o : LocalOption) (entries : list (Z * string)) :
  o ∈ Map_values (Collections.set_all (map as_option entries) [])
  <-> last (filter (fun e : Z * string => e.1 = option_id o) entries)
      = Some (option_id o, option_name o).
Proof.
  assert (NoDup (map fst (Collections.set_all (map as_option entries)
                            (@nil (Z * LocalOption))))) as Hnd
      by (apply CollectionsFacts.NoDup_set_all; constructor).
  unfold Map_values. split.
  - intros Hin. apply list_elem_of_In, in_map_iff in Hin as ([k o'] & Ho & Hin).
    cbn in Ho. subst o'. apply list_elem_of_In in Hin.
    apply (CollectionsFacts.Map_get_elem_of _ _ _ Hnd) in Hin.
    rewrite CollectionsFacts.Map_get_set_all, last_filter_as_option in Hin.
    destruct (last (filter _ entries)) as [[k' n]|] eqn:Hlast;
      [|discriminate].
    cbn in Hin. injection Hin as <-. cbn.
    pose proof Hlast as Hk.
    apply last_Some_elem_of, list_elem_of_filter in Hk as [Hk _].
    cbn in Hk. subst k'. exact Hlast.
  - intros Hlast. apply list_elem_of_In, in_map_iff.
    exists (option_id o, o). split; [reflexivity|].
    apply list_elem_of_In, (CollectionsFacts.Map_get_elem_of _ _ _ Hnd).
    rewrite CollectionsFacts.Map_get_set_all, last_filter_as_option, Hlast.
    cbn. now destruct o.
Qed.

Lemma option_ids_keys (entries : list (Z * string)) :
  map option_id
      (Map_values (Collections.set_all (map as_option entries) []))
  = map fst (Collections.set_all (map as_option entries)
               (@nil (Z * LocalOption))).
Proof.
  assert (NoDup (map fst (Collections.set_all (map as_option entries)
                            (@nil (Z * LocalOption))))) as Hnd
      by (apply CollectionsFacts.NoDup_set_all; constructor).
  unfold Map_values. rewrite map_map. apply map_ext_in.
  intros [k o] Hin. cbn. apply list_elem_of_In in Hin.
  apply (CollectionsFacts.Map_get_elem_of _ _ _ Hnd) in Hin.
  rewrite CollectionsFacts.Map_get_set_all, last_filter_as_option in Hin.
  destruct (last (filter _ entries)) as [[k' n]|] eqn:Hlast; [|discriminate].
  cbn in Hin. injection Hin as <-. cbn.
  apply last_Some_elem_of, list_elem_of_filter in Hlast as [Hk _].
  exact Hk.
Qed.

Section WithLocale.
Variable localeCompare : string -> string -> Z.

Hypothesis localeCompare_total :
  forall a b, localeCompare a b <= 0 \/ localeCompare b a <= 0.
Hypothesis localeCompare_trans :
  forall a b c,
    localeCompare a b <= 0 -> localeCompare b c <= 0 ->
    localeCompare a c <= 0.

(** [localOptions]: one option per id, in ascending order of name.  An
    option is offered exactly when it is the last entry of its id among
    the locals, then the balances, then the rewards: every local met in
    one of the three lists has its option, named by the last list that
    knows it. *)
Theorem localOptions_last_wins locals balances rewards :
  let options := localOptions localeCompare locals balances rewards in
  NoDup (map option_id options) /\
  (forall o,
      o ∈ options <->
      last (filter (fun e => e.1 = option_id o)
                   (option_entries locals balances rewards))
      = Some (option_id o, option_name o)) /\
  (forall i,
      i ∈ map option_id options <->
      i ∈ map local_id locals \/ i ∈ map balance_local balances
      \/ i ∈ map reward_local rewards) /\
  StronglySorted
    (fun a b => localeCompare (option_name a) (option_name b) <= 0) options.
Proof.
  intros options. unfold options. rewrite localOptions_values.
  set (entries := option_entries locals balances rewards).
  set (values := Map_values (Collections.set_all (map as_option entries) [])).
  assert (forall o, o ∈ Array_sort
                        (fun a b => localeCompare (option_name a) (option_name b))
                        values
                    <-> last (filter (fun e => e.1 = option_id o) entries)
                        = Some (option_id o, option_name o)) as Hmem.
  { intros o. rewrite JSFacts.Array_sort_Permutation.
    apply elem_of_options. }
  split; [|split; [exact Hmem|split]].
  - rewrite JSFacts.Array_sort_Permutation. unfold values.
    rewrite option_ids_keys.
    apply CollectionsFacts.NoDup_set_all. constructor.
  - intros i.
    assert (i ∈ map fst entries <->
            i ∈ map local_id locals \/ i ∈ map balance_local balances
            \/ i ∈ map reward_local rewards) as <-.
    { unfold entries, option_entries. rewrite !map_app, !map_map.
      cbn [fst]. rewrite !elem_of_app. reflexivity. }
    split.
    + intros Hi. apply list_elem_of_In, in_map_iff in Hi as (o & <- & Ho).
      apply list_elem_of_In, Hmem in Ho.
      apply last_Some_elem_of, list_elem_of_filter in Ho as [_ Ho].
      apply list_elem_of_In, (in_map fst) in Ho.
      now apply list_elem_of_In in Ho.
    + intros Hi. apply list_elem_of_In, in_map_iff in Hi as ([k n] & <- & He).
      apply list_elem_of_In in He. cbn [fst].
      destruct (last (filter (fun e : Z * string => e.1 = k) entries))
        as [[k' n']|] eqn:Hlast.
      * pose proof Hlast as Hk.
        apply last_Some_elem_of, list_elem_of_filter in Hk as [Hk _].
        cbn in Hk. subst k'.
        apply list_elem_of_In, in_map_iff.
        exists {| option_id := k; option_name := n' |}.
        split; [reflexivity|]. apply list_elem_of_In, Hmem. exact Hlast.
      * apply last_None in Hlast.
        assert ((k, n) ∈ filter (fun e : Z * string => e.1 = k) entries)
          as Hin by (apply list_elem_of_filter; auto).
        rewrite Hlast in Hin. now apply elem_of_nil in Hin.
  - apply (JSFacts.Array_sort_sorted
             (fun a b => localeCompare (option_name a) (option_name b))).
    + intros a b. apply localeCompare_total.
    + intros a b c. apply localeCompare_trans.
Qed.

End WithLocale.

Lemma localOptions_last_wins_witness :
  localOptions Inputs.byte_compare Inputs.locals_response
               [Inputs.a_balance 2 "Molino Viejo" 120;
                Inputs.a_balance 9 "Andes" 30] []
  = [{| option_id := 9; option_name := "Andes" |};
     {| option_id := 3; option_name := "Aroma" |};
     {| option_id := 4; option_name := "Bodega" |};
     {| option_id := 2; option_name := "Molino Viejo" |};
     {| option_id := 1; option_name := "Tostaduria Sur" |}] /\
  NoDup (map option_id
             (localOptions Inputs.byte_compare Inputs.locals_response
                           [Inputs.a_balance 2 "Molino Viejo" 120;
                            Inputs.a_balance 9 "Andes" 30] [])).
Proof.
  split; [reflexivity|].
  exact (proj1 (localOptions_last_wins Inputs.byte_compare
                  ClientWalletFacts.byte_compare_total
                  ClientWalletFacts.byte_compare_trans
                  Inputs.locals_response
                  [Inputs.a_balance 2 "Molino Viejo" 120;
                   Inputs.a_balance 9 "Andes" 30] [])).
Defined.

End WalletBehaviour.

(** ** Catalog page: the stock buttons, the visible products, the form *)

Module CatalogBehaviour.
Import Catalog.




Lemma elem_of_myLocalIds user locals x :
  x ∈ myLocalIds user locals <->
  exists username local,
    user = Some username /\ local ∈ locals /\
    owner_name local = username /\ local_id local = x.
Proof.
  unfold myLocalIds, myLocals. rewrite elem_of_list_to_set.
  destruct user as [username|].
  - rewrite list_elem_of_fmap. split.
    + intros (local & -> & Hin). apply list_elem_of_filter in Hin as [Ho Hin].
      now exists username, local.
    + intros (? & local & [= <-] & Hin & Ho & <-). exists local.
      split; [reflexivity|]. now apply list_elem_of_filter.
  - split; [intros Hin; now apply elem_of_nil in Hin|].
    now intros (? & ? & [=] & _).
Qed.

Lemma visibleProducts_Permutation (localeCompare : string -> string -> Z)
      user locals products :
  visibleProducts localeCompare user locals products
  ≡ₚ filter (fun product => local product ∈ myLocalIds user locals)
            products.
Proof.
  unfold visibleProducts.
  destruct (decide (size (myLocalIds user locals) = 0%nat)) as [Hsize|_].
  - apply size_empty_inv in Hsize.
    induction products as [|p ps IH]; [reflexivity|].
    rewrite filter_cons, decide_False; [exact IH|].
    intros Hin. now apply Hsize in Hin.
  - apply JSFacts.Array_sort_Permutation.
Qed.

Section Search.
Variables trim toLowerCase : string -> string.
Variable includes : string -> string -> bool.

Lemma filteredProducts_filter visible stockFilter categoryFilter searchTerm :
  filteredProducts trim toLowerCase includes visible
                   (criticalProducts visible) stockFilter categoryFilter
                   searchTerm
  = filter (passes trim toLowerCase includes stockFilter categoryFilter
                   searchTerm) visible.
Proof.
  unfold filteredProducts, criticalProducts.
  assert (forall (P : Product -> Prop) `{forall x, Decision (P x)}
                 (l : list Product),
             (forall x, P x) -> filter P l = l) as Hall.
  { intros P ? l HP. induction l as [|x l IH]; [reflexivity|].
    rewrite filter_cons, decide_True by apply HP. now rewrite IH. }
  destruct (String.eqb_spec (trim searchTerm) EmptyString) as [Hs|Hs];
    cbn [negb]; destruct stockFilter, categoryFilter as [c|];
    rewrite ?list_filter_filter;
    try (apply list_filter_iff);
    try (symmetry; apply Hall);
    unfold passes; intros product; rewrite ?orb_true_iff;
    intuition (try discriminate; try congruence).
  all: match goal with
       | H : forall c0, Some ?c = Some c0 -> _ |- _ =>
           now apply (H c)
       | _ => idtac
       end.
Qed.

(** The data of the table is the visible products that pass the three
    filters, in the order of the visible ones: the fetched products
    whose local has the user's name as [owner_name], of the critical
    stock state when that filter is on, of the chosen category, and
    with the search term in their name or their description, each as
    often as it was fetched.  Without a user the table is empty;
    without a filter it holds every visible product. *)
Theorem filteredProducts_owned (localeCompare : string -> string -> Z)
        user locals products stockFilter categoryFilter searchTerm :
  let visible := visibleProducts localeCompare user locals products in
  let rows :=
    filteredProducts trim toLowerCase includes visible
                     (criticalProducts visible) stockFilter categoryFilter
                     searchTerm in
  let owned := fun product =>
    exists username l,
      user = Some username /\ l ∈ locals /\
      owner_name l = username /\ local_id l = local product in
  rows `sublist_of` visible /\
  rows ≡ₚ filter (fun product =>
                    local product ∈ myLocalIds user locals /\
                    passes trim toLowerCase includes stockFilter
                           categoryFilter searchTerm product)
                 products /\
  (forall product,
      product ∈ rows <->
      product ∈ products /\ owned product /\
      passes trim toLowerCase includes stockFilter categoryFilter
             searchTerm product) /\
  (user = None -> rows = []) /\
  (stockFilter = stock_all -> categoryFilter = None ->
   trim searchTerm = EmptyString -> rows = visible).
Proof.
  cbv zeta. rewrite filteredProducts_filter.
  pose proof (visibleProducts_Permutation localeCompare user locals products)
    as Hperm.
  split; [apply sublist_filter|]. split; [|split; [|split]].
  - rewrite Hperm, list_filter_filter. apply reflexive_eq.
    apply list_filter_iff. intros product. tauto.
  - intros product.
    rewrite list_elem_of_filter, Hperm, list_elem_of_filter,
            elem_of_myLocalIds. tauto.
  - intros ->. reflexivity.
  - intros -> -> Hs. clear Hperm.
    induction (visibleProducts localeCompare user locals products)
      as [|x l IH]; [reflexivity|].
    rewrite filter_cons, decide_True; [now rewrite IH|].
    unfold passes. split; [discriminate|]. split; [discriminate|].
    intros Hne. contradiction.
Qed.

End Search.

Section ProductForm.
Context {num : Type} (zero : num) (lt : num -> num -> bool).
Context (Number : string -> option num) (trim : string -> string).

Hypothesis lt_irrefl : lt zero zero = false.

Lemma Math_max_zero a : lt (Math_max lt a zero) zero = false.
Proof.
  unfold Math_max. destruct (lt a zero) eqn:Ha; [exact lt_irrefl|exact Ha].
Qed.

(** The form sends a request only with an access token, a local, a
    category, a name that is not blank and a price.  The request then
    carries a stock and two thresholds that are not below zero, a low
    threshold that is not below the critical one, with stock tracking
    [in_stock] exactly when the stock is above zero, and without it
    three zeros and the [in_stock] of the form.  A new product goes by
    POST with [is_active] set; an edited one by PATCH to its own path,
    without [is_active]. *)
Theorem handleSubmitProduct_sent accessToken editingProduct form
        method path body :
  handleSubmitProduct zero lt Number trim accessToken editingProduct form
  = Sent method path body ->
  (JS.truthy_string accessToken = true /\
   localId form <> EmptyString /\ categoryId form <> EmptyString /\
   payload_name body = trim (form_name form) /\
   payload_name body <> EmptyString /\
   payload_price body = form_price form /\
   payload_price body <> EmptyString) /\
  (lt (payload_stock body) zero = false /\
   lt (payload_low_stock_threshold body) zero = false /\
   lt (payload_critical_stock_threshold body) zero = false /\
   lt (payload_low_stock_threshold body)
      (payload_critical_stock_threshold body) = false) /\
  (if tracksStock form
   then payload_in_stock body = lt zero (payload_stock body)
   else payload_stock body = zero /\
        payload_low_stock_threshold body = zero /\
        payload_critical_stock_threshold body = zero /\
        payload_in_stock body = inStock form) /\
  match editingProduct with
  | None =>
      method = "POST" /\ path = "/api/products/" /\
      payload_is_active body = Some true
  | Some product =>
      method = "PATCH" /\ path = product_path product /\
      payload_is_active body = None
  end.
Proof.
  unfold handleSubmitProduct.
  destruct (JS.truthy_string accessToken); [|discriminate]. cbn [negb].
  destruct (String.eqb_spec (localId form) EmptyString) as [|Hlocal];
    [discriminate|].
  destruct (String.eqb_spec (categoryId form) EmptyString) as [|Hcategory];
    [discriminate|].
  destruct (String.eqb_spec (trim (form_name form)) EmptyString)
    as [|Hname]; [discriminate|]. cbn [orb].
  destruct (String.eqb_spec (form_price form) EmptyString) as [|Hprice];
    [discriminate|].
  destruct (tracksStock form).
  - destruct (Number (form_stock form)) as [parsedStock|]; [|discriminate].
    destruct (Number (lowStockThreshold form)) as [parsedLow|];
      [|discriminate].
    destruct (Number (criticalStockThreshold form)) as [parsedCritical|];
      [|discriminate].
    destruct (lt (Math_max lt parsedLow zero)
                 (Math_max lt parsedCritical zero)) eqn:Hlow;
      [discriminate|].
    destruct editingProduct as [product|]; intros [= <- <- <-];
      cbn [payload_name payload_price payload_stock payload_in_stock
           payload_low_stock_threshold payload_critical_stock_threshold
           payload_is_active];
      rewrite !Math_max_zero; auto 10.
  - destruct editingProduct as [product|]; intros [= <- <- <-];
      cbn [payload_name payload_price payload_stock payload_in_stock
           payload_low_stock_threshold payload_critical_stock_threshold
           payload_is_active];
      rewrite !lt_irrefl; auto 10.
Qed.

End ProductForm.

Lemma or_else_not_empty s fallback :
  fallback <> EmptyString -> or_else s fallback <> EmptyString.
Proof.
  intros Hf. unfold or_else.
  destruct (String.eqb_spec s EmptyString); assumption.
Qed.

(** A change of [tracksStock], or of the category to one of the known
    categories, leaves the stock fields of the form in line with the
    tracking: without tracking the stock is empty and both thresholds
    are 0, and unticking the box also marks the product available; with
    tracking, on the form of a new product, neither threshold is
    empty.  The tracking of the form is then that of the category, or
    the ticked value. *)
Theorem handleFormChange_tracking categories editingProduct c prev :
  let next := handleFormChange categories editingProduct c prev in
  forall tracks,
    (c = change_tracksStock tracks \/
     exists value category,
       c = change_categoryId value /\
       List.find (fun item => String.eqb (pretty (Category.id item)) value)
                 categories = Some category /\
       Category.tracks_stock category = tracks) ->
    tracksStock next = tracks /\
    (tracks = false ->
     form_stock next = EmptyString /\ lowStockThreshold next = "0" /\
     criticalStockThreshold next = "0" /\
     (c = change_tracksStock false -> inStock next = true)) /\
    (tracks = true -> editingProduct = None ->
     lowStockThreshold next <> EmptyString /\
     criticalStockThreshold next <> EmptyString).
Proof.
  intros next tracks Hc. subst next.
  destruct Hc as [->|(value & category & -> & Hfind & Htracks)].
  - unfold handleFormChange.
    destruct tracks, editingProduct as [product|];
      cbn [set_field set_stock_fields tracksStock form_stock
           lowStockThreshold criticalStockThreshold inStock];
      (split; [reflexivity|]); split; intros; try discriminate;
      repeat split; intros; try discriminate; try reflexivity;
      apply or_else_not_empty; discriminate.
  - unfold handleFormChange. rewrite Hfind, Htracks.
    destruct tracks, editingProduct as [product|];
      cbn [negb set_field set_tracking set_stock_fields tracksStock
           form_stock lowStockThreshold criticalStockThreshold inStock];
      (split; [reflexivity|]); split; intros; try discriminate;
      repeat split; intros; try discriminate; try reflexivity;
      apply or_else_not_empty; discriminate.
Qed.

Lemma handleFormChange_tracking_witness :
  let next :=
    handleFormChange [Inputs.pasteles] None (change_categoryId "9")
                     Inputs.new_espresso in
  tracksStock next = false /\ form_stock next = EmptyString /\
  lowStockThreshold next = "0" /\ criticalStockThreshold next = "0".
Proof.
  pose proof (handleFormChange_tracking
                [Inputs.pasteles] None (change_categoryId "9")
                Inputs.new_espresso false
                (or_intror
                   (ex_intro _ "9"
                      (ex_intro _ Inputs.pasteles
                         (conj eq_refl (conj eq_refl eq_refl))))))
    as (Htracks & Hoff & _).
  destruct (Hoff eq_refl) as (Hstock & Hlow & Hcritical & _).
  exact (conj Htracks (conj Hstock (conj Hlow Hcritical))).
Defined.

Section TrackingOff.
Context {num : Type} (zero : num) (lt : num -> num -> bool).
Context (Number : string -> option num) (trim : string -> string).

(** Once the box of the stock tracking is unticked, the stock and the
    thresholds that were typed before no longer count: the form is sent
    when a token, a local, a category, a name and a price are there,
    whether or not the three fields held numbers, and it sends a product
    without tracking, with stock and thresholds 0, marked available. *)
Theorem tracking_off_submit categories accessToken editingProduct prev :
  let form :=
    handleFormChange categories editingProduct (change_tracksStock false)
                     prev in
  JS.truthy_string accessToken = true ->
  localId prev <> EmptyString -> categoryId prev <> EmptyString ->
  trim (form_name prev) <> EmptyString -> form_price prev <> EmptyString ->
  exists method path body,
    handleSubmitProduct zero lt Number trim accessToken editingProduct form
    = Sent method path body /\
    payload_tracks_stock body = false /\
    payload_stock body = zero /\
    payload_low_stock_threshold body = zero /\
    payload_critical_stock_threshold body = zero /\
    payload_in_stock body = true.
Proof.
  intros form Htoken Hlocal Hcategory Hname Hprice. subst form.
  unfold handleFormChange, handleSubmitProduct.
  cbn [set_field set_stock_fields tracksStock form_stock localId categoryId
       form_name form_price lowStockThreshold criticalStockThreshold
       inStock].
  rewrite Htoken. cbn [negb].
  rewrite (proj2 (String.eqb_neq _ _) Hlocal),
          (proj2 (String.eqb_neq _ _) Hcategory),
          (proj2 (String.eqb_neq _ _) Hname),
          (proj2 (String.eqb_neq _ _) Hprice).
  cbn [orb].
  destruct editingProduct as [product|]; do 3 eexists;
    (split; [reflexivity|]); cbn; auto.
Qed.

End TrackingOff.

Lemma tracking_off_submit_witness :
  exists method path body,
    handleSubmitProduct
      0 Z.ltb Inputs.Number_Z Inputs.trim (Some "t0k3n") None
      (handleFormChange [] None (change_tracksStock false)
                        Inputs.new_espresso)
    = Sent method path body /\
    payload_tracks_stock body = false /\
    payload_stock body = 0 /\
    payload_low_stock_threshold body = 0 /\
    payload_critical_stock_threshold body = 0 /\
    payload_in_stock body = true.
Proof.
  apply (tracking_off_submit 0 Z.ltb Inputs.Number_Z Inputs.trim [] 
                             (Some "t0k3n") None Inputs.new_espresso);
    vm_compute; congruence.
Defined.

Lemma handleSubmitProduct_sent_witness :
  exists body,
    handleSubmitProduct 0 Z.ltb Inputs.Number_Z Inputs.trim
                        (Some "t0k3n") None
                        Inputs.new_espresso
    = Sent "POST" "/api/products/" body /\
    payload_stock body = 12 /\ payload_in_stock body = true.
Proof.
  eexists. split; [vm_compute; reflexivity|].
  pose proof (handleSubmitProduct_sent
                0 Z.ltb Inputs.Number_Z Inputs.trim eq_refl
                (Some "t0k3n") None
                Inputs.new_espresso "POST" "/api/products/" _ eq_refl)
    as (_ & _ & Hin & _).
  split; [reflexivity|exact Hin].
Defined.

End CatalogBehaviour.

(** ** Orders page: the counts of the summary *)

Module OrdersBehaviour.
Import Orders.

Lemma fold_counts (f : string -> JS.value) :
  fold_left (fun acc status =>
               Collections.Map_set (status_name status)
                                   (f (status_name status)) acc)
            ORDER_STATUSES []
  = map (fun status => (status_name status, f (status_name status)))
        ORDER_STATUSES.
Proof. vm_compute. reflexivity. Qed.

Lemma lookup_counts (f : string -> JS.value) status :
  JS.lookup_prop
    (status_name status)
    (map (fun status => (status_name status, f (status_name status)))
         ORDER_STATUSES)
  = f (status_name status).
Proof. destruct status; reflexivity. Qed.

Lemma nullish_coalesce_idem a b :
  nullish_coalesce (nullish_coalesce a (JS.number 0)) b
  = nullish_coalesce a (JS.number 0).
Proof. destruct a; reflexivity. Qed.

(** Whatever the server sent as [counts], an object, [null], nothing or
    any other value, the summary gets an object with exactly the five
    statuses as keys, in the order of [ORDER_STATUSES]; each count is
    the received one, or 0 where it is missing or [null], so none is
    [undefined] or [null]; keys that are no status are dropped, and the
    result is a fixed point of the function. *)
Theorem ensureSummaryCounts_counts rawCounts :
  exists counts,
    ensureSummaryCounts rawCounts = JS.object counts /\
    map fst counts = map status_name ORDER_STATUSES /\
    (forall status,
        JS.lookup_prop (status_name status) counts
        = nullish_coalesce (optional_get rawCounts (status_name status))
                           (JS.number 0)) /\
    (forall status,
        JS.lookup_prop (status_name status) counts <> JS.undefined /\
        JS.lookup_prop (status_name status) counts <> JS.null) /\
    (forall k, k ∉ map status_name ORDER_STATUSES ->
               JS.lookup_prop k counts = JS.undefined) /\
    ensureSummaryCounts (JS.object counts) = JS.object counts.
Proof.
  pose (f := fun k => nullish_coalesce (optional_get rawCounts k)
                                       (JS.number 0)).
  exists (map (fun status => (status_name status, f (status_name status)))
              ORDER_STATUSES).
  assert (forall raw,
             ensureSummaryCounts raw
             = JS.object
                 (map (fun status =>
                         (status_name status,
                          nullish_coalesce
                            (optional_get raw (status_name status))
                            (JS.number 0)))
                      ORDER_STATUSES)) as Hfold.
  { intros raw. unfold ensureSummaryCounts.
    exact (f_equal JS.object
             (fold_counts
                (fun k => nullish_coalesce (optional_get raw k)
                                           (JS.number 0)))). }
  split; [exact (Hfold rawCounts)|].
  split; [reflexivity|].
  split; [intros status; exact (lookup_counts f status)|].
  split.
  { intros status. rewrite (lookup_counts f). unfold f.
    destruct (optional_get rawCounts (status_name status));
      split; discriminate. }
  split.
  { intros k Hk. cbn [map ORDER_STATUSES status_name] in Hk.
    rewrite !not_elem_of_cons in Hk.
    destruct Hk as (H1 & H2 & H3 & H4 & H5 & _).
    cbn [map ORDER_STATUSES JS.lookup_prop status_name].
    rewrite <- String.eqb_neq in H1, H2, H3, H4, H5.
    now rewrite H1, H2, H3, H4, H5. }
  rewrite Hfold. f_equal.
  apply map_ext_in. intros status _. f_equal.
  unfold optional_get at 1. cbn [JS.get].
  rewrite (lookup_counts f). apply nullish_coalesce_idem.
Qed.

(** The buttons only move an order forward: a status that was left is
    never offered again, however many buttons are pressed, and no button
    leads to [pendiente]. *)
Theorem status_never_returns s s' :
  tc offered s s' ->
  s' <> s /\ s' <> pendiente /\ ~ tc offered s' s.
Proof.
  pose (rank := fun s => match s with
                         | pendiente => 0
                         | preparando => 1
                         | listo => 2
                         | completado | cancelado => 3
                         end).
  assert (forall a b, tc offered a b -> rank a < rank b) as Hrank.
  { intros a b Htc. induction Htc as [a b Hstep|a b c Hstep _ IH].
    - apply OrdersFacts.offered_iff_table in Hstep.
      destruct a; cbn in Hstep; intuition subst; cbn; lia.
    - apply OrdersFacts.offered_iff_table in Hstep.
      enough (rank a < rank b) by lia.
      destruct a; cbn in Hstep; intuition subst; cbn; lia. }
  intros Htc. apply Hrank in Htc as Hlt. split; [|split].
  - intros ->. lia.
  - intros ->. destruct s; cbn in Hlt; lia.
  - intros Hback. apply Hrank in Hback. lia.
Qed.

Lemma status_never_returns_witness :
  tc offered pendiente listo /\ ~ tc offered listo pendiente.
Proof.
  assert (tc offered pendiente listo) as Htc.
  { apply tc_l with preparando.
    - apply OrdersFacts.offered_iff_table. cbn. auto.
    - apply tc_once. apply OrdersFacts.offered_iff_table. cbn. auto. }
  split; [exact Htc|].
  exact (proj2 (proj2 (status_never_returns pendiente listo Htc))).
Defined.

End OrdersBehaviour.

(** ** Dashboard of a local: the opening hours and the list of locals *)

Module LocalDashboardBehaviour.
Import LocalDashboard.

Lemma NoDup_WEEK_DAYS : NoDup WEEK_DAYS.
Proof. apply (bool_decide_unpack _). vm_compute. exact I. Qed.

Lemma elem_of_WEEK_DAYS day : day ∈ WEEK_DAYS.
Proof. destruct day; unfold WEEK_DAYS; rewrite !elem_of_cons; tauto. Qed.

Lemma normalize_day_other value base day d :
  d <> day -> normalize_day value base day d = base d.
Proof.
  intros Hne. unfold normalize_day.
  destruct (_ && _); [|reflexivity].
  unfold set_day. now rewrite decide_False.
Qed.

Lemma normalize_day_ext value base base' d :
  base d = base' d ->
  normalize_day value base d d = normalize_day value base' d d.
Proof.
  intros Heq. unfold normalize_day.
  destruct (_ && _); [|exact Heq].
  unfold set_day. rewrite !decide_True by reflexivity. now rewrite Heq.
Qed.

(** The [forEach] visits every day once, so each day of the result
    comes from its own round alone. *)
Lemma fold_normalize value days base d :
  NoDup days ->
  fold_left (normalize_day value) days base d
  = if decide (d ∈ days) then normalize_day value base d d else base d.
Proof.
  intros Hnd. revert base.
  induction Hnd as [|day days Hnin Hnd IH]; intros base; cbn [fold_left].
  - rewrite decide_False; [reflexivity|]. apply not_elem_of_nil.
  - rewrite IH. destruct (decide (d = day)) as [->|Hne].
    + rewrite decide_False by exact Hnin.
      rewrite decide_True; [reflexivity|]. now left.
    + destruct (decide (d ∈ days)) as [Hin|Hnin'].
      * rewrite decide_True by now right.
        apply normalize_day_ext. now apply normalize_day_other.
      * rewrite decide_False by (rewrite elem_of_cons; tauto).
        now apply normalize_day_other.
Qed.

Lemma normalizeOpeningHours_day value day :
  normalizeOpeningHours value day
  = if negb (JS.truthy value) || negb (String.eqb (typeof value) "object")
    then buildDefaultOpeningHours day
    else normalize_day value buildDefaultOpeningHours day day.
Proof.
  unfold normalizeOpeningHours. destruct (_ || _); [reflexivity|].
  rewrite fold_normalize by exact NoDup_WEEK_DAYS.
  rewrite decide_True; [reflexivity|]. apply elem_of_WEEK_DAYS.
Qed.

Lemma string_or_not_empty v fallback :
  fallback <> EmptyString -> string_or v fallback <> EmptyString.
Proof.
  intros Hf. destruct v; try exact Hf. cbn [string_or JS.truthy].
  destruct (String.eqb_spec s EmptyString); [exact Hf|assumption].
Qed.

Lemma default_times day :
  open (buildDefaultOpeningHours day) <> EmptyString /\
  close (buildDefaultOpeningHours day) <> EmptyString.
Proof. destruct day; split; discriminate. Qed.

Lemma normalize_times value day :
  open (normalizeOpeningHours value day) <> EmptyString /\
  close (normalizeOpeningHours value day) <> EmptyString.
Proof.
  rewrite normalizeOpeningHours_day.
  destruct (_ || _); [apply default_times|].
  unfold normalize_day. destruct (_ && _); [|apply default_times].
  unfold set_day. rewrite decide_True by reflexivity. cbn [open close].
  split; apply string_or_not_empty; apply default_times.
Qed.

(** Whatever value the server keeps as [opening_hours], every day of
    the normalised hours has an opening and a closing time that is not
    empty, and a day is closed only when the value says so for that day,
    or when it is the Sunday of the defaults. *)
Theorem normalizeOpeningHours_times value day :
  open (normalizeOpeningHours value day) <> EmptyString /\
  close (normalizeOpeningHours value day) <> EmptyString /\
  (closed (normalizeOpeningHours value day) = true ->
   day = sunday \/
   JS.truthy (read (read value (day_name day)) "closed") = true).
Proof.
  split; [apply normalize_times|]. split; [apply normalize_times|].
  assert (forall d, closed (buildDefaultOpeningHours d) = true ->
                    d = sunday) as Hdefault
      by (intros []; cbn; intros; (reflexivity || discriminate)).
  rewrite normalizeOpeningHours_day.
  destruct (_ || _); [intros Hc; left; now apply Hdefault|].
  unfold normalize_day. destruct (_ && _);
    [|intros Hc; left; now apply Hdefault].
  unfold set_day. rewrite decide_True by reflexivity. cbn [closed].
  intros Hc. right.
  now destruct (read (read value (day_name day)) "closed").
Qed.

Lemma read_OpeningHours_value hours day :
  read (OpeningHours_value hours) (day_name day)
  = DayHours_value (hours day).
Proof. destruct day; reflexivity. Qed.

Lemma normalize_value hours day :
  normalizeOpeningHours (OpeningHours_value hours) day
  = {| open := if String.eqb (open (hours day)) EmptyString
               then open (buildDefaultOpeningHours day)
               else open (hours day);
       close := if String.eqb (close (hours day)) EmptyString
                then close (buildDefaultOpeningHours day)
                else close (hours day);
       closed := closed (hours day) |}.
Proof.
  rewrite normalizeOpeningHours_day.
  change (negb (JS.truthy (OpeningHours_value hours))
          || negb (String.eqb (typeof (OpeningHours_value hours)) "object"))
    with false. cbv iota.
  unfold normalize_day. rewrite read_OpeningHours_value.
  change (JS.truthy (DayHours_value (hours day))
          && String.eqb (typeof (DayHours_value (hours day))) "object")
    with true. cbv iota.
  unfold set_day. rewrite decide_True by reflexivity.
  change (read (DayHours_value (hours day)) "open")
    with (JS.str (open (hours day))).
  change (read (DayHours_value (hours day)) "close")
    with (JS.str (close (hours day))).
  change (read (DayHours_value (hours day)) "closed")
    with (JS.boolean (closed (hours day))).
  cbn [string_or JS.truthy].
  now destruct (String.eqb (open (hours day)) EmptyString),
               (String.eqb (close (hours day)) EmptyString).
Qed.

(** Hours that went to the server and came back as they were are read
    back unchanged, but for a time that was left empty, which becomes
    the default of its day.  So the hours the page normalised once
    come back the same: normalising is idempotent. *)
Theorem normalizeOpeningHours_roundtrip hours value day :
  normalizeOpeningHours (OpeningHours_value hours) day
  = {| open := if String.eqb (open (hours day)) EmptyString
               then open (buildDefaultOpeningHours day)
               else open (hours day);
       close := if String.eqb (close (hours day)) EmptyString
                then close (buildDefaultOpeningHours day)
                else close (hours day);
       closed := closed (hours day) |} /\
  normalizeOpeningHours
    (OpeningHours_value (normalizeOpeningHours value)) day
  = normalizeOpeningHours value day.
Proof.
  split; [apply normalize_value|].
  rewrite normalize_value.
  destruct (normalize_times value day) as [Hopen Hclose].
  destruct (String.eqb_spec (open (normalizeOpeningHours value day))
                            EmptyString); [contradiction|].
  destruct (String.eqb_spec (close (normalizeOpeningHours value day))
                            EmptyString); [contradiction|].
  now destruct (normalizeOpeningHours value day).
Qed.

(** The answer of a PATCH replaces the locals with its [id] and no
    other: the list keeps its length, its ids and their order, and an
    answer whose [id] is not on the list changes nothing. *)
Theorem replace_local_effect {LocalProfile : Type}
        (id : LocalProfile -> Z) updated prev :
  length (replace_local id updated prev) = length prev /\
  map id (replace_local id updated prev) = map id prev /\
  (forall local, local ∈ replace_local id updated prev ->
                 local = updated \/
                 (local ∈ prev /\ id local <> id updated)) /\
  (id updated ∉ map id prev -> replace_local id updated prev = prev).
Proof.
  unfold replace_local. split; [apply length_map|]. split; [|split].
  - rewrite map_map. apply map_ext. intros local.
    now destruct (decide (id local = id updated)).
  - intros local Hin. apply list_elem_of_fmap in Hin as (l & -> & Hin).
    destruct (decide (id l = id updated)); auto.
  - intros Hnin. rewrite <- (map_id prev) at 2. apply map_ext_in.
    intros local Hin. rewrite decide_False; [reflexivity|].
    intros Heq. apply Hnin. rewrite <- Heq.
    apply list_elem_of_fmap. exists local. split; [reflexivity|].
    now apply list_elem_of_In.
Qed.

End LocalDashboardBehaviour.

(** ** Login and register pages: what the user is told *)

Module SessionPages.
Import JS AuthContext.

Section WithPlatform.
Variable P : platform.

Lemma login_error fetch credentials s :
  error (snd (login P fetch credentials s))
  = match fst (login P fetch credentials s) with
    | Return _ => None
    | Throw err => Some (login_error_message P err)
    end.
Proof.
  unfold login. cbn [login_request].
  destruct (fetch _ _) as [tokenResponse|err]; [|reflexivity].
  set (s1 := login_tokens_arrived P credentials tokenResponse
                                  (login_begin s)).
  assert (error s1 = None) as Herr
      by (unfold s1, login_tokens_arrived;
          now rewrite AuthBehaviour.persist_error).
  destruct (AuthBehaviour.loadUserProfile_result
              P fetch tokenResponse (credentials_username credentials) s1)
    as [-> | (u & r & ->)]; cbn [login_finish fst snd].
  - exact Herr.
  - cbn. now rewrite AuthBehaviour.persist_error.
Qed.

Lemma register_error fetch payload s :
  error (snd (register P fetch payload s))
  = match fst (register P fetch payload s) with
    | Return _ => None
    | Throw err => Some (register_error_message P err)
    end.
Proof.
  unfold register. cbn [register_request].
  destruct (fetch _ _) as [created|err]; [|reflexivity].
  pose proof (login_error
                fetch
                {| credentials_username := payload_username payload;
                   credentials_password := payload_password payload |}
                (setError None (setLoading true s))) as Hlogin.
  destruct (login P fetch _ _) as [[[]|err] s1]; cbn [fst snd] in *.
  - exact Hlogin.
  - reflexivity.
Qed.

(** What the register page tells the user after a submit.  Without a
    user name or a password no request is made and the page asks for
    both.  When [register] fails, the page shows its own fixed message:
    the message of the provider, which holds the details the server
    gave, is in the state but is not the one displayed.  When
    [register] succeeds nothing is displayed. *)
Theorem register_banner fetch form s :
  let page := RegisterPage.handleSubmit P fetch form s in
  (RegisterPage.username form = EmptyString \/
   RegisterPage.password form = EmptyString ->
   page = (Some "Completa usuario y contraseña.", clearError s) /\
   RegisterPage.banner (fst page) (snd page)
   = Some "Completa usuario y contraseña.") /\
  (RegisterPage.username form <> EmptyString ->
   RegisterPage.password form <> EmptyString ->
   match fst (register P fetch (RegisterPage.as_payload form)
                       (clearError s)) with
   | Throw err =>
       error (snd page) = Some (register_error_message P err) /\
       RegisterPage.banner (fst page) (snd page)
       = Some "No pudimos crear tu cuenta. Revisa los datos y vuelve a intentar."
   | Return _ => RegisterPage.banner (fst page) (snd page) = None
   end).
Proof.
  cbv zeta. unfold RegisterPage.handleSubmit. split.
  - intros Hempty.
    assert (String.eqb (RegisterPage.username form) EmptyString
            || String.eqb (RegisterPage.password form) EmptyString = true)
      as ->.
    { apply orb_true_iff.
      destruct Hempty as [-> | ->]; [left|right]; reflexivity. }
    split; reflexivity.
  - intros Hu Hp.
    rewrite (proj2 (String.eqb_neq _ _) Hu), (proj2 (String.eqb_neq _ _) Hp).
    cbn [orb].
    pose proof (register_error fetch (RegisterPage.as_payload form) (clearError s))
      as Herr.
    destruct (register P fetch (RegisterPage.as_payload form) (clearError s))
      as [[[]|err] s']; cbn [fst snd] in *.
    + unfold RegisterPage.banner. now rewrite Herr.
    + split; [exact Herr|reflexivity].
Qed.

(** What the login page tells the user after a submit.  Without a user
    name or a password no request is made and the page asks for both.
    When [login] fails, for whatever reason, a refusal of the server or
    a network that is down, the page says that the credentials are
    invalid: the message of the provider is in the state but is not the
    one displayed.  When [login] succeeds nothing is displayed. *)
Theorem login_banner fetch form s :
  let page := LoginPage.handleSubmit P fetch form s in
  let credentials :=
    {| credentials_username := LoginPage.username form;
       credentials_password := LoginPage.password form |} in
  (LoginPage.username form = EmptyString \/
   LoginPage.password form = EmptyString ->
   page = (Some "Ingresa tu usuario y contraseña.", clearError s) /\
   LoginPage.banner (fst page) (snd page)
   = Some "Ingresa tu usuario y contraseña.") /\
  (LoginPage.username form <> EmptyString ->
   LoginPage.password form <> EmptyString ->
   match fst (login P fetch credentials (clearError s)) with
   | Throw err =>
       error (snd page) = Some (login_error_message P err) /\
       LoginPage.banner (fst page) (snd page)
       = Some "Credenciales inválidas. Verifica e inténtalo nuevamente."
   | Return _ => LoginPage.banner (fst page) (snd page) = None
   end).
Proof.
  cbv zeta. unfold LoginPage.handleSubmit. split.
  - intros Hempty.
    assert (String.eqb (LoginPage.username form) EmptyString
            || String.eqb (LoginPage.password form) EmptyString = true)
      as ->.
    { apply orb_true_iff.
      destruct Hempty as [-> | ->]; [left|right]; reflexivity. }
    split; reflexivity.
  - intros Hu Hp.
    rewrite (proj2 (String.eqb_neq _ _) Hu), (proj2 (String.eqb_neq _ _) Hp).
    cbn [orb].
    pose proof (login_error
                  fetch
                  {| credentials_username := LoginPage.username form;
                     credentials_password := LoginPage.password form |}
                  (clearError s)) as Herr.
    destruct (login P fetch _ (clearError s)) as [[[]|err] s'];
      cbn [fst snd] in *.
    + unfold LoginPage.banner. now rewrite Herr.
    + split; [exact Herr|reflexivity].
Qed.

End WithPlatform.

Lemma login_banner_witness :
  LoginPage.banner
    (fst (LoginPage.handleSubmit
            Inputs.platform0 Inputs.offline
            {| LoginPage.username := "ana";
               LoginPage.password := "secreta" |} Inputs.fresh))
    (snd (LoginPage.handleSubmit
            Inputs.platform0 Inputs.offline
            {| LoginPage.username := "ana";
               LoginPage.password := "secreta" |} Inputs.fresh))
  = Some "Credenciales inválidas. Verifica e inténtalo nuevamente.".
Proof.
  pose proof (login_banner
                Inputs.platform0 Inputs.offline
                {| LoginPage.username := "ana";
                   LoginPage.password := "secreta" |}
                Inputs.fresh) as [_ Hsent].
  assert ("ana" <> EmptyString) as Hu by discriminate.
  assert ("secreta" <> EmptyString) as Hp by discriminate.
  exact (proj2 (Hsent Hu Hp)).
Defined.

Lemma register_banner_witness :
  RegisterPage.banner
    (fst (RegisterPage.handleSubmit Inputs.platform0 Inputs.offline
            {| RegisterPage.username := "ana";
               RegisterPage.email := EmptyString;
               RegisterPage.password := "secreta";
               RegisterPage.role := "cliente" |}
            Inputs.fresh))
    (snd (RegisterPage.handleSubmit Inputs.platform0 Inputs.offline
            {| RegisterPage.username := "ana";
               RegisterPage.email := EmptyString;
               RegisterPage.password := "secreta";
               RegisterPage.role := "cliente" |}
            Inputs.fresh))
  = Some "No pudimos crear tu cuenta. Revisa los datos y vuelve a intentar.".
Proof.
  pose proof (register_banner
                Inputs.platform0 Inputs.offline
                {| RegisterPage.username := "ana";
                   RegisterPage.email := EmptyString;
                   RegisterPage.password := "secreta";
                   RegisterPage.role := "cliente" |}
                Inputs.fresh) as [_ Hsent].
  assert ("ana" <> EmptyString) as Hu by discriminate.
  assert ("secreta" <> EmptyString) as Hp by discriminate.
  exact (proj2 (Hsent Hu Hp)).
Defined.

End SessionPages.
